(** * ros2_node_manager: shared-state cache, log fan-out, node tree, toasts

    A shallow embedding of the coordination code of the repository:

    - [Cache]: [CacheService] of [optimization.md] (section 4.3), a TTL cache
      with one [asyncio.Lock] per key, run by a cooperative event loop;
    - [Logs]: [LogService] of [optimization.md] (section 4.2), one collector
      task feeding a bounded [deque] and a dictionary of subscriber callbacks;
    - [CollectorTask]: the collector of [LogService] as a task of the event
      loop, with the connections of [logs_websocket] (section 4.1)
      subscribing and unsubscribing while it runs;
    - [NodeService]: the background refresh loop of [optimization.md]
      (section 4.4);
    - [Tree]: [buildTree] of the node tree component;
    - [Toasts]: [NotificationProvider] of [NotificationContext.jsx]. *)

From Stdlib Require Import ZArith List String Ascii Bool Lia.
From stdpp Require Import gmap strings list fin_maps.

#[local] Set Warnings "-clear-no-such-hyp,-register-all".

Local Open Scope string_scope.
Local Open Scope list_scope.
Local Open Scope Z_scope.

(** ** CacheService *)

Module Cache.

(** The exceptions that can leave [get_or_fetch]: those that a [fetch_fn]
    raises, and the [OverflowError] of
    [datetime.now() + timedelta(seconds=ttl_seconds)]. *)
Class Exceptions (Exn : Type) := OverflowError : Exn.

Section CacheService.
Context {Value Exn : Type} `{!Exceptions Exn}.

(** [asyncio.Lock]: the [_locked] flag and the FIFO of suspended
    acquirers ([_waiters]), each identified by the index of its task. *)
Record Lock := { locked : bool; waiters : list nat }.

Definition new_lock : Lock := {| locked := false; waiters := [] |}.

(** [self._cache: Dict[str, tuple[Any, datetime]]] and
    [self._locks: Dict[str, asyncio.Lock]].  A [datetime] is a number of
    microseconds. *)
Record CacheService := {
  _cache : gmap string (Value * Z);
  _locks : gmap string Lock
}.

Definition __init__ : CacheService := {| _cache := ∅; _locks := ∅ |}.

Definition set_cache (c : gmap string (Value * Z)) (s : CacheService) :=
  {| _cache := c; _locks := _locks s |}.

Definition set_locks (l : gmap string Lock) (s : CacheService) :=
  {| _cache := _cache s; _locks := l |}.

(** [self._cache.pop(key, None)] *)
Definition invalidate (key : string) (s : CacheService) : CacheService :=
  set_cache (delete key (_cache s)) s.

(** [keys_to_remove = [k for k in self._cache if k.startswith(prefix)]],
    then one [pop] per collected key. *)
Definition keys_to_remove (prefix : string) (s : CacheService) : list string :=
  List.filter (fun k => String.prefix prefix k) (map fst (map_to_list (_cache s))).

Definition invalidate_prefix (prefix : string) (s : CacheService) : CacheService :=
  foldl (fun s key => invalidate key s) s (keys_to_remove prefix s).

(** The cache test of [get_or_fetch], written twice in the source:
    [if key in self._cache: value, expires_at = self._cache[key];
     if datetime.now() < expires_at: return value]. *)
Definition cache_hit (key : string) (now : Z) (s : CacheService) : option Value :=
  match _cache s !! key with
  | Some (value, expires_at) => if now <? expires_at then Some value else None
  | None => None
  end.

(** [timedelta(seconds=ttl_seconds)] in microseconds. *)
Definition timedelta (ttl_seconds : Z) : Z := 1000000 * ttl_seconds.

(** [datetime.max], 9999-12-31 23:59:59.999999, in microseconds after
    [datetime.min]; the clock counts from [datetime.min] too. *)
Definition datetime_max : Z := 315537897599999999.

(** [datetime.now() + timedelta(seconds=ttl_seconds)]: a sum before
    [datetime.min] or after [datetime.max] raises [OverflowError], and so
    does a [timedelta] too large to be built, whose sum with a date would
    be out of range as well; [None] stands for the exception. *)
Definition expires (now ttl_seconds : Z) : option Z :=
  let expires_at := now + timedelta ttl_seconds in
  if (0 <=? expires_at) && (expires_at <=? datetime_max) then Some expires_at else None.

(** [if key not in self._locks: self._locks[key] = asyncio.Lock()] *)
Definition ensure_lock (key : string) (s : CacheService) : CacheService :=
  match _locks s !! key with
  | Some _ => s
  | None => set_locks (<[key := new_lock]> (_locks s)) s
  end.

Definition the_lock (key : string) (s : CacheService) : Lock :=
  default new_lock (_locks s !! key).

(** [Lock.release]: clear the flag; the first waiter, if any, is the one
    woken up, and it stays in the queue until it runs again. *)
Definition release (key : string) (s : CacheService) : CacheService :=
  set_locks (<[key := {| locked := false; waiters := waiters (the_lock key s) |}]> (_locks s)) s.

(** *** The event loop

    [get_or_fetch] is a coroutine: it runs without interruption up to its
    next suspension point, of which it has two, [lock.acquire()] on a held
    lock and [await fetch_fn()].  A coroutine is therefore in one of four
    states. *)
Inductive outcome := Ok (v : Value) | Raise (e : Exn).

Inductive coro :=
| Pending (key : string) (ttl_seconds : Z)   (* called, body not yet entered *)
| Waiting (key : string) (ttl_seconds : Z)   (* suspended in [acquire] *)
| Fetching (key : string) (ttl_seconds : Z)  (* holds the lock, in [await fetch_fn()] *)
| Finished (r : outcome).

Definition coro_key (c : coro) : option string :=
  match c with
  | Pending k _ | Waiting k _ | Fetching k _ => Some k
  | Finished _ => None
  end.

(** What the collaborator sees: each call of a [fetch_fn] and each of its
    results, in order of occurrence. *)
Inductive event :=
| Invoked (task : nat) (key : string)
| Resolved (task : nat) (key : string) (r : outcome).

(** The state of the loop.  [clock] is what [datetime.now()] returns; it is
    read as one value throughout a stretch that a task runs without
    suspending. *)
Record Loop := {
  service : CacheService;
  clock : Z;
  tasks : list coro;
  history : list event
}.

Definition set_task (i : nat) (c : coro) (s : CacheService) (evs : list event) (st : Loop) : Loop :=
  {| service := s; clock := clock st; tasks := <[i := c]> (tasks st);
     history := history st ++ evs |}.

(** The body of [async with self._locks[key]:], entered with the lock
    held: the second cache test, then the call of [fetch_fn]. *)
Definition critical (i : nat) (key : string) (ttl_seconds : Z) (s : CacheService) (st : Loop)
  : Loop :=
  match cache_hit key (clock st) s with
  | Some value => set_task i (Finished (Ok value)) (release key s) [] st
  | None => set_task i (Fetching key ttl_seconds) s [Invoked i key] st
  end.

Definition lock_held (b : bool) (ws : list nat) (key : string) (s : CacheService) : CacheService :=
  set_locks (<[key := {| locked := b; waiters := ws |}]> (_locks s)) s.

(** [get_or_fetch], run by the scheduler for task [i] up to its next
    suspension point: from its first line for a task that has not started,
    from the return of [acquire] for a task that waited for the lock. *)
Definition get_or_fetch (i : nat) (st : Loop) : option Loop :=
  match tasks st !! i with
  | Some (Pending key ttl_seconds) =>
      match cache_hit key (clock st) (service st) with
      | Some value => Some (set_task i (Finished (Ok value)) (service st) [] st)
      | None =>
          let s := ensure_lock key (service st) in
          let l := the_lock key s in
          if negb (locked l) && bool_decide (waiters l = []) then
            Some (critical i key ttl_seconds (lock_held true [] key s) st)
          else
            Some (set_task i (Waiting key ttl_seconds)
                    (lock_held (locked l) (waiters l ++ [i]) key s) [] st)
      end
  | Some (Waiting key ttl_seconds) =>
      let l := the_lock key (service st) in
      match locked l, waiters l with
      | false, j :: ws =>
          if bool_decide (j = i) then
            Some (critical i key ttl_seconds (lock_held true ws key (service st)) st)
          else None
      | _, _ => None
      end
  | _ => None
  end.

(** [get_or_fetch] from the return of [await fetch_fn()], which task [i]
    awaited and which completes with [r]:
    on a value, [self._cache[key] = (value, datetime.now() + timedelta(...))]
    and [return value], unless the sum raises [OverflowError], which then
    leaves the [async with] block with nothing stored; on an exception of
    [fetch_fn], that exception leaves the block.  In every case the lock is
    released. *)
Definition get_or_fetch_resume (i : nat) (r : outcome) (st : Loop) : option Loop :=
  match tasks st !! i with
  | Some (Fetching key ttl_seconds) =>
      match r with
      | Ok value =>
          match expires (clock st) ttl_seconds with
          | Some expires_at =>
              let s := set_cache (<[key := (value, expires_at)]> (_cache (service st)))
                         (service st) in
              Some (set_task i (Finished r) (release key s) [Resolved i key r] st)
          | None =>
              Some (set_task i (Finished (Raise OverflowError)) (release key (service st))
                      [Resolved i key r] st)
          end
      | Raise _ =>
          Some (set_task i (Finished r) (release key (service st)) [Resolved i key r] st)
      end
  | _ => None
  end.

(** What can happen next.  The clock never goes back: a [Tick] is taken
    only for [0 <= dt]. *)
Inductive action :=
| Tick (dt : Z)                    (* time passes *)
| Run (i : nat)                    (* the loop resumes task [i] *)
| Resolve (i : nat) (r : outcome). (* the fetch awaited by task [i] ends *)

Definition step (a : action) (st : Loop) : option Loop :=
  match a with
  | Tick dt =>
      if 0 <=? dt then
        Some {| service := service st; clock := clock st + dt;
                tasks := tasks st; history := history st |}
      else None
  | Run i => get_or_fetch i st
  | Resolve i r => get_or_fetch_resume i r st
  end.

Fixpoint run (acts : list action) (st : Loop) : option Loop :=
  match acts with
  | [] => Some st
  | a :: acts' =>
      match step a st with
      | Some st' => run acts' st'
      | None => None
      end
  end.

End CacheService.

Arguments Lock : clear implicits.
Arguments CacheService : clear implicits.
Arguments outcome : clear implicits.
Arguments coro : clear implicits.
Arguments event : clear implicits.
Arguments Loop : clear implicits.
Arguments action : clear implicits.

(** *** Invalidation *)

Section Invalidation.
Context {Value : Type}.
Implicit Types s : CacheService Value.

Lemma invalidate_all_lookup (ks : list string) s k :
  _cache (foldl (fun s key => invalidate key s) s ks) !! k
  = if decide (k ∈ ks) then None else _cache s !! k.
Proof.
  revert s. induction ks as [|k0 ks IH]; intros s; simpl.
  - destruct (decide (k ∈ [])) as [H|H]; [by apply elem_of_nil in H | done].
  - rewrite IH. unfold invalidate. simpl.
    destruct (decide (k = k0)) as [->|Hne].
    + rewrite lookup_delete_eq. rewrite (decide_True (P := k0 ∈ k0 :: ks)) by left.
      by case_decide.
    + rewrite lookup_delete_ne by done.
      destruct (decide (k ∈ ks)), (decide (k ∈ k0 :: ks)); try done; exfalso; set_solver.
Qed.

Lemma keys_to_remove_spec prefix s k :
  k ∈ keys_to_remove prefix s ↔ String.prefix prefix k = true ∧ is_Some (_cache s !! k).
Proof.
  unfold keys_to_remove. rewrite list_elem_of_In, filter_In, <- list_elem_of_In.
  rewrite list_elem_of_fmap. split.
  - intros [[[k' v] [-> Hin]] Hp]. split; [done|].
    apply elem_of_map_to_list in Hin. eauto.
  - intros [Hp [v Hv]]. split; [|done].
    exists (k, v). split; [done|]. by apply elem_of_map_to_list.
Qed.

Lemma invalidate_prefix_lookup prefix s k :
  _cache (invalidate_prefix prefix s) !! k
  = if String.prefix prefix k then None else _cache s !! k.
Proof.
  unfold invalidate_prefix. rewrite invalidate_all_lookup.
  destruct (decide (k ∈ keys_to_remove prefix s)) as [H|H].
  - apply keys_to_remove_spec in H as [-> _]. done.
  - destruct (String.prefix prefix k) eqn:Hp; [|done].
    destruct (_cache s !! k) eqn:Hk; [|done].
    exfalso. apply H, keys_to_remove_spec. eauto.
Qed.

Lemma invalidate_all_locks (ks : list string) s :
  _locks (foldl (fun s key => invalidate key s) s ks) = _locks s.
Proof. revert s. induction ks as [|k0 ks IH]; intros s; simpl; [done|]. by rewrite IH. Qed.

(** C8: [invalidate] removes the entry of [key] whether or not there is
    one, touches no other entry, changes nothing when the key is absent
    and nothing more when called again; [invalidate_prefix] removes
    exactly the keys that start with [prefix].  Neither touches the
    locks. *)
Theorem C8_invalidate_and_invalidate_prefix (s : CacheService Value) (key prefix : string) :
  _cache (invalidate key s) !! key = None
  ∧ (∀ k, k ≠ key → _cache (invalidate key s) !! k = _cache s !! k)
  ∧ (_cache s !! key = None → invalidate key s = s)
  ∧ invalidate key (invalidate key s) = invalidate key s
  ∧ (∀ k, String.prefix prefix k = true → _cache (invalidate_prefix prefix s) !! k = None)
  ∧ (∀ k, String.prefix prefix k = false →
          _cache (invalidate_prefix prefix s) !! k = _cache s !! k)
  ∧ _locks (invalidate key s) = _locks s
  ∧ _locks (invalidate_prefix prefix s) = _locks s.
Proof.
  repeat split.
  - apply lookup_delete_eq.
  - intros k Hne. simpl. by rewrite lookup_delete_ne.
  - intros Hnone. destruct s as [c l]. unfold invalidate, set_cache. simpl in *.
    f_equal. by apply delete_id.
  - unfold invalidate, set_cache. simpl. f_equal. apply delete_id, lookup_delete_eq.
  - intros k Hp. by rewrite invalidate_prefix_lookup, Hp.
  - intros k Hp. by rewrite invalidate_prefix_lookup, Hp.
  - apply invalidate_all_locks.
Qed.

End Invalidation.

(** *** Basic facts about the event loop *)

Section LoopFacts.
Context {Value Exn : Type} `{!Exceptions Exn}.
Implicit Types (s : CacheService Value) (st : Loop Value Exn).

Lemma cache_release key s : _cache (release key s) = _cache s.
Proof. done. Qed.
Lemma cache_lock_held b ws key s : _cache (lock_held b ws key s) = _cache s.
Proof. done. Qed.
Lemma cache_ensure_lock key s : _cache (ensure_lock key s) = _cache s.
Proof. unfold ensure_lock. by destruct (_locks s !! key). Qed.

Lemma cache_hit_ext key now s s' :
  _cache s = _cache s' → cache_hit key now s = cache_hit key now s'.
Proof. unfold cache_hit. by intros ->. Qed.

Lemma cache_hit_Some key now s v :
  cache_hit key now s = Some v ↔ ∃ e, _cache s !! key = Some (v, e) ∧ now < e.
Proof.
  unfold cache_hit. destruct (_cache s !! key) as [[v' e]|].
  - destruct (Z.ltb_spec now e); split.
    + intros [= ->]. eauto.
    + by intros (e' & [= -> ->] & _).
    + done.
    + intros (e' & [= -> ->] & ?). lia.
  - split; [done | by intros (? & ? & _)].
Qed.

Lemma cache_hit_None key now s :
  cache_hit key now s = None ↔ ∀ v e, _cache s !! key = Some (v, e) → e ≤ now.
Proof.
  unfold cache_hit. destruct (_cache s !! key) as [[v' e]|].
  - destruct (Z.ltb_spec now e); split.
    + done.
    + intros H'. specialize (H' _ _ eq_refl). lia.
    + by intros _ ? ? [= -> ->].
    + done.
  - split; [by intros _ ? ? ? | done].
Qed.

Lemma the_lock_ensure_lock key key' s : the_lock key (ensure_lock key' s) = the_lock key s.
Proof.
  unfold ensure_lock, the_lock. destruct (_locks s !! key') eqn:Hk; [done|]. simpl.
  destruct (decide (key' = key)) as [->|Hne].
  - by rewrite lookup_insert_eq, Hk.
  - by rewrite lookup_insert_ne.
Qed.

Lemma the_lock_lock_held b ws key key' s :
  the_lock key (lock_held b ws key' s)
  = if decide (key' = key) then {| locked := b; waiters := ws |} else the_lock key s.
Proof.
  unfold the_lock, lock_held. simpl. case_decide as H.
  - subst. by rewrite lookup_insert_eq.
  - by rewrite lookup_insert_ne.
Qed.

Lemma the_lock_release key key' s :
  the_lock key (release key' s)
  = if decide (key' = key) then {| locked := false; waiters := waiters (the_lock key s) |}
    else the_lock key s.
Proof.
  unfold the_lock, release. simpl. case_decide as H.
  - subst. by rewrite lookup_insert_eq.
  - by rewrite lookup_insert_ne.
Qed.

Lemma the_lock_set_cache key c s : the_lock key (set_cache c s) = the_lock key s.
Proof. done. Qed.

Lemma run_app acts1 acts2 st :
  run (acts1 ++ acts2) st = run acts1 st ≫= run acts2.
Proof.
  revert st. induction acts1 as [|a acts1 IH]; intros st; simpl; [done|].
  destruct (step a st); simpl; [apply IH | done].
Qed.

Lemma expires_Some now ttl e :
  expires now ttl = Some e ↔ e = now + timedelta ttl ∧ 0 ≤ e ≤ datetime_max.
Proof.
  unfold expires. cbv zeta.
  destruct (Z.leb_spec 0 (now + timedelta ttl)), (Z.leb_spec (now + timedelta ttl) datetime_max);
    simpl; (split; [intros [= <-]|intros [-> ?]]); first [done | lia].
Qed.

(** Every step of the loop is one of nine moves.  The second cache test
    of a task that took the lock without waiting repeats the first one at
    the same instant, so it cannot succeed. *)
Inductive move (st st' : Loop Value Exn) : Prop :=
| M_tick dt :
    0 ≤ dt →
    st' = {| service := service st; clock := clock st + dt;
             tasks := tasks st; history := history st |} →
    move st st'
| M_hit_first i key ttl v e :
    tasks st !! i = Some (Pending key ttl) →
    _cache (service st) !! key = Some (v, e) → clock st < e →
    st' = set_task i (Finished (Ok v)) (service st) [] st →
    move st st'
| M_queue i key ttl :
    tasks st !! i = Some (Pending key ttl) →
    cache_hit key (clock st) (service st) = None →
    locked (the_lock key (service st)) = true ∨ waiters (the_lock key (service st)) ≠ [] →
    st' = set_task i (Waiting key ttl)
            (lock_held (locked (the_lock key (service st)))
               (waiters (the_lock key (service st)) ++ [i]) key
               (ensure_lock key (service st))) [] st →
    move st st'
| M_fetch_first i key ttl :
    tasks st !! i = Some (Pending key ttl) →
    cache_hit key (clock st) (service st) = None →
    locked (the_lock key (service st)) = false →
    waiters (the_lock key (service st)) = [] →
    st' = set_task i (Fetching key ttl)
            (lock_held true [] key (ensure_lock key (service st))) [Invoked i key] st →
    move st st'
| M_hit_second i key ttl ws v e :
    tasks st !! i = Some (Waiting key ttl) →
    locked (the_lock key (service st)) = false →
    waiters (the_lock key (service st)) = i :: ws →
    _cache (service st) !! key = Some (v, e) → clock st < e →
    st' = set_task i (Finished (Ok v))
            (release key (lock_held true ws key (service st))) [] st →
    move st st'
| M_fetch_second i key ttl ws :
    tasks st !! i = Some (Waiting key ttl) →
    locked (the_lock key (service st)) = false →
    waiters (the_lock key (service st)) = i :: ws →
    cache_hit key (clock st) (service st) = None →
    st' = set_task i (Fetching key ttl)
            (lock_held true ws key (service st)) [Invoked i key] st →
    move st st'
| M_stored i key ttl v :
    tasks st !! i = Some (Fetching key ttl) →
    is_Some (expires (clock st) ttl) →
    st' = set_task i (Finished (Ok v))
            (release key (set_cache (<[key := (v, clock st + timedelta ttl)]>
                                       (_cache (service st))) (service st)))
            [Resolved i key (Ok v)] st →
    move st st'
| M_raised i key ttl e :
    tasks st !! i = Some (Fetching key ttl) →
    st' = set_task i (Finished (Raise e)) (release key (service st))
            [Resolved i key (Raise e)] st →
    move st st'
| M_overflow i key ttl v :
    tasks st !! i = Some (Fetching key ttl) →
    expires (clock st) ttl = None →
    st' = set_task i (Finished (Raise OverflowError)) (release key (service st))
            [Resolved i key (Ok v)] st →
    move st st'.

Lemma step_move a st st' : step a st = Some st' → move st st'.
Proof.
  destruct a as [dt|i|i r]; simpl.
  - destruct (Z.leb_spec 0 dt); [|done]. intros [= <-]. by eapply M_tick.
  - unfold get_or_fetch.
    destruct (tasks st !! i) as [[key ttl|key ttl|key ttl|r]|] eqn:Hi; try done.
    + destruct (cache_hit key (clock st) (service st)) as [v|] eqn:Hhit.
      { intros [= <-]. apply cache_hit_Some in Hhit as (e & He & Hlt).
        by eapply M_hit_first. }
      rewrite the_lock_ensure_lock.
      destruct (locked (the_lock key (service st))) eqn:Hl; simpl.
      { intros [= <-]. eapply M_queue; eauto. by rewrite Hl. }
      case_bool_decide as Hw.
      * intros [= <-]. unfold critical.
        rewrite (cache_hit_ext _ _ _ (service st)), Hhit
          by (by rewrite cache_lock_held, cache_ensure_lock).
        by eapply M_fetch_first.
      * intros [= <-]. eapply M_queue; eauto. by rewrite Hl.
    + destruct (locked (the_lock key (service st))) eqn:Hl; [done|].
      destruct (waiters (the_lock key (service st))) as [|j ws] eqn:Hw; [done|].
      case_bool_decide as Hj; [subst j|done].
      intros [= <-]. unfold critical.
      rewrite (cache_hit_ext _ _ _ (service st)) by done.
      destruct (cache_hit key (clock st) (service st)) as [v|] eqn:Hhit.
      * apply cache_hit_Some in Hhit as (e & He & Hlt). by eapply M_hit_second.
      * by eapply M_fetch_second.
  - unfold get_or_fetch_resume.
    destruct (tasks st !! i) as [[key ttl|key ttl|key ttl|r']|] eqn:Hi; try done.
    destruct r as [v|e].
    + destruct (expires (clock st) ttl) as [expires_at|] eqn:He; intros [= <-].
      * pose proof (proj1 (expires_Some _ _ _) He) as [-> _].
        eapply M_stored; [done|by eexists|done].
      * by eapply M_overflow.
    + intros [= <-]. by eapply M_raised.
Qed.

(** Only the return of a fetch adds the event of a returned fetch. *)
Lemma step_resolved a st st' j key v :
  step a st = Some st' → history st' = history st ++ [Resolved j key (Ok v)] →
  a = Resolve j (Ok v) ∧ ∃ ttl, tasks st !! j = Some (Fetching key ttl).
Proof.
  destruct a as [dt|i|i r]; simpl.
  - destruct (0 <=? dt); [|done]. intros [= <-]. simpl. intros Hh.
    apply (f_equal length) in Hh. rewrite length_app in Hh. simpl in Hh. lia.
  - unfold get_or_fetch, critical. repeat case_match; try done.
    all: intros [= <-]; cbn [history set_task]; intros Hh%app_inv_head; done.
  - unfold get_or_fetch_resume. repeat case_match; try done.
    all: intros [= <-]; cbn [history set_task]; intros Hh%app_inv_head;
      injection Hh as -> ->; try done; subst; eauto.
Qed.

Lemma move_clock st st' : move st st' → clock st ≤ clock st'.
Proof. destruct 1; subst; simpl; lia. Qed.

Lemma move_history st st' : move st st' → ∃ evs, history st' = history st ++ evs.
Proof. destruct 1; subst; simpl; eauto. exists []. by rewrite app_nil_r. Qed.

Lemma run_clock acts st st' : run acts st = Some st' → clock st ≤ clock st'.
Proof.
  revert st. induction acts as [|a acts IH]; intros st; simpl.
  - intros [= ->]. lia.
  - destruct (step a st) as [st1|] eqn:Hs; [|done]. intros H.
    apply step_move, move_clock in Hs. apply IH in H. lia.
Qed.

Lemma set_task_lookup i c s evs st j :
  is_Some (tasks st !! i) →
  tasks (set_task i c s evs st) !! j = if decide (i = j) then Some c else tasks st !! j.
Proof.
  intros Hi%lookup_lt_is_Some. simpl. case_decide as H.
  - subst. by apply list_lookup_insert_eq.
  - by apply list_lookup_insert_ne.
Qed.

End LoopFacts.

(** *** Expiry (C4) *)

Section Expiry.
Context {Value Exn : Type} `{!Exceptions Exn}.
Implicit Types (s : CacheService Value) (st : Loop Value Exn).

(** [v] is the result of a fetch for [key] that ended among [evs]. *)
Definition refreshed (key : string) (v : Value) (evs : list (event Value Exn)) : Prop :=
  ∃ j, Resolved j key (Ok v) ∈ evs.

Lemma refreshed_app key v evs evs' : refreshed key v evs → refreshed key v (evs ++ evs').
Proof. intros [j Hj]. exists j. apply elem_of_app. by left. Qed.

(** Since the read began at time [t0], the events [evs] have occurred:
    the entry of [key] is either one that had expired by [t0] or one
    stored since, and task [i] has returned nothing but a value fetched
    since. *)
Definition since (key : string) (i : nat) (t0 : Z) (evs : list (event Value Exn)) st : Prop :=
  t0 ≤ clock st
  ∧ (∃ c, tasks st !! i = Some c ∧ (coro_key c = Some key ∨ ∃ r, c = Finished r))
  ∧ (∀ v e, _cache (service st) !! key = Some (v, e) → e ≤ t0 ∨ refreshed key v evs)
  ∧ (∀ v, tasks st !! i = Some (Finished (Ok v)) → refreshed key v evs).

Lemma since_set_task key i t0 evs st j cj c' s' evs' :
  since key i t0 evs st →
  tasks st !! j = Some cj →
  (∀ v e, _cache s' !! key = Some (v, e) →
          _cache (service st) !! key = Some (v, e) ∨ refreshed key v (evs ++ evs')) →
  (j = i → coro_key c' = Some key ∨ (∃ e, c' = Finished (Raise e))
           ∨ ∃ v, c' = Finished (Ok v) ∧ refreshed key v (evs ++ evs')) →
  since key i t0 (evs ++ evs') (set_task j c' s' evs' st).
Proof.
  intros (Hclock & (c & Hc & Hkey) & Hcache & Hret) Hj Hs' Hc'.
  split; [done|]. split; [|split].
  - rewrite set_task_lookup by eauto. case_decide as Hji; [|eauto].
    eexists; split; [done|]. destruct (Hc' Hji) as [?|[[e ->]|(v & -> & _)]]; eauto.
  - intros v e Hve. destruct (Hs' _ _ Hve) as [Hold|?]; [|by right].
    destruct (Hcache _ _ Hold); [by left | right; by apply refreshed_app].
  - intros v. rewrite set_task_lookup by eauto. case_decide as Hji.
    + intros [= ->]. destruct (Hc' Hji) as [[=]|[[e [=]]|(v' & [= <-] & ?)]]. done.
    + intros Hv. by apply refreshed_app, Hret.
Qed.

Lemma since_move key i t0 evs st st' :
  move st st' → since key i t0 evs st →
  ∃ evs', history st' = history st ++ evs' ∧ since key i t0 (evs ++ evs') st'.
Proof.
  intros Hm Hinv.
  destruct Hm as [dt ? ->|j k ttl v e Hj Hk Hlt ->|j k ttl Hj Hmiss Hbusy ->
                 |j k ttl Hj Hmiss Hl Hw ->|j k ttl ws v e Hj Hl Hw Hk Hlt ->
                 |j k ttl ws Hj Hl Hw Hmiss ->|j k ttl v Hj Hfits ->|j k ttl e Hj ->
                 |j k ttl v Hj Hover ->];
    [exists []; rewrite !app_nil_r; split; [done|];
     destruct Hinv as (? & ? & ? & ?); repeat split; simpl; [lia|done..]
    | eexists; (split; [reflexivity|]); eapply since_set_task; eauto ..].
  all: try (intros ->; destruct Hinv as (Hclock & (c & Hc & Hkey) & Hcache & Hret);
            rewrite Hc in Hj; injection Hj as ->;
            destruct Hkey as [[= ->]|[? [=]]]).
  all: try (left; reflexivity).
  all: try (right; left; eauto; fail).
  all: try (intros ? ?; rewrite ?cache_lock_held, ?cache_release, ?cache_ensure_lock;
            by left).
  - (* returned at the first test: the entry is live, so it was stored since [t0] *)
    right; right. exists v. split; [done|]. rewrite app_nil_r.
    destruct (Hcache _ _ Hk); [lia|done].
  - (* returned at the second test *)
    right; right. exists v. split; [done|]. rewrite app_nil_r.
    destruct (Hcache _ _ Hk); [lia|done].
  - (* a fetch of another task stored its value *)
    intros v' e'. simpl. destruct (decide (k = key)) as [->|Hne].
    + rewrite lookup_insert_eq. intros [= <- <-]. right. exists j.
      apply elem_of_app. right. by apply list_elem_of_singleton.
    + rewrite lookup_insert_ne by done. by left.
  - (* the task's own fetch returned *)
    right; right. exists v. split; [done|]. exists i.
    apply elem_of_app. right. by apply list_elem_of_singleton.
Qed.

Lemma since_run key i t0 acts : ∀ evs st st',
  run acts st = Some st' → since key i t0 evs st →
  ∃ evs', history st' = history st ++ evs' ∧ since key i t0 (evs ++ evs') st'.
Proof.
  induction acts as [|a acts IH]; intros evs st st'; simpl.
  - intros [= ->] H. exists []. by rewrite !app_nil_r.
  - destruct (step a st) as [st1|] eqn:Hs; [|done]. intros Hrun Hinv.
    destruct (since_move _ _ _ _ _ _ (step_move _ _ _ Hs) Hinv) as (evs1 & Hh1 & Hinv1).
    destruct (IH _ _ _ Hrun Hinv1) as (evs2 & Hh2 & Hinv2).
    exists (evs1 ++ evs2). rewrite Hh2, Hh1, <- !app_assoc. by rewrite <- app_assoc in Hinv2.
Qed.

(** C4: a task calls [get_or_fetch(key, ...)] at a time [clock st] at
    which the entry of [key] has expired ([expires_at <= now]; the source
    tests [now < expires_at]).  Whatever the loop then does, if the task
    returns a value, that value is the result of a [fetch_fn] for [key]
    that ended after the call: the expired entry is never what is
    served. *)
Theorem C4_expired_entry_is_never_served
    (st st' : Loop Value Exn) (acts : list (action Value Exn))
    (i : nat) (key : string) (ttl_seconds : Z) (v0 v : Value) (expires_at : Z) :
  _cache (service st) !! key = Some (v0, expires_at) →
  expires_at ≤ clock st →
  tasks st !! i = Some (Pending key ttl_seconds) →
  run acts st = Some st' →
  tasks st' !! i = Some (Finished (Ok v)) →
  ∃ evs j, history st' = history st ++ evs ∧ Resolved j key (Ok v) ∈ evs.
Proof.
  intros Hentry Hexp Hi Hrun Hret.
  assert (Hinv : since key i (clock st) [] st).
  { split; [lia|]. split; [eauto|]. split.
    - intros v1 e1. rewrite Hentry. intros [= <- <-]. by left.
    - rewrite Hi. done. }
  destruct (since_run _ _ _ _ _ _ _ Hrun Hinv) as (evs & Hh & _ & _ & _ & Hfin).
  destruct (Hfin _ Hret) as [j Hj]. by exists evs, j.
Qed.

End Expiry.

(** *** One fetch per key (C1) and failed fetches (C5) *)

Section SingleFlight.
Context {Value Exn : Type} `{!Exceptions Exn}.
Implicit Types (s : CacheService Value) (st : Loop Value Exn).

Definition event_key (ev : event Value Exn) : string :=
  match ev with Invoked _ k | Resolved _ k _ => k end.

Definition is_invoked (ev : event Value Exn) : bool :=
  match ev with Invoked _ _ => true | Resolved _ _ _ => false end.

(** The events of [evs] that concern [key]. *)
Definition on_key (key : string) (evs : list (event Value Exn)) : list (event Value Exn) :=
  List.filter (fun ev => bool_decide (event_key ev = key)) evs.

(** Task [i] of [st] is a call of [get_or_fetch(key, ...)] that has not
    started yet. *)
Definition caller (key : string) st (i : nat) : Prop :=
  ∃ ttl, tasks st !! i = Some (Pending key ttl).

(** No live entry for [key], its lock free, and every coroutine that
    concerns [key] still to start. *)
Definition cold (key : string) st : Prop :=
  (∀ v e, _cache (service st) !! key = Some (v, e) → e ≤ clock st)
  ∧ locked (the_lock key (service st)) = false
  ∧ waiters (the_lock key (service st)) = []
  ∧ (∀ i c, tasks st !! i = Some c → coro_key c = Some key → caller key st i).

(** One call of [fetch_fn] for [key] between [st] and [st'], whose outcome
    [r] every caller has received. *)
Definition single_flight (key : string) st st' : Prop :=
  ∃ evs j r,
    history st' = history st ++ evs
    ∧ on_key key evs = [Invoked j key; Resolved j key r]
    ∧ ∀ i, caller key st i → tasks st' !! i = Some (Finished r).

Lemma on_key_app key evs evs' : on_key key (evs ++ evs') = on_key key evs ++ on_key key evs'.
Proof. apply List.filter_app. Qed.

Lemma on_key_other key ev : event_key ev ≠ key → on_key key [ev] = [].
Proof. intros H. unfold on_key. simpl. by rewrite bool_decide_eq_false_2. Qed.

Lemma on_key_same key ev : event_key ev = key → on_key key [ev] = [ev].
Proof. intros H. unfold on_key. simpl. by rewrite bool_decide_eq_true_2. Qed.

Lemma move_history_run acts : ∀ st st',
  run acts st = Some st' → ∃ evs, history st' = history st ++ evs.
Proof.
  induction acts as [|a acts IH]; intros st st'; simpl.
  - intros [= ->]. exists []. by rewrite app_nil_r.
  - destruct (step a st) as [st1|] eqn:Hs; [|done]. intros Hrun.
    destruct (move_history _ _ (step_move _ _ _ Hs)) as [evs1 H1].
    destruct (IH _ _ Hrun) as [evs2 H2].
    exists (evs1 ++ evs2). by rewrite H2, H1, app_assoc.
Qed.

(** The three stages of a cold key: nothing called yet, the call of task
    [j] in flight, its value [v] stored. *)
Inductive phase := Idle | InFlight (j : nat) | Stored (j : nat) (v : Value).

Definition allowed (key : string) (ph : phase) (i : nat) (ttl : Z) (c : coro Value Exn) : Prop :=
  match ph with
  | Idle => c = Pending key ttl
  | InFlight j =>
      if decide (i = j) then c = Fetching key ttl
      else c = Pending key ttl ∨ c = Waiting key ttl
  | Stored j v => c = Pending key ttl ∨ c = Waiting key ttl ∨ c = Finished (Ok v)
  end.

Definition stage (key : string) (t0 horizon : Z) (ph : phase)
    (evs : list (event Value Exn)) st : Prop :=
  match ph with
  | Idle =>
      on_key key evs = []
      ∧ (∀ v e, _cache (service st) !! key = Some (v, e) → e ≤ t0)
      ∧ locked (the_lock key (service st)) = false
      ∧ waiters (the_lock key (service st)) = []
  | InFlight j =>
      on_key key evs = [Invoked j key]
      ∧ (∀ v e, _cache (service st) !! key = Some (v, e) → e ≤ t0)
      ∧ locked (the_lock key (service st)) = true
      ∧ (∃ ttl, tasks st !! j = Some (Fetching key ttl))
  | Stored j v =>
      on_key key evs = [Invoked j key; Resolved j key (Ok v)]
      ∧ (∃ e, _cache (service st) !! key = Some (v, e) ∧ horizon ≤ e)
      ∧ locked (the_lock key (service st)) = false
  end.

(** The invariant of a run that starts in the cold state [st0]. *)
Record follows (key : string) (st0 : Loop Value Exn) (horizon : Z) (ph : phase)
    (evs : list (event Value Exn)) (st : Loop Value Exn) : Prop := {
  f_clock : clock st0 ≤ clock st;
  f_others : ∀ i c, tasks st !! i = Some c → coro_key c = Some key → caller key st0 i;
  f_callers : ∀ i ttl, tasks st0 !! i = Some (Pending key ttl) →
                ∃ c, tasks st !! i = Some c ∧ allowed key ph i ttl c;
  f_stage : stage key (clock st0) horizon ph evs st
}.

Lemma follows_start key st : cold key st → ∀ horizon, follows key st horizon Idle [] st.
Proof.
  intros (Hc & Hl & Hw & Ht) horizon. split; [lia|done| |done].
  intros i ttl Hi. by exists (Pending key ttl).
Qed.

Lemma allowed_key key ph i ttl c k :
  allowed key ph i ttl c → coro_key c = Some k → k = key.
Proof.
  destruct ph as [|j|j v]; simpl; [|case_decide|]; intros Hc Hk;
    repeat (destruct Hc as [Hc|Hc]); subst c; simpl in Hk; congruence.
Qed.

(** A task that works on another key moves. *)
Lemma follows_other key st0 horizon ph evs st j cj k c' s' evs' :
  follows key st0 horizon ph evs st →
  tasks st !! j = Some cj → coro_key cj = Some k → k ≠ key →
  coro_key c' ≠ Some key →
  _cache s' !! key = _cache (service st) !! key →
  the_lock key s' = the_lock key (service st) →
  on_key key evs' = [] →
  follows key st0 horizon ph (evs ++ evs') (set_task j c' s' evs' st).
Proof.
  intros [Hclock Hothers Hcallers Hstage] Hj Hk Hne Hc' Hcache Hlock Hevs.
  split.
  - done.
  - intros i c. rewrite set_task_lookup by eauto. case_decide; [|by apply Hothers].
    intros [= <-]. done.
  - intros i ttl Hi. destruct (Hcallers _ _ Hi) as (c & Hc & Hall).
    exists c. split; [|done]. rewrite set_task_lookup by eauto.
    case_decide as Hji; [|done]. subst i. rewrite Hj in Hc. injection Hc as ->.
    destruct Hne. by eapply allowed_key.
  - destruct ph as [|j0|j0 v0]; cbn [stage service set_task] in *;
      rewrite on_key_app, Hevs, app_nil_r, Hcache, Hlock; [done| |done].
    destruct Hstage as (? & ? & ? & ttl & Hj0). repeat split; try done.
    exists ttl. rewrite set_task_lookup, decide_False; [done| |eauto].
    intros ->. rewrite Hj in Hj0. injection Hj0 as ->. simpl in Hk. congruence.
Qed.

(** A caller moves, possibly to the next stage. *)
Lemma follows_update key st0 horizon ph ph' evs st j ttl c' s' evs' :
  follows key st0 horizon ph evs st →
  tasks st0 !! j = Some (Pending key ttl) →
  allowed key ph' j ttl c' →
  (∀ i ttl_i c, i ≠ j → allowed key ph i ttl_i c → allowed key ph' i ttl_i c) →
  stage key (clock st0) horizon ph' (evs ++ evs') (set_task j c' s' evs' st) →
  follows key st0 horizon ph' (evs ++ evs') (set_task j c' s' evs' st).
Proof.
  intros [Hclock Hothers Hcallers Hstage] Hj Hc' Hstep Hstage'.
  assert (is_Some (tasks st !! j)) by (destruct (Hcallers _ _ Hj) as (? & ? & _); eauto).
  split.
  - done.
  - intros i c. rewrite set_task_lookup by done. case_decide; [|by apply Hothers].
    subst i. intros _ _. by exists ttl.
  - intros i ttl_i Hi. rewrite set_task_lookup by done. case_decide as Hji.
    + subst i. rewrite Hj in Hi. injection Hi as <-. eauto.
    + destruct (Hcallers _ _ Hi) as (c & Hc & Hall). eauto.
  - done.
Qed.

Lemma the_lock_other_key key k s b ws :
  k ≠ key →
  the_lock key (lock_held b ws k (ensure_lock k s)) = the_lock key s
  ∧ the_lock key (lock_held b ws k s) = the_lock key s
  ∧ the_lock key (release k s) = the_lock key s
  ∧ the_lock key (release k (lock_held b ws k s)) = the_lock key s.
Proof.
  intros Hne. rewrite !the_lock_release, !the_lock_lock_held, the_lock_ensure_lock.
  by rewrite !decide_False by done.
Qed.

Lemma follows_move key st0 horizon ph evs st st' :
  (∀ j v, history st' = history st ++ [Resolved j key (Ok v)] →
          ∃ e, _cache (service st') !! key = Some (v, e) ∧ horizon ≤ e) →
  move st st' → clock st' < horizon →
  follows key st0 horizon ph evs st →
  ∃ evs', history st' = history st ++ evs'
    ∧ ((∃ j e, Resolved j key (Raise e) ∈ evs')
       ∨ ∃ ph', follows key st0 horizon ph' (evs ++ evs') st').
Proof.
  intros Httl Hm Hlt Hinv.
  destruct Hm as [dt ? ->|j k ttl v e Hj Hk Hlive ->|j k ttl Hj Hmiss Hbusy ->
                 |j k ttl Hj Hmiss Hl Hw ->|j k ttl ws v e Hj Hl Hw Hk Hlive ->
                 |j k ttl ws Hj Hl Hw Hmiss ->|j k ttl v Hj Hfits ->|j k ttl e Hj ->
                 |j k ttl v Hj Hover ->].
  { exists []. rewrite !app_nil_r. split; [done|]. right. exists ph.
    destruct Hinv as [Hclock Hothers Hcallers Hstage]. split; simpl; [lia|done..]. }
  all: eexists; (split; [reflexivity|]).
  all: destruct (decide (k = key)) as [->|Hne].
  all: try match goal with
       | Hne : _ ≠ _ |- _ =>
           right; exists ph;
           eapply follows_other;
           [exact Hinv | exact Hj | reflexivity | exact Hne | simpl; congruence
           | rewrite ?cache_release, ?cache_lock_held, ?cache_ensure_lock; simpl;
             rewrite ?lookup_insert_ne by done; done
           | rewrite ?the_lock_release, ?the_lock_lock_held, ?the_lock_ensure_lock,
               ?decide_False by done; done
           | first [done | by apply on_key_other] ]
       end.
  all: simpl in Hlt; pose proof Hinv as [Hclock Hothers Hcallers Hstage];
    destruct (Hothers _ _ Hj eq_refl) as [ttl0 Hj0];
    destruct (Hcallers _ _ Hj0) as (c & Hc & Hall);
    rewrite Hj in Hc; injection Hc as <-;
    destruct ph as [|j0|j0 v0]; simpl in Hall, Hstage;
    try (case_decide as Hjj0; [subst j0|]);
    try discriminate Hall;
    try (destruct Hall as [Hall|Hall]; try discriminate Hall);
    try (destruct Hall as [Hall|Hall]; try discriminate Hall);
    try (injection Hall as <-).
  all: try (destruct Hstage as (Hevs & Hcold & Hlock & Hws)).
  all: try (destruct Hstage as (Hevs & (e0 & Hk0 & He0) & Hlock)).
  all: try (destruct Hstage as (Hevs & Hcold & Hlock)).
  all: try congruence.
  all: try (specialize (Hcold _ _ Hk); lia).
  all: try (pose proof (proj1 (cache_hit_None _ _ _) Hmiss _ _ Hk0); lia).
  all: try (destruct Hbusy; congruence).
  - (* stage 3, a caller arrives: it returns the stored value *)
    rewrite Hk in Hk0. injection Hk0 as <- <-.
    right. exists (Stored j0 v). eapply follows_update; eauto.
    + simpl. tauto.
    + simpl. rewrite app_nil_r. eauto.
  - (* stage 2, a caller arrives: it queues behind the lock *)
    right. exists (InFlight j0). eapply follows_update; eauto.
    + simpl. rewrite decide_False by done. tauto.
    + cbn [stage service set_task].
      rewrite app_nil_r, ?cache_lock_held, ?cache_ensure_lock, the_lock_lock_held.
      rewrite decide_True by done. repeat split; try done.
      destruct Hws as [ttl' Hj0']. exists ttl'.
      rewrite set_task_lookup, decide_False; eauto.
  - (* stage 1, a caller arrives: it takes the lock and calls [fetch_fn] *)
    right. exists (InFlight j). eapply follows_update; eauto.
    + simpl. by rewrite decide_True.
    + intros i ttl_i c Hij. simpl. intros ->. rewrite decide_False by done. tauto.
    + cbn [stage service set_task]. rewrite on_key_app, Hevs, on_key_same by done.
      rewrite ?cache_lock_held, ?cache_ensure_lock, the_lock_lock_held.
      rewrite decide_True by done. repeat split; try done.
      exists ttl. rewrite set_task_lookup, decide_True; eauto.
  - (* stage 3, a waiter resumes: it returns the stored value *)
    rewrite Hk in Hk0. injection Hk0 as <- <-.
    right. exists (Stored j0 v). eapply follows_update; eauto.
    + simpl. tauto.
    + simpl. rewrite app_nil_r, the_lock_release, decide_True by done. eauto.
  - (* stage 2, the fetch returns a value: it is stored, live up to the horizon *)
    right. exists (Stored j v). eapply follows_update; eauto.
    + simpl. tauto.
    + intros i ttl_i c Hij. simpl. rewrite decide_False by done. tauto.
    + simpl. rewrite on_key_app, Hevs, on_key_same by done.
      rewrite lookup_insert_eq, the_lock_release, decide_True by done.
      split; [done|]. split; [|done]. eexists; split; [done|].
      destruct (Httl j v eq_refl) as (e1 & He1 & Hle). simpl in He1.
      rewrite lookup_insert_eq in He1. by injection He1 as <-.
  - (* stage 2, the fetch raises *)
    left. exists j, e. by apply list_elem_of_singleton.
  - (* stage 2, the fetch returns and the expiry overflows: nothing is
       stored, which the hypothesis excludes *)
    exfalso. destruct (Httl j v eq_refl) as (e1 & He1 & Hle). simpl in He1.
    specialize (Hcold _ _ He1). lia.
Qed.

Lemma follows_run key st0 horizon acts : ∀ ph evs st st',
  (∀ acts1 acts2 st1 j v ttl,
     acts = acts1 ++ Resolve j (Ok v) :: acts2 → run acts1 st = Some st1 →
     tasks st1 !! j = Some (Fetching key ttl) →
     ∃ e, expires (clock st1) ttl = Some e ∧ horizon ≤ e) →
  run acts st = Some st' → clock st' < horizon →
  follows key st0 horizon ph evs st →
  ∃ evs', history st' = history st ++ evs'
    ∧ ((∃ j e, Resolved j key (Raise e) ∈ evs')
       ∨ ∃ ph', follows key st0 horizon ph' (evs ++ evs') st').
Proof.
  induction acts as [|a acts IH]; intros ph evs st st' Hkept; simpl.
  - intros [= ->] _ Hinv. exists []. rewrite !app_nil_r. eauto.
  - destruct (step a st) as [st1|] eqn:Hs; [|done]. intros Hrun Hlt Hinv.
    pose proof (run_clock _ _ _ Hrun) as Hmono.
    assert (Hstore : ∀ j v, history st1 = history st ++ [Resolved j key (Ok v)] →
              ∃ e, _cache (service st1) !! key = Some (v, e) ∧ horizon ≤ e).
    { intros j v Hh. destruct (step_resolved _ _ _ _ _ _ Hs Hh) as [-> [ttl Hj]].
      destruct (Hkept [] acts st j v ttl eq_refl eq_refl Hj) as (e & He & Hle).
      simpl in Hs. unfold get_or_fetch_resume in Hs. rewrite Hj, He in Hs.
      injection Hs as <-. exists e. simpl. by rewrite lookup_insert_eq. }
    assert (Hkept1 : ∀ acts1 acts2 st2 j v ttl,
              acts = acts1 ++ Resolve j (Ok v) :: acts2 → run acts1 st1 = Some st2 →
              tasks st2 !! j = Some (Fetching key ttl) →
              ∃ e, expires (clock st2) ttl = Some e ∧ horizon ≤ e).
    { intros acts1 acts2 st2 j v ttl -> Hrun1 Hj.
      apply (Hkept (a :: acts1) acts2 st2 j v ttl); [done| |done].
      simpl. by rewrite Hs. }
    destruct (follows_move key st0 horizon ph evs st st1 Hstore (step_move _ _ _ Hs))
      as (evs1 & Hh1 & Hcase); [lia|done|].
    destruct Hcase as [(j & e & Hraise)|[ph1 Hinv1]].
    + destruct (move_history_run _ _ _ Hrun) as [evs2 Hh2].
      exists (evs1 ++ evs2). rewrite Hh2, Hh1, <- app_assoc. split; [done|].
      left. exists j, e. apply elem_of_app. by left.
    + destruct (IH _ _ _ _ Hkept1 Hrun Hlt Hinv1) as (evs2 & Hh2 & Hcase).
      exists (evs1 ++ evs2). rewrite Hh2, Hh1, <- app_assoc. split; [done|].
      destruct Hcase as [(j & e & Hraise)|[ph2 Hinv2]].
      * left. exists j, e. apply elem_of_app. by right.
      * right. exists ph2. by rewrite <- app_assoc in Hinv2.
Qed.

(** The queue of the lock of [key] holds, once each, the tasks suspended
    in its [acquire]. *)
Definition queued (key : string) st : Prop :=
  NoDup (waiters (the_lock key (service st)))
  ∧ ∀ i, i ∈ waiters (the_lock key (service st))
         ↔ ∃ ttl, tasks st !! i = Some (Waiting key ttl).

Definition waits_on (key : string) (c : coro Value Exn) : Prop :=
  ∃ ttl, c = Waiting key ttl.

(** A task that is not in the queue changes state without entering it. *)
Lemma queued_same key st j cj c' s' evs :
  queued key st → tasks st !! j = Some cj →
  ¬ waits_on key cj → ¬ waits_on key c' →
  waiters (the_lock key s') = waiters (the_lock key (service st)) →
  queued key (set_task j c' s' evs st).
Proof.
  intros [Hnd Hq] Hj Hcj Hc' Hws. split; cbn [service set_task]; rewrite Hws; [done|].
  intros i. rewrite Hq, set_task_lookup by eauto. case_decide as Hji; [subst i|done].
  rewrite Hj. split; intros [ttl [= ->]]; [destruct Hcj|destruct Hc']; by exists ttl.
Qed.

(** A task joins the queue. *)
Lemma queued_push key st j cj ttl s' evs :
  queued key st → tasks st !! j = Some cj → ¬ waits_on key cj →
  waiters (the_lock key s') = waiters (the_lock key (service st)) ++ [j] →
  queued key (set_task j (Waiting key ttl) s' evs st).
Proof.
  intros [Hnd Hq] Hj Hcj Hws. split; cbn [service set_task]; rewrite Hws.
  - apply NoDup_app. split; [done|]. split; [|apply NoDup_singleton].
    intros i Hi ->%list_elem_of_singleton. apply Hq in Hi as [ttl' Hi].
    apply Hcj. exists ttl'. congruence.
  - intros i. rewrite elem_of_app, list_elem_of_singleton, Hq, set_task_lookup by eauto.
    case_decide as Hji; [subst i; naive_solver|]. naive_solver.
Qed.

(** The task at the head of the queue leaves it. *)
Lemma queued_pop key st j ttl ws c' s' evs :
  queued key st → tasks st !! j = Some (Waiting key ttl) → ¬ waits_on key c' →
  waiters (the_lock key (service st)) = j :: ws →
  waiters (the_lock key s') = ws →
  queued key (set_task j c' s' evs st).
Proof.
  intros [Hnd Hq] Hj Hc' Hws Hws'. rewrite Hws in Hnd, Hq.
  apply NoDup_cons in Hnd as [Hnotin Hnd].
  split; cbn [service set_task]; rewrite Hws'; [done|].
  intros i. rewrite set_task_lookup by eauto. specialize (Hq i). rewrite elem_of_cons in Hq.
  case_decide as Hji.
  - subst i. split; [done|]. intros [ttl' [= ->]]. destruct Hc'. by exists ttl'.
  - rewrite <- Hq. naive_solver.
Qed.

Lemma queued_move key st st' : move st st' → queued key st → queued key st'.
Proof.
  intros Hm Hq.
  destruct Hm as [dt ? ->|j k ttl v e Hj Hk Hlive ->|j k ttl Hj Hmiss Hbusy ->
                 |j k ttl Hj Hmiss Hl Hw ->|j k ttl ws v e Hj Hl Hw Hk Hlive ->
                 |j k ttl ws Hj Hl Hw Hmiss ->|j k ttl v Hj Hfits ->|j k ttl e Hj ->
                 |j k ttl v Hj Hover ->];
    [done|..].
  all: destruct (decide (k = key)) as [->|Hne].
  all: first
    [ eapply queued_same; [exact Hq|exact Hj|by intros [? ?]|by intros [? ?]|];
      rewrite ?the_lock_release, ?the_lock_lock_held, ?the_lock_ensure_lock,
        ?the_lock_set_cache;
      repeat case_decide; try done; cbn [waiters]; congruence
    | eapply queued_pop; [exact Hq|exact Hj|by intros [? ?]|exact Hw|];
      rewrite ?the_lock_release, ?the_lock_lock_held, ?decide_True by done; done
    | eapply queued_push; [exact Hq|exact Hj|by intros [? ?]|];
      by rewrite the_lock_lock_held, decide_True
    | eapply queued_same; [exact Hq|exact Hj|by intros [? ?]|intros [? [= ? ?]]; congruence|];
      by rewrite the_lock_lock_held, the_lock_ensure_lock, decide_False
    | eapply queued_same; [exact Hq|exact Hj|intros [? [= ? ?]]; congruence|by intros [? ?]|];
      by rewrite ?the_lock_release, ?the_lock_lock_held, ?decide_False ].
Qed.

Lemma queued_run key acts : ∀ st st', run acts st = Some st' → queued key st → queued key st'.
Proof.
  induction acts as [|a acts IH]; intros st st'; simpl; [by intros [= ->]|].
  destruct (step a st) as [st1|] eqn:Hs; [|done]. intros Hrun Hq.
  eapply IH; [done|]. eapply queued_move; [by eapply step_move|done].
Qed.

Lemma queued_start key st : cold key st → queued key st.
Proof.
  intros (_ & _ & Hw & Ht). unfold queued. rewrite Hw. split; [constructor|].
  intros i. split; [by intros ?%elem_of_nil|].
  intros [ttl Hi]. destruct (Ht _ _ Hi eq_refl) as [ttl' Hi']. congruence.
Qed.

(** The moves the scheduler can always make. *)
Lemma step_fetch_first i key ttl st :
  tasks st !! i = Some (Pending key ttl) →
  cache_hit key (clock st) (service st) = None →
  locked (the_lock key (service st)) = false →
  waiters (the_lock key (service st)) = [] →
  step (Run i) st
  = Some (set_task i (Fetching key ttl)
            (lock_held true [] key (ensure_lock key (service st))) [Invoked i key] st).
Proof.
  intros Hi Hmiss Hl Hw. simpl. unfold get_or_fetch.
  rewrite Hi, Hmiss, the_lock_ensure_lock, Hl, Hw.
  simpl. unfold critical.
  by rewrite (cache_hit_ext _ _ _ (service st)), Hmiss
    by (by rewrite cache_lock_held, cache_ensure_lock).
Qed.

Lemma step_hit_first i key ttl v st :
  tasks st !! i = Some (Pending key ttl) →
  cache_hit key (clock st) (service st) = Some v →
  step (Run i) st = Some (set_task i (Finished (Ok v)) (service st) [] st).
Proof. intros Hi Hhit. simpl. unfold get_or_fetch. by rewrite Hi, Hhit. Qed.

Lemma step_hit_second i key ttl ws v st :
  tasks st !! i = Some (Waiting key ttl) →
  locked (the_lock key (service st)) = false →
  waiters (the_lock key (service st)) = i :: ws →
  cache_hit key (clock st) (service st) = Some v →
  step (Run i) st
  = Some (set_task i (Finished (Ok v))
            (release key (lock_held true ws key (service st))) [] st).
Proof.
  intros Hi Hl Hw Hhit. simpl. unfold get_or_fetch.
  rewrite Hi, Hl, Hw, bool_decide_eq_true_2 by done.
  unfold critical. by rewrite (cache_hit_ext _ _ _ (service st)), Hhit by done.
Qed.

Lemma step_stored i key ttl v e st :
  tasks st !! i = Some (Fetching key ttl) →
  expires (clock st) ttl = Some e →
  step (Resolve i (Ok v)) st
  = Some (set_task i (Finished (Ok v))
            (release key (set_cache (<[key := (v, e)]> (_cache (service st))) (service st)))
            [Resolved i key (Ok v)] st).
Proof. intros Hi He. simpl. unfold get_or_fetch_resume. by rewrite Hi, He. Qed.

(** The number of coroutines still at work on [key]. *)
Definition at_work (key : string) st : nat :=
  length (List.filter (fun c => bool_decide (coro_key c = Some key)) (tasks st)).

Lemma at_work_finish key st i c r s evs :
  tasks st !! i = Some c → coro_key c = Some key →
  at_work key st = S (at_work key (set_task i (Finished r) s evs st)).
Proof.
  intros Hi Hc. unfold at_work. cbn [tasks set_task].
  rewrite insert_take_drop by (by eapply lookup_lt_Some).
  rewrite <- (take_drop_middle _ _ _ Hi) at 1.
  rewrite !List.filter_app, !length_app. simpl.
  rewrite bool_decide_eq_true_2 by done. simpl. lia.
Qed.

Lemma at_work_pick key st :
  at_work key st ≠ 0%nat → ∃ i c, tasks st !! i = Some c ∧ coro_key c = Some key.
Proof.
  unfold at_work. intros Hn.
  destruct (List.filter _ (tasks st)) as [|c l] eqn:Hf; [done|].
  assert (Hin : In c (List.filter (fun c => bool_decide (coro_key c = Some key)) (tasks st)))
    by (rewrite Hf; by left).
  apply filter_In in Hin as [Hin Hc]. apply bool_decide_eq_true in Hc.
  apply list_elem_of_In, list_elem_of_lookup in Hin as [i Hi]. eauto.
Qed.

Lemma at_work_none key st i c :
  at_work key st = 0%nat → tasks st !! i = Some c → coro_key c ≠ Some key.
Proof.
  unfold at_work. intros Hn Hi Hc.
  assert (Hin : In c (List.filter (fun c => bool_decide (coro_key c = Some key)) (tasks st))).
  { apply filter_In. split; [|by apply bool_decide_eq_true].
    apply list_elem_of_In, list_elem_of_lookup. eauto. }
  by destruct (List.filter _ (tasks st)).
Qed.

(** The events on [key] tell the stage. *)
Lemma follows_stored key st0 horizon ph evs st j v :
  follows key st0 horizon ph evs st →
  on_key key evs = [Invoked j key; Resolved j key (Ok v)] →
  ph = Stored j v.
Proof.
  intros [_ _ _ Hstage]. destruct ph as [|j'|j' v']; simpl in Hstage;
    destruct Hstage as (-> & _); congruence.
Qed.

Lemma follows_in_flight key st0 horizon ph evs st j :
  follows key st0 horizon ph evs st → on_key key evs = [Invoked j key] → ph = InFlight j.
Proof.
  intros [_ _ _ Hstage]. destruct ph as [|j'|j' v']; simpl in Hstage;
    destruct Hstage as (-> & _); congruence.
Qed.

(** One step of a run that stays before the horizon, in which nothing is
    raised and in which what a fetch returns is stored beyond the
    horizon. *)
Lemma follows_step key st0 horizon ph evs st a st' evs' :
  (∀ j v, evs' = [Resolved j key (Ok v)] →
          ∃ e, _cache (service st') !! key = Some (v, e) ∧ horizon ≤ e) →
  step a st = Some st' → history st' = history st ++ evs' →
  (∀ j e, Resolved j key (Raise e) ∉ evs') →
  clock st' < horizon →
  follows key st0 horizon ph evs st → queued key st →
  queued key st' ∧ ∃ ph', follows key st0 horizon ph' (evs ++ evs') st'.
Proof.
  intros Hkept Hs Hh Hok Hlt Hinv Hq. apply step_move in Hs.
  split; [by eapply queued_move|].
  assert (Hstore : ∀ j v, history st' = history st ++ [Resolved j key (Ok v)] →
            ∃ e, _cache (service st') !! key = Some (v, e) ∧ horizon ≤ e).
  { intros j v Hh'. rewrite Hh in Hh'. apply app_inv_head in Hh'. by apply (Hkept j v). }
  destruct (follows_move _ _ _ _ _ _ _ Hstore Hs Hlt Hinv) as (evs1 & Hh1 & Hcase).
  rewrite Hh in Hh1. apply app_inv_head in Hh1 as <-.
  destruct Hcase as [(j & e & Hraise)|?]; [by destruct (Hok j e)|done].
Qed.

Lemma allowed_cases key ph i ttl c :
  allowed key ph i ttl c → coro_key c = Some key ∨ ∃ v, c = Finished (Ok v).
Proof.
  destruct ph as [|j|j v]; simpl; [|case_decide|]; intros Hc;
    repeat (destruct Hc as [Hc|Hc]); subst c; simpl; eauto.
Qed.

(** Once the value is stored, the callers can all return, one after the
    other, without time passing: first those queued on the lock, then the
    others. *)
Lemma drain key st0 horizon j v evs :
  ∀ n st,
    at_work key st = n →
    follows key st0 horizon (Stored j v) evs st → queued key st → clock st < horizon →
    ∃ acts st',
      run acts st = Some st' ∧ clock st' = clock st ∧ history st' = history st
      ∧ follows key st0 horizon (Stored j v) evs st' ∧ at_work key st' = 0%nat.
Proof.
  induction n as [|n IH]; intros st Hn Hinv Hq Hlt.
  { exists [], st. done. }
  pose proof Hinv as [Hclock Hothers Hcallers (Hevs & (e0 & Hk0 & He0) & Hlock)].
  assert (Hhit : cache_hit key (clock st) (service st) = Some v).
  { apply cache_hit_Some. exists e0. split; [done|lia]. }
  assert (∃ x c, tasks st !! x = Some c ∧ coro_key c = Some key
                 ∧ ∃ s, step (Run x) st = Some (set_task x (Finished (Ok v)) s [] st))
    as (x & c & Hx & Hc & s & Hstep).
  { destruct (waiters (the_lock key (service st))) as [|w ws] eqn:Hws.
    - destruct (at_work_pick key st) as (i & c & Hi & Hc); [lia|].
      destruct (Hothers _ _ Hi Hc) as [ttl Hi0].
      destruct (Hcallers _ _ Hi0) as (c' & Hi' & Hall). rewrite Hi in Hi'. injection Hi' as <-.
      simpl in Hall. destruct Hall as [-> | [-> | ->]]; [| |done].
      + exists i, (Pending key ttl). split; [done|]. split; [done|].
        eexists. by eapply step_hit_first.
      + destruct Hq as [_ Hq]. rewrite Hws in Hq.
        exfalso. apply (not_elem_of_nil i), Hq. eauto.
    - destruct Hq as [_ Hq]. rewrite Hws in Hq.
      destruct (proj1 (Hq w)) as [ttl Hw]; [by left|].
      exists w, (Waiting key ttl). split; [done|]. split; [done|].
      eexists. by eapply step_hit_second. }
  set (st1 := set_task x (Finished (Ok v)) s [] st) in *.
  destruct (follows_step key st0 horizon (Stored j v) evs st (Run x) st1 [])
    as (Hq1 & ph1 & Hinv1); try done.
  { intros ? ? []%elem_of_nil. }
  rewrite app_nil_r in Hinv1.
  rewrite (follows_stored _ _ _ _ _ _ _ _ Hinv1 Hevs) in Hinv1.
  destruct (IH st1) as (acts & st' & Hrun & Hclock' & Hh' & Hinv' & Hdone); try done.
  { pose proof (at_work_finish key st x c (Ok v) s [] Hx Hc) as Hless. fold st1 in Hless. lia. }
  exists (Run x :: acts), st'. cbn [run]. rewrite Hstep.
  split; [done|]. split; [done|]. split; [|done].
  rewrite Hh'. simpl. by rewrite app_nil_r.
Qed.

(** From any stage, the run can be completed: a caller fetches if none
    has, the fetch returns [v], which is stored beyond the horizon, and the
    callers return. *)
Lemma complete key st0 horizon ph evs st (v : Value) :
  (∀ i ttl, tasks st0 !! i = Some (Pending key ttl) →
     ∃ e, expires (clock st) ttl = Some e ∧ horizon ≤ e) →
  follows key st0 horizon ph evs st → queued key st → clock st < horizon →
  ∃ acts st' evs' ph',
    run acts st = Some st' ∧ clock st' = clock st ∧ history st' = history st ++ evs'
    ∧ follows key st0 horizon ph' (evs ++ evs') st' ∧ at_work key st' = 0%nat.
Proof.
  intros Hlive Hinv Hq Hlt.
  assert (Hflight : ∀ j st1 evs,
            clock st1 = clock st →
            follows key st0 horizon (InFlight j) evs st1 → queued key st1 →
            ∃ acts st' evs' ph',
              run acts st1 = Some st' ∧ clock st' = clock st1
              ∧ history st' = history st1 ++ evs'
              ∧ follows key st0 horizon ph' (evs ++ evs') st' ∧ at_work key st' = 0%nat).
  { clear Hinv Hq. intros j st1 evs1 Hnow Hinv Hq.
    pose proof Hinv as [_ Hothers Hcallers (Hevs & _ & _ & ttl & Hj)].
    destruct (Hothers _ _ Hj eq_refl) as [ttl0 Hj0].
    destruct (Hcallers _ _ Hj0) as (c & Hc & Hall). rewrite Hj in Hc. injection Hc as <-.
    simpl in Hall. rewrite decide_True in Hall by done. injection Hall as ->.
    destruct (Hlive _ _ Hj0) as (e & He & Hle). rewrite <- Hnow in He.
    pose proof (step_stored j key ttl0 v e st1 Hj He) as Hstep.
    set (st2 := set_task j (Finished (Ok v)) _ _ st1) in *.
    destruct (follows_step key st0 horizon (InFlight j) evs1 st1 (Resolve j (Ok v)) st2
                [Resolved j key (Ok v)])
      as (Hq1 & ph1 & Hinv1); try done.
    { intros j' v' [= <- <-]. exists e. simpl. by rewrite lookup_insert_eq. }
    { intros ? ? [=]%list_elem_of_singleton. }
    { simpl. lia. }
    assert (Hevs1 : on_key key (evs1 ++ [Resolved j key (Ok v)])
                    = [Invoked j key; Resolved j key (Ok v)])
      by (by rewrite on_key_app, Hevs, on_key_same).
    rewrite (follows_stored _ _ _ _ _ _ _ _ Hinv1 Hevs1) in Hinv1.
    destruct (drain key st0 horizon j v _ _ st2 eq_refl Hinv1 Hq1)
      as (acts & st' & Hrun & Hclock' & Hh' & Hinv' & Hdone); [simpl; lia|].
    exists (Resolve j (Ok v) :: acts), st', [Resolved j key (Ok v)], (Stored j v).
    cbn [run]. rewrite Hstep. split; [done|]. split; [done|]. split; [by rewrite Hh'|done]. }
  destruct ph as [|j|j v0].
  - destruct (decide (at_work key st = 0%nat)) as [Hzero|Hsome].
    { exists [], st, [], Idle. rewrite !app_nil_r. done. }
    pose proof Hinv as [Hclock Hothers Hcallers (Hevs & Hcold & Hlock & Hws)].
    destruct (at_work_pick key st Hsome) as (i & c & Hi & Hc).
    destruct (Hothers _ _ Hi Hc) as [ttl Hi0].
    destruct (Hcallers _ _ Hi0) as (c' & Hi' & Hall). rewrite Hi in Hi'. injection Hi' as <-.
    simpl in Hall. subst c.
    assert (Hmiss : cache_hit key (clock st) (service st) = None).
    { apply cache_hit_None. intros v' e' He'. specialize (Hcold _ _ He'). lia. }
    pose proof (step_fetch_first i key ttl st Hi Hmiss Hlock Hws) as Hstep.
    set (st1 := set_task i (Fetching key ttl) _ _ st) in *.
    destruct (follows_step key st0 horizon Idle evs st (Run i) st1 [Invoked i key])
      as (Hq1 & ph1 & Hinv1); try done.
    { intros ? ? [=]%list_elem_of_singleton. }
    assert (Hevs1 : on_key key (evs ++ [Invoked i key]) = [Invoked i key])
      by (by rewrite on_key_app, Hevs, on_key_same).
    rewrite (follows_in_flight _ _ _ _ _ _ _ Hinv1 Hevs1) in Hinv1.
    destruct (Hflight i st1 _ eq_refl Hinv1 Hq1)
      as (acts & st' & evs' & ph' & Hrun & Hc' & Hh' & Hinv' & Hd).
    exists (Run i :: acts), st', ([Invoked i key] ++ evs'), ph'.
    cbn [run]. rewrite Hstep. split; [done|]. split; [done|].
    rewrite Hh'. cbn [history set_task st1]. rewrite <- !app_assoc in *. done.
  - exact (Hflight j st evs eq_refl Hinv Hq).
  - destruct (drain key st0 horizon j v0 evs _ st eq_refl Hinv Hq Hlt)
      as (acts & st' & Hrun & Hclock' & Hh' & Hinv' & Hdone).
    exists acts, st', [], (Stored j v0). rewrite !app_nil_r. done.
Qed.

(** What the invariant says of the state a run has reached. *)
Lemma follows_results key st0 horizon ph evs st :
  follows key st0 horizon ph evs st → history st = history st0 ++ evs →
  (length (List.filter is_invoked (on_key key evs)) ≤ 1)%nat
  ∧ (∀ i r, caller key st0 i → tasks st !! i = Some (Finished r) →
       ∃ j v, r = Ok v ∧ on_key key evs = [Invoked j key; Resolved j key (Ok v)])
  ∧ ((∃ i, caller key st0 i) →
     (∀ i, caller key st0 i → ∃ r, tasks st !! i = Some (Finished r)) →
     single_flight key st0 st).
Proof.
  intros [_ _ Hcallers Hstage] Hh.
  assert (Hret : ∀ i r, caller key st0 i → tasks st !! i = Some (Finished r) →
            ∃ j v, ph = Stored j v ∧ r = Ok v).
  { intros i r [ttl Hi] Hfin. destruct (Hcallers _ _ Hi) as (c & Hc & Hall).
    rewrite Hfin in Hc. injection Hc as <-.
    destruct ph as [|j|j v]; simpl in Hall; [done|case_decide; naive_solver|].
    destruct Hall as [|[|[= ->]]]; try done. eauto. }
  split; [|split].
  - destruct ph as [|j|j v]; simpl in Hstage; destruct Hstage as (-> & _); simpl;
      rewrite ?bool_decide_eq_true_2 by done; simpl; lia.
  - intros i r Hi Hfin. destruct (Hret _ _ Hi Hfin) as (j & v & -> & ->).
    exists j, v. split; [done|]. by destruct Hstage as (-> & _).
  - intros [i0 Hi0] Hall. destruct (Hall _ Hi0) as [r0 Hr0].
    destruct (Hret _ _ Hi0 Hr0) as (j & v & -> & ->).
    exists evs, j, (Ok v). split; [done|]. split; [by destruct Hstage as (-> & _)|].
    intros i Hi. destruct (Hall _ Hi) as [r Hr].
    destruct (Hret _ _ Hi Hr) as (j' & v' & [= <- <-] & ->). done.
Qed.

(** C1, as the code has it: the key is cold and the tasks that call
    [get_or_fetch(key, ...)] have not started.  In a run in which no
    [fetch_fn] for [key] raises and in which a value that a [fetch_fn] for
    [key] returns is stored with an expiry later than the end of the run
    (the sum with the time to live is a date, and the entry does not
    expire while the callers are still at work), at most one [fetch_fn] is
    called for [key]; every caller that has returned has returned the
    value of that call; once all callers have returned, there has been
    exactly one call whose value they all share; and if a value stored at
    the end of the run with the time to live of any caller would be live,
    the run can be continued, without time passing and whatever value [v]
    a pending fetch returns, to a state in which all callers have returned
    the value of the one call. *)
Theorem C1_one_fetch_when_it_succeeds
    (st st' : Loop Value Exn) (acts : list (action Value Exn)) (key : string) :
  cold key st →
  run acts st = Some st' →
  (∀ evs j e, history st' = history st ++ evs → Resolved j key (Raise e) ∉ evs) →
  (∀ acts1 acts2 st1 j v ttl,
     acts = acts1 ++ Resolve j (Ok v) :: acts2 → run acts1 st = Some st1 →
     tasks st1 !! j = Some (Fetching key ttl) →
     ∃ expires_at, expires (clock st1) ttl = Some expires_at ∧ clock st' < expires_at) →
  ∃ evs, history st' = history st ++ evs
    ∧ (length (List.filter is_invoked (on_key key evs)) ≤ 1)%nat
    ∧ (∀ i r, caller key st i → tasks st' !! i = Some (Finished r) →
         ∃ j v, r = Ok v ∧ on_key key evs = [Invoked j key; Resolved j key (Ok v)])
    ∧ ((∃ i, caller key st i) →
       (∀ i, caller key st i → ∃ r, tasks st' !! i = Some (Finished r)) →
       single_flight key st st')
    ∧ ∀ v : Value,
        (∀ i ttl, tasks st !! i = Some (Pending key ttl) →
           ∃ expires_at, expires (clock st') ttl = Some expires_at ∧ clock st' < expires_at) →
        ∃ acts' st'',
          run (acts ++ acts') st = Some st''
          ∧ clock st'' = clock st'
          ∧ (∀ i, caller key st i → ∃ r, tasks st'' !! i = Some (Finished r))
          ∧ ((∃ i, caller key st i) → single_flight key st st'').
Proof.
  intros Hcold Hrun Hok Hkept.
  destruct (follows_run key st (clock st' + 1) acts Idle [] st st') as (evs & Hh & Hcase);
    [|done|lia|by apply follows_start|].
  { intros acts1 acts2 st1 j v ttl Hsplit Hrun1 Hj.
    destruct (Hkept _ _ _ _ _ _ Hsplit Hrun1 Hj) as (e & He & Hlt). exists e. split; [done|lia]. }
  destruct Hcase as [(j & e & Hraise)|[ph Hinv]]; [by destruct (Hok _ j e Hh)|].
  simpl in Hinv.
  destruct (follows_results _ _ _ _ _ _ Hinv Hh) as (Hone & Hret & Hall).
  exists evs. do 4 (split; [done|]).
  intros v Hlive.
  pose proof (queued_run key acts st st' Hrun (queued_start _ _ Hcold)) as Hq.
  destruct (complete key st (clock st' + 1) ph evs st' v)
    as (acts' & st'' & evs' & ph' & Hrun' & Hclock' & Hh' & Hinv' & Hdone); [|done|done|lia|].
  { intros i ttl Hi. destruct (Hlive _ _ Hi) as (e & He & Hlt). exists e. split; [done|lia]. }
  exists acts', st''. rewrite run_app, Hrun. split; [done|]. split; [done|].
  assert (Hfinished : ∀ i, caller key st i → ∃ r, tasks st'' !! i = Some (Finished r)).
  { intros i [ttl Hi]. destruct Hinv' as [_ _ Hcallers _].
    destruct (Hcallers _ _ Hi) as (c & Hc & Hallowed).
    destruct (allowed_cases _ _ _ _ _ Hallowed) as [Hkey|[v' ->]]; [|eauto].
    by destruct (at_work_none key st'' i c Hdone Hc). }
  split; [done|]. intros Hsome.
  rewrite Hh, <- app_assoc in Hh'.
  by destruct (follows_results _ _ _ _ _ _ Hinv' Hh') as (_ & _ & Hsf); apply Hsf.
Qed.

(** C5, as the code has it: when the [fetch_fn] awaited by task [i]
    raises [e], the step is always possible; the cache is left as it was
    (for every key); the lock of [key] is released; task [i] ends with
    [e]; no other task changes state, so a task suspended on the lock does
    not receive [e]; and when the first waiter is resumed and still finds
    no live entry, it calls [fetch_fn] itself. *)
Theorem C5_failed_fetch_is_not_cached
    (st : Loop Value Exn) (i : nat) (key : string) (ttl_seconds : Z) (e : Exn) :
  tasks st !! i = Some (Fetching key ttl_seconds) →
  ∃ st', step (Resolve i (Raise e)) st = Some st'
    ∧ _cache (service st') = _cache (service st)
    ∧ locked (the_lock key (service st')) = false
    ∧ tasks st' !! i = Some (Finished (Raise e))
    ∧ (∀ j, j ≠ i → tasks st' !! j = tasks st !! j)
    ∧ history st' = history st ++ [Resolved i key (Raise e)]
    ∧ (∀ w ttl_w ws,
         tasks st !! w = Some (Waiting key ttl_w) →
         waiters (the_lock key (service st)) = w :: ws →
         cache_hit key (clock st') (service st') = None →
         ∃ st'', step (Run w) st' = Some st''
           ∧ tasks st'' !! w = Some (Fetching key ttl_w)
           ∧ history st'' = history st' ++ [Invoked w key]).
Proof.
  intros Hi. simpl. unfold get_or_fetch_resume. rewrite Hi. eexists. split; [done|].
  assert (Hlen : is_Some (tasks st !! i)) by eauto.
  split; [done|]. split.
  { simpl. by rewrite the_lock_release, decide_True. }
  split. { by rewrite set_task_lookup, decide_True. }
  split. { intros j Hj. by rewrite set_task_lookup, decide_False. }
  split; [done|].
  intros w ttl_w ws Hw Hq Hmiss.
  assert (w ≠ i) as Hwi by (intros ->; congruence).
  unfold get_or_fetch. rewrite set_task_lookup, decide_False, Hw by done.
  cbn [service set_task]. rewrite the_lock_release, decide_True by done.
  cbn [locked waiters]. rewrite Hq, bool_decide_eq_true_2 by done.
  unfold critical. cbn [clock set_task] in *.
  rewrite (cache_hit_ext _ _ (lock_held true ws key (release key (service st)))
             (service st)) by done.
  rewrite (cache_hit_ext _ _ _ (service st)) in Hmiss by done. rewrite Hmiss.
  eexists. split; [done|]. split; [|done].
  rewrite set_task_lookup, decide_True; [done..|].
  rewrite set_task_lookup, decide_False by done. eauto.
Qed.

End SingleFlight.

(** *** Fetches for one key exclude each other *)

Section Exclusion.
Context {Value Exn : Type} `{!Exceptions Exn}.
Implicit Types (s : CacheService Value) (st : Loop Value Exn).

(** Reading the events of one key in order: a call of [fetch_fn] is made
    only when none is under way, and a result is that of the call under
    way.  The reading gives who is in a call at the end, and gives nothing
    if two calls overlap. *)
Fixpoint serial (holder : option nat) (evs : list (event Value Exn)) : option (option nat) :=
  match evs, holder with
  | [], _ => Some holder
  | Invoked i _ :: evs', None => serial (Some i) evs'
  | Resolved i _ _ :: evs', Some j => if bool_decide (i = j) then serial None evs' else None
  | _, _ => None
  end.

Definition fetching (key : string) (c : coro Value Exn) : Prop :=
  ∃ ttl, c = Fetching key ttl.

(** The calls of [fetch_fn] for [key] have come one after the other; a
    task is inside [await fetch_fn()] for [key] exactly when it made the
    last call and that call has not ended; and the lock of [key] is held
    exactly when there is such a task. *)
Definition exclusive (key : string) st : Prop :=
  ∃ holder,
    serial None (on_key key (history st)) = Some holder
    ∧ (∀ i, holder = Some i ↔ ∃ c, tasks st !! i = Some c ∧ fetching key c)
    ∧ (locked (the_lock key (service st)) = true ↔ is_Some holder).

Lemma serial_app evs evs' : ∀ holder,
  serial holder (evs ++ evs') = serial holder evs ≫= fun h => serial h evs'.
Proof.
  induction evs as [|ev evs IH]; intros holder; simpl.
  - by destruct evs', holder.
  - destruct ev as [i k|i k r], holder as [j|]; simpl; try done.
    case_bool_decide; [apply IH|done].
Qed.

(** A task that is not in a fetch for [key] changes state without
    starting one. *)
Lemma exclusive_same key st j cj c' s' evs :
  exclusive key st → tasks st !! j = Some cj →
  ¬ fetching key cj → ¬ fetching key c' →
  on_key key evs = [] →
  locked (the_lock key s') = locked (the_lock key (service st)) →
  exclusive key (set_task j c' s' evs st).
Proof.
  intros (holder & Hser & Hwho & Hlock) Hj Hcj Hc' Hevs Hl. exists holder.
  cbn [history service set_task]. rewrite on_key_app, Hevs, app_nil_r, Hl.
  split; [done|]. split; [|done].
  intros i. rewrite Hwho, set_task_lookup by eauto. case_decide as Hji; [subst i|done].
  rewrite Hj. split; intros (c & [= <-] & Hc); done.
Qed.

(** A task takes the free lock and calls [fetch_fn]. *)
Lemma exclusive_begin key st j cj ttl s' :
  exclusive key st → tasks st !! j = Some cj →
  locked (the_lock key (service st)) = false →
  locked (the_lock key s') = true →
  exclusive key (set_task j (Fetching key ttl) s' [Invoked j key] st).
Proof.
  intros (holder & Hser & Hwho & Hlock) Hj Hfree Hheld.
  destruct holder as [h|]; [pose proof (proj2 Hlock (mk_is_Some _ _ eq_refl)); congruence|].
  assert (Hser' : serial None (on_key key (history st ++ [Invoked j key])) = Some (Some j)).
  { by rewrite on_key_app, on_key_same, serial_app, Hser. }
  exists (Some j). split; [exact Hser'|]. cbn [service set_task].
  split; [|by rewrite Hheld].
  intros i. rewrite set_task_lookup by eauto. case_decide as Hji.
  - subst i. split; [|done]. intros _. eexists. split; [done|]. by exists ttl.
  - split; [congruence|]. intros Hi. by apply Hwho in Hi.
Qed.

(** The fetch of the task that holds the lock ends. *)
Lemma exclusive_end key st j ttl r c' s' :
  exclusive key st → tasks st !! j = Some (Fetching key ttl) →
  ¬ fetching key c' →
  locked (the_lock key s') = false →
  exclusive key (set_task j c' s' [Resolved j key r] st).
Proof.
  intros (holder & Hser & Hwho & Hlock) Hj Hc' Hfree.
  assert (holder = Some j) as ->.
  { apply Hwho. eexists. split; [done|]. by exists ttl. }
  assert (Hser' : serial None (on_key key (history st ++ [Resolved j key r])) = Some None).
  { rewrite on_key_app, on_key_same, serial_app, Hser by done. simpl.
    by rewrite bool_decide_eq_true_2. }
  exists None. split; [exact Hser'|]. cbn [service set_task].
  split; [|rewrite Hfree; split; [done|by intros [? ?]]].
  intros i. rewrite set_task_lookup by eauto. split; [done|]. case_decide as Hji.
  - intros (c & [= <-] & Hc). done.
  - intros Hi. apply Hwho in Hi. congruence.
Qed.

Lemma exclusive_move key st st' : move st st' → exclusive key st → exclusive key st'.
Proof.
  intros Hm Hex.
  destruct Hm as [dt ? ->|j k ttl v e Hj Hk Hlive ->|j k ttl Hj Hmiss Hbusy ->
                 |j k ttl Hj Hmiss Hl Hw ->|j k ttl ws v e Hj Hl Hw Hk Hlive ->
                 |j k ttl ws Hj Hl Hw Hmiss ->|j k ttl v Hj Hfits ->|j k ttl e Hj ->
                 |j k ttl v Hj Hover ->];
    [done|..].
  all: destruct (decide (k = key)) as [->|Hne].
  all: first
    [ eapply exclusive_begin; [exact Hex|exact Hj|exact Hl|];
      by rewrite the_lock_lock_held, decide_True
    | eapply exclusive_end; [exact Hex|exact Hj|by intros [? ?]|];
      by rewrite the_lock_release, decide_True
    | eapply exclusive_same; [exact Hex|exact Hj|by intros [? ?]|by intros [? ?]|done|];
      rewrite ?the_lock_release, ?the_lock_lock_held, ?the_lock_ensure_lock,
        ?the_lock_set_cache;
      repeat case_decide; try done; cbn [locked]; congruence
    | eapply exclusive_same;
      [exact Hex|exact Hj|intros [? [= ? ?]]; congruence|intros [? [= ? ?]]; congruence
      |by rewrite ?on_key_other|];
      rewrite ?the_lock_release, ?the_lock_lock_held, ?the_lock_ensure_lock,
        ?the_lock_set_cache;
      repeat case_decide; try done; cbn [locked]; congruence ].
Qed.

(** X12: Two calls of [fetch_fn] for the same key never overlap, whatever the
    loop does and whether the fetches succeed or raise: from a state in
    which the calls for [key] have come one after the other and the lock of
    [key] is held exactly by the task that is in such a call, if any, every
    run leads to such a state.  In particular the lock is free again after
    a fetch that raised. *)
Theorem fetches_for_a_key_never_overlap (key : string) (acts : list (action Value Exn)) :
  ∀ st st', exclusive key st → run acts st = Some st' → exclusive key st'.
Proof.
  induction acts as [|a acts IH]; intros st st' Hex; simpl; [by intros [= <-]|].
  destruct (step a st) as [st1|] eqn:Hs; [|done]. intros Hrun.
  eapply IH; [|done]. eapply exclusive_move; [by eapply step_move|done].
Qed.

End Exclusion.

(** *** Invalidation, calls without a time to live, and the lock table *)

Section Freshness.
Context {Value Exn : Type} `{!Exceptions Exn}.
Implicit Types (s : CacheService Value) (st : Loop Value Exn).

(** A synchronous method of the service, called between two steps of
    the loop. *)
Definition between_steps (f : CacheService Value → CacheService Value) st : Loop Value Exn :=
  {| service := f (service st); clock := clock st; tasks := tasks st; history := history st |}.

(** X13: After [invalidate(key)], or [invalidate_prefix(prefix)] with a prefix
    of [key], a call for [key] that has not returned yet, whether it has
    not started, waits for the lock or is in its fetch, returns only a
    value whose fetch ended after the invalidation: the entry that was
    removed is never served.  The fetch may have been started before the
    invalidation, which does not cancel it. *)
Theorem invalidated_entry_is_never_served
    (st st' : Loop Value Exn) (acts : list (action Value Exn))
    (f : CacheService Value → CacheService Value)
    (i : nat) (key : string) (c : coro Value Exn) (v : Value) :
  f = invalidate key ∨ (∃ prefix, String.prefix prefix key = true ∧ f = invalidate_prefix prefix) →
  tasks st !! i = Some c → coro_key c = Some key →
  run acts (between_steps f st) = Some st' →
  tasks st' !! i = Some (Finished (Ok v)) →
  ∃ evs j, history st' = history st ++ evs ∧ Resolved j key (Ok v) ∈ evs.
Proof.
  intros Hf Hi Hkey Hrun Hret.
  assert (Hgone : _cache (f (service st)) !! key = None).
  { destruct Hf as [->|(prefix & Hp & ->)].
    - apply lookup_delete_eq.
    - by rewrite invalidate_prefix_lookup, Hp. }
  assert (Hinv : since key i (clock st) [] (between_steps f st)).
  { split; [simpl; lia|]. split; [simpl; eauto|]. split.
    - intros v1 e1. simpl. by rewrite Hgone.
    - simpl. rewrite Hi. intros v1 [= ->]. done. }
  destruct (since_run _ _ _ _ _ _ _ Hrun Hinv) as (evs & Hh & _ & _ & _ & Hfin).
  destruct (Hfin _ Hret) as [j Hj]. by exists evs, j.
Qed.

(** [ttl_seconds] of a call, 0 for one that has returned. *)
Definition coro_ttl (c : coro Value Exn) : Z :=
  match c with
  | Pending _ ttl | Waiting _ ttl | Fetching _ ttl => ttl
  | Finished _ => 0
  end.

(** Task [i] works on [key] or has returned the result of its own fetch,
    and what is stored for [key] has expired. *)
Definition uncached (key : string) (i : nat) (evs : list (event Value Exn)) st : Prop :=
  (∀ v e, _cache (service st) !! key = Some (v, e) → e ≤ clock st)
  ∧ (∀ j c, tasks st !! j = Some c → coro_key c = Some key → coro_ttl c ≤ 0)
  ∧ ∃ c, tasks st !! i = Some c
         ∧ (coro_key c = Some key ∨ (∃ e, c = Finished (Raise e))
            ∨ ∃ v, c = Finished (Ok v) ∧ Resolved i key (Ok v) ∈ evs).

Lemma uncached_set_task key i evs st j cj c' s' evs' :
  uncached key i evs st →
  tasks st !! j = Some cj → is_Some (coro_key cj) →
  (∀ v e, _cache s' !! key = Some (v, e) →
          _cache (service st) !! key = Some (v, e) ∨ e ≤ clock st) →
  (coro_key c' = Some key → coro_key cj = Some key ∧ coro_ttl c' = coro_ttl cj) →
  (j = i → coro_key cj = Some key →
           coro_key c' = Some key ∨ (∃ e, c' = Finished (Raise e))
           ∨ ∃ v, c' = Finished (Ok v) ∧ Resolved i key (Ok v) ∈ evs ++ evs') →
  uncached key i (evs ++ evs') (set_task j c' s' evs' st).
Proof.
  intros (Hcache & Httl & c & Hc & Hstate) Hj Hlive Hs' Hkeep Hmine.
  split; [|split].
  - intros v e Hve. simpl. destruct (Hs' _ _ Hve) as [Hold|?]; [by eapply Hcache|done].
  - intros j' c0. rewrite set_task_lookup by eauto. case_decide as Hjj; [|apply Httl].
    intros [= <-] Hk. destruct (Hkeep Hk) as [Hk' ->]. by eapply Httl.
  - rewrite set_task_lookup by eauto. case_decide as Hji.
    + subst j. rewrite Hc in Hj. injection Hj as ->. eexists. split; [done|].
      destruct Hstate as [Hk|[[e ->]|(v & -> & Hv)]]; [by apply Hmine| |];
        by destruct Hlive.
    + exists c. split; [done|].
      destruct Hstate as [?|[?|(v & -> & Hv)]]; auto.
      right; right. exists v. split; [done|]. apply elem_of_app. by left.
Qed.

Lemma uncached_move key i evs st st' :
  move st st' → uncached key i evs st →
  ∃ evs', history st' = history st ++ evs' ∧ uncached key i (evs ++ evs') st'.
Proof.
  intros Hm Hinv. pose proof Hinv as (Hcache & Httl & _).
  destruct Hm as [dt ? ->|j k ttl v e Hj Hk Hlt ->|j k ttl Hj Hmiss Hbusy ->
                 |j k ttl Hj Hmiss Hl Hw ->|j k ttl ws v e Hj Hl Hw Hk Hlt ->
                 |j k ttl ws Hj Hl Hw Hmiss ->|j k ttl v Hj Hfits ->|j k ttl e Hj ->
                 |j k ttl v Hj Hover ->].
  - exists []. rewrite !app_nil_r. split; [done|].
    destruct Hinv as (? & ? & ?). split; [|done]. intros v e Hve. simpl.
    assert (e ≤ clock st) by eauto. lia.
  - (* a hit at the first test: the entry is not one of [key] *)
    destruct (decide (k = key)) as [->|Hne]; [specialize (Hcache _ _ Hk); lia|].
    eexists. split; [reflexivity|].
    eapply uncached_set_task; [exact Hinv|exact Hj|by eexists|..].
    + by left.
    + by intros [=].
    + intros _ [= ?]. done.
  - eexists. split; [reflexivity|].
    eapply uncached_set_task; [exact Hinv|exact Hj|by eexists|..].
    + intros v e. rewrite cache_lock_held, cache_ensure_lock. by left.
    + done.
    + by left.
  - eexists. split; [reflexivity|].
    eapply uncached_set_task; [exact Hinv|exact Hj|by eexists|..].
    + intros v e. rewrite cache_lock_held, cache_ensure_lock. by left.
    + done.
    + by left.
  - (* a hit at the second test: the entry is not one of [key] *)
    destruct (decide (k = key)) as [->|Hne]; [specialize (Hcache _ _ Hk); lia|].
    eexists. split; [reflexivity|].
    eapply uncached_set_task; [exact Hinv|exact Hj|by eexists|..].
    + intros v' e'. rewrite cache_release, cache_lock_held. by left.
    + by intros [=].
    + intros _ [= ?]. done.
  - eexists. split; [reflexivity|].
    eapply uncached_set_task; [exact Hinv|exact Hj|by eexists|..].
    + intros v e. rewrite cache_lock_held. by left.
    + done.
    + by left.
  - (* a fetch stores its value, which has expired at once *)
    eexists. split; [reflexivity|].
    eapply uncached_set_task; [exact Hinv|exact Hj|by eexists|..].
    + intros v' e'. rewrite cache_release. simpl.
      destruct (decide (k = key)) as [->|Hne].
      * rewrite lookup_insert_eq. intros [= <- <-]. right.
        assert (coro_ttl (Fetching key ttl) ≤ 0) as Hle by (by eapply Httl).
        simpl in Hle. unfold timedelta. lia.
      * rewrite lookup_insert_ne by done. by left.
    + by intros [=].
    + intros -> [= ->]. right; right. exists v. split; [done|].
      apply elem_of_app. right. by apply list_elem_of_singleton.
  - eexists. split; [reflexivity|].
    eapply uncached_set_task; [exact Hinv|exact Hj|by eexists|..].
    + intros v' e'. rewrite cache_release. by left.
    + by intros [=].
    + intros _ _. right; left. eauto.
  - (* the expiry overflows: nothing is stored *)
    eexists. split; [reflexivity|].
    eapply uncached_set_task; [exact Hinv|exact Hj|by eexists|..].
    + intros v' e'. rewrite cache_release. by left.
    + by intros [=].
    + intros _ _. right; left. eauto.
Qed.

(** X14: A call with [ttl_seconds <= 0] stores an entry that has expired
    when it is stored.  If every call for [key] is made so and the key has
    no live entry, nothing is served from the cache: a caller that returns
    a value returns the result of its own call of [fetch_fn].  The callers
    still take the lock in turn. *)
Theorem nonpositive_ttl_disables_the_cache
    (st st' : Loop Value Exn) (acts : list (action Value Exn))
    (i : nat) (key : string) (ttl_seconds : Z) (v : Value) :
  (∀ v e, _cache (service st) !! key = Some (v, e) → e ≤ clock st) →
  (∀ j c, tasks st !! j = Some c → coro_key c = Some key → coro_ttl c ≤ 0) →
  tasks st !! i = Some (Pending key ttl_seconds) →
  run acts st = Some st' →
  tasks st' !! i = Some (Finished (Ok v)) →
  ∃ evs, history st' = history st ++ evs ∧ Resolved i key (Ok v) ∈ evs.
Proof.
  intros Hcache Httl Hi Hrun Hret.
  assert (Hgen : ∀ acts evs st st', run acts st = Some st' → uncached key i evs st →
            ∃ evs', history st' = history st ++ evs' ∧ uncached key i (evs ++ evs') st').
  { clear. induction acts as [|a acts IH]; intros evs st st'; simpl.
    - intros [= ->] H. exists []. by rewrite !app_nil_r.
    - destruct (step a st) as [st1|] eqn:Hs; [|done]. intros Hrun Hinv.
      destruct (uncached_move _ _ _ _ _ (step_move _ _ _ Hs) Hinv) as (evs1 & Hh1 & Hinv1).
      destruct (IH _ _ _ Hrun Hinv1) as (evs2 & Hh2 & Hinv2).
      exists (evs1 ++ evs2). rewrite Hh2, Hh1, <- !app_assoc.
      by rewrite <- app_assoc in Hinv2. }
  destruct (Hgen acts [] st st' Hrun) as (evs & Hh & _ & _ & c & Hc & Hstate).
  { split; [done|]. split; [done|]. eexists. split; [done|]. by left. }
  exists evs. split; [done|]. rewrite Hret in Hc. injection Hc as <-.
  destruct Hstate as [[=]|[[e [=]]|(v' & [= <-] & Hv)]]. done.
Qed.

Lemma move_locks st st' (k : string) :
  move st st' → is_Some (_locks (service st) !! k) → is_Some (_locks (service st') !! k).
Proof.
  assert (Hensure : ∀ key s, is_Some (_locks s !! k) → is_Some (_locks (ensure_lock key s) !! k)).
  { intros key s Hk. unfold ensure_lock. destruct (_locks s !! key); [done|]. simpl.
    rewrite lookup_insert_is_Some. destruct (decide (key = k)); auto. }
  assert (Hheld : ∀ b ws key s, is_Some (_locks s !! k)
            → is_Some (_locks (lock_held b ws key s) !! k)).
  { intros b ws key s Hk. simpl. rewrite lookup_insert_is_Some.
    destruct (decide (key = k)); auto. }
  assert (Hrelease : ∀ key s, is_Some (_locks s !! k) → is_Some (_locks (release key s) !! k)).
  { intros key s Hk. simpl. rewrite lookup_insert_is_Some.
    destruct (decide (key = k)); auto. }
  destruct 1; subst; simpl service; auto.
Qed.

(** X15: The lock table only grows: a lock is made at the first miss for a
    key and is then kept for good, through every run of the loop and
    through [invalidate] and [invalidate_prefix], which leave the table as
    it is. *)
Theorem locks_are_never_removed
    (st st' : Loop Value Exn) (acts : list (action Value Exn)) (k : string) :
  run acts st = Some st' →
  is_Some (_locks (service st) !! k) →
  is_Some (_locks (service st') !! k)
  ∧ (∀ key, is_Some (_locks (invalidate key (service st')) !! k))
  ∧ (∀ prefix, is_Some (_locks (invalidate_prefix prefix (service st')) !! k)).
Proof.
  intros Hrun Hk.
  assert (Hk' : is_Some (_locks (service st') !! k)).
  { revert st Hrun Hk. induction acts as [|a acts IH]; intros st; simpl.
    - by intros [= ->].
    - destruct (step a st) as [st1|] eqn:Hs; [|done]. intros Hrun Hk.
      eapply IH; [done|]. eapply move_locks; [by eapply step_move|done]. }
  split; [done|]. split; [done|].
  intros prefix. unfold invalidate_prefix. by rewrite invalidate_all_locks.
Qed.

End Freshness.

(** *** No deadlock *)

Section Progress.
Context {Value Exn : Type} `{!Exceptions Exn}.
Implicit Types (s : CacheService Value) (st : Loop Value Exn).

(** The suspension points a call still has before it. *)
Definition todo (c : coro Value Exn) : nat :=
  match c with
  | Pending _ _ => 3
  | Waiting _ _ => 2
  | Fetching _ _ => 1
  | Finished _ => 0
  end.

Definition remaining st : nat := sum_list (todo <$> tasks st).

(** Every call has returned or raised. *)
Definition settled st : Prop := ∀ i c, tasks st !! i = Some c → ∃ r, c = Finished r.

(** The loop resumes tasks and ends fetches, each fetch with the outcome
    [answer] gives for its task; no time passes. *)
Definition scheduled (answer : nat → outcome Value Exn) (a : action Value Exn) : Prop :=
  match a with
  | Tick _ => False
  | Run _ => True
  | Resolve i r => r = answer i
  end.

Lemma remaining_set_task i c c' s evs st :
  tasks st !! i = Some c →
  (remaining (set_task i c' s evs st) + todo c = remaining st + todo c')%nat.
Proof.
  unfold remaining. simpl. generalize (tasks st). intros l. revert i.
  induction l as [|c0 l IH]; intros [|i]; csimpl; try done.
  - intros [= ->]. lia.
  - intros Hi. specialize (IH _ Hi). lia.
Qed.

Lemma remaining_settled st : remaining st = 0%nat → settled st.
Proof.
  unfold remaining, settled. generalize (tasks st). intros l.
  induction l as [|c0 l IH]; intros Hsum i c; [done|]. csimpl in Hsum.
  destruct i as [|i]; simpl.
  - intros [= ->]. destruct c; simpl in Hsum; try lia. eauto.
  - apply IH. lia.
Qed.

Lemma remaining_pick st :
  remaining st ≠ 0%nat → ∃ i c, tasks st !! i = Some c ∧ todo c ≠ 0%nat.
Proof.
  unfold remaining. generalize (tasks st). intros l.
  induction l as [|c0 l IH]; csimpl; [done|]. intros Hsum.
  destruct (decide (todo c0 = 0%nat)) as [Hz|Hnz].
  - destruct IH as (i & c & Hi & Hc); [lia|]. by exists (S i), c.
  - by exists 0%nat, c0.
Qed.

Lemma critical_remaining i key ttl c s st :
  tasks st !! i = Some c → (2 ≤ todo c)%nat →
  (remaining (critical i key ttl s st) < remaining st)%nat.
Proof.
  intros Hi Hc. unfold critical.
  destruct (cache_hit key (clock st) s);
    pose proof (remaining_set_task i c) as Hrem;
    [specialize (Hrem (Finished (Ok v)) (release key s) [] st Hi)
    |specialize (Hrem (Fetching key ttl) s [Invoked i key] st Hi)];
    simpl in Hrem; lia.
Qed.

(** Unless every call has returned, some task can take a step. *)
Lemma progress (answer : nat → outcome Value Exn) st :
  (∀ k, queued k st) → (∀ k, exclusive k st) → remaining st ≠ 0%nat →
  ∃ a st', scheduled answer a ∧ step a st = Some st'
           ∧ (remaining st' < remaining st)%nat.
Proof.
  intros Hq Hex Hrem. destruct (remaining_pick _ Hrem) as (i & c & Hi & Hc).
  assert (Hresolve : ∀ h k ttl, tasks st !! h = Some (Fetching k ttl) →
            ∃ a st', scheduled answer a ∧ step a st = Some st'
                     ∧ (remaining st' < remaining st)%nat).
  { intros h k ttl Hh. exists (Resolve h (answer h)). simpl. unfold get_or_fetch_resume.
    rewrite Hh.
    assert (Hless : ∀ r s evs,
              (remaining (set_task h (Finished r) s evs st) < remaining st)%nat).
    { intros r s evs. pose proof (remaining_set_task h _ (Finished r) s evs st Hh) as H.
      simpl in H. lia. }
    destruct (answer h) as [v|e]; [destruct (expires _ _)|];
      eexists; (split; [done|]); (split; [done|]); apply Hless. }
  destruct c as [k ttl|k ttl|k ttl|r]; [| |by eapply Hresolve|done].
  - (* a call that has not started runs to its first suspension point *)
    exists (Run i). simpl. unfold get_or_fetch. rewrite Hi.
    destruct (cache_hit k (clock st) (service st)) as [v|].
    { eexists. split; [done|]. split; [done|].
      pose proof (remaining_set_task i _ (Finished (Ok v)) (service st) [] st Hi) as H.
      simpl in H. lia. }
    destruct (negb _ && _); eexists; (split; [done|]); (split; [done|]).
    + eapply critical_remaining; [done|simpl; lia].
    + pose proof (remaining_set_task i _ (Waiting k ttl)
                    (lock_held (locked (the_lock k (ensure_lock k (service st))))
                       (waiters (the_lock k (ensure_lock k (service st))) ++ [i]) k
                       (ensure_lock k (service st))) [] st Hi) as H.
      simpl in H. lia.
  - (* a call that waits: the head of the queue enters, or the holder of
       the lock ends its fetch *)
    destruct (Hq k) as [_ Hwait]. destruct (Hex k) as (holder & _ & Hwho & Hlock).
    destruct (waiters (the_lock k (service st))) as [|j ws] eqn:Hws.
    { assert (Hin : i ∈ @nil nat) by (apply Hwait; eauto). by apply elem_of_nil in Hin. }
    destruct (proj1 (Hwait j)) as [ttl_j Hj]; [by left|].
    destruct (locked (the_lock k (service st))) eqn:Hl.
    + destruct (proj1 Hlock eq_refl) as [h ->].
      destruct (proj1 (Hwho h) eq_refl) as (ch & Hh & ttl_h & ->). by eapply Hresolve.
    + exists (Run j). simpl. unfold get_or_fetch. rewrite Hj, Hl, Hws.
      rewrite bool_decide_eq_true_2 by done.
      eexists. split; [done|]. split; [done|].
      eapply critical_remaining; [done|simpl; lia].
Qed.

(** X16: [get_or_fetch] does not deadlock.  In a state in which, for every
    key, the queue of the lock holds the calls that wait for it and the
    lock is held by the call that is in its fetch, whatever has happened
    before and whatever outcome each fetch has, a value or an exception,
    the loop can resume the tasks in some order so that every call returns
    or raises, without time passing. *)
Theorem every_call_can_return (answer : nat → outcome Value Exn) (st : Loop Value Exn) :
  (∀ k, queued k st) → (∀ k, exclusive k st) →
  ∃ acts st',
    Forall (scheduled answer) acts ∧ run acts st = Some st'
    ∧ settled st' ∧ clock st' = clock st.
Proof.
  remember (remaining st) as n eqn:Hn. revert st Hn.
  induction (lt_wf n) as [n _ IH]. intros st -> Hq Hex.
  destruct (decide (remaining st = 0%nat)) as [Hz|Hnz].
  { exists [], st. split; [done|]. split; [done|]. split; [by apply remaining_settled|done]. }
  destruct (progress answer st Hq Hex Hnz) as (a & st1 & Ha & Hstep & Hlt).
  pose proof (step_move _ _ _ Hstep) as Hm.
  destruct (IH _ Hlt st1 eq_refl) as (acts & st' & Hacts & Hrun & Hset & Hclock).
  { intros k. by eapply queued_move. }
  { intros k. by eapply exclusive_move. }
  exists (a :: acts), st'. split; [by constructor|]. simpl. rewrite Hstep.
  split; [done|]. split; [done|]. rewrite Hclock.
  destruct a as [dt|i|i r]; [done| |]; simpl in Hstep.
  - unfold get_or_fetch in Hstep.
    destruct (tasks st !! i) as [[k ttl|k ttl|k ttl|r]|]; try done.
    + destruct (cache_hit _ _ _); [by injection Hstep as <-|].
      destruct (negb _ && _); injection Hstep as <-; [|done].
      unfold critical. by destruct (cache_hit _ _ _).
    + destruct (locked _); [done|]. destruct (waiters _) as [|j ws]; [done|].
      case_bool_decide; [|done]. injection Hstep as <-.
      unfold critical. by destruct (cache_hit _ _ _).
  - unfold get_or_fetch_resume in Hstep.
    destruct (tasks st !! i) as [[k ttl|k ttl|k ttl|r']|]; try done.
    destruct r; [destruct (expires _ _)|]; by injection Hstep as <-.
Qed.

End Progress.

(** *** Two viewers of one node *)

Module Scenario.

(** Exceptions are told by their message. *)
#[export] Instance string_exceptions : Exceptions string :=
  "OverflowError: date value out of range".

Definition key : string := "node_info:/sensing/lidar".

(** Two requests for the same key reach an empty cache. *)
Definition two_callers : Loop nat string :=
  {| service := __init__; clock := 0;
     tasks := [Pending key 10; Pending key 10]; history := [] |}.

(** The first call is in flight and the second waits for the lock. *)
Definition in_flight : Loop nat string :=
  default two_callers (run [Run 0; Run 1] two_callers).

(** The first fetch fails; the second caller then fetches and gets 7. *)
Definition failure_then_retry : list (action nat string) :=
  [Run 0; Run 1; Resolve 0 (Raise "timeout"); Run 1; Resolve 1 (Ok 7%nat)].

(** The first fetch returns 7 one second later; the second caller finds it. *)
Definition success : list (action nat string) :=
  [Run 0; Run 1; Tick 1000000; Resolve 0 (Ok 7%nat); Run 1].

(** An entry that expired one microsecond ago, and one reader. *)
Definition expired : Loop nat string :=
  {| service := {| _cache := {[ key := (1%nat, 10000000) ]}; _locks := ∅ |};
     clock := 10000001; tasks := [Pending key 10]; history := [] |}.

Lemma two_callers_cold : cold key two_callers.
Proof.
  split; [|split; [|split]]; try done.
  intros [|[|i]] c; simpl; intros [= <-]; try done; intros _; by exists 10.
Qed.

Example failure_then_retry_run :
  (history <$> run failure_then_retry two_callers)
  = Some [Invoked 0 key; Resolved 0 key (Raise "timeout");
          Invoked 1 key; Resolved 1 key (Ok 7%nat)]
  ∧ (tasks <$> run failure_then_retry two_callers)
    = Some [Finished (Raise "timeout"); Finished (Ok 7%nat)].
Proof. split; vm_compute; reflexivity. Qed.

Example success_run :
  (history <$> run success two_callers)
  = Some [Invoked 0 key; Resolved 0 key (Ok 7%nat)]
  ∧ (tasks <$> run success two_callers) = Some [Finished (Ok 7%nat); Finished (Ok 7%nat)].
Proof. split; vm_compute; reflexivity. Qed.

Definition after_retry : Loop nat string :=
  Eval vm_compute in default two_callers (run failure_then_retry two_callers).

Definition after_success : Loop nat string :=
  Eval vm_compute in default two_callers (run success two_callers).

Definition refresh : list (action nat string) :=
  [Run 0; Tick 2000000; Resolve 0 (Ok 2%nat)].

Definition after_refresh : Loop nat string :=
  Eval vm_compute in default expired (run refresh expired).

Lemma callers_of_two_callers i : caller key two_callers i ↔ i = 0%nat ∨ i = 1%nat.
Proof.
  split.
  - intros [ttl Hi]. destruct i as [|[|i]]; auto. done.
  - intros [->| ->]; by exists 10.
Qed.

(** The fetch takes twelve seconds, more than the time to live of ten, and
    the second caller runs again nine seconds after the value is stored. *)
Definition slow_success : list (action nat string) :=
  [Run 0; Run 1; Tick 12000000; Resolve 0 (Ok 7%nat); Tick 9000000; Run 1].

Definition after_slow_success : Loop nat string :=
  Eval vm_compute in default two_callers (run slow_success two_callers).

(** The second caller runs again ten seconds after the value is stored,
    when it has just expired, and fetches again. *)
Definition expiry_then_refetch : list (action nat string) :=
  [Run 0; Run 1; Resolve 0 (Ok 7%nat); Tick 10000000; Run 1; Resolve 1 (Ok 8%nat)].

Definition after_refetch : Loop nat string :=
  Eval vm_compute in default two_callers (run expiry_then_refetch two_callers).

(** Two callers with a time to live of ten thousand years. *)
Definition two_callers_for_ever : Loop nat string :=
  {| service := __init__; clock := 0;
     tasks := [Pending key 315537897600; Pending key 315537897600]; history := [] |}.

Definition both_overflow : list (action nat string) :=
  [Run 0; Run 1; Resolve 0 (Ok 7%nat); Run 1; Resolve 1 (Ok 7%nat)].

Definition after_overflow : Loop nat string :=
  Eval vm_compute in default two_callers_for_ever (run both_overflow two_callers_for_ever).

Example overflow_run :
  tasks after_overflow
  = [Finished (Raise "OverflowError: date value out of range");
     Finished (Raise "OverflowError: date value out of range")]
  ∧ history after_overflow
    = [Invoked 0 key; Resolved 0 key (Ok 7%nat); Invoked 1 key; Resolved 1 key (Ok 7%nat)]
  ∧ _cache (service after_overflow) !! key = None.
Proof. repeat split. Qed.

Lemma two_callers_for_ever_cold : cold key two_callers_for_ever.
Proof.
  split; [|split; [|split]]; try done.
  intros [|[|i]] c; simpl; intros [= <-]; try done; intros _; by eexists.
Qed.

Lemma callers_for_ever i : caller key two_callers_for_ever i ↔ i = 0%nat ∨ i = 1%nat.
Proof.
  split.
  - intros [ttl Hi]. destruct i as [|[|i]]; auto. done.
  - intros [->| ->]; by eexists.
Qed.

(** C1 as stated fails, in three ways.  When the first [fetch_fn]
    raises, the caller that waited for the lock calls [fetch_fn] again, and
    the two callers end with different outcomes.  When no [fetch_fn]
    raises but the value has expired by the time the waiting caller runs
    again, that caller fetches too.  And when the time to live is so long
    that the expiry is no date, the value is not stored and the waiting
    caller fetches too, although the run ends long before the time to live
    has elapsed. *)
Lemma C1_fetch_is_repeated :
  ¬ (∀ (st st' : Loop nat string) (acts : list (action nat string)) (k : string),
       cold k st → run acts st = Some st' →
       (∃ i, caller k st i) →
       (∀ i, caller k st i → ∃ r, tasks st' !! i = Some (Finished r)) →
       single_flight k st st')
  ∧ ¬ (∀ (st st' : Loop nat string) (acts : list (action nat string)) (k : string),
         cold k st → run acts st = Some st' →
         (∀ evs j e, history st' = history st ++ evs → Resolved j k (Raise e) ∉ evs) →
         (∃ i, caller k st i) →
         (∀ i, caller k st i → ∃ r, tasks st' !! i = Some (Finished r)) →
         single_flight k st st')
  ∧ ¬ (∀ (st st' : Loop nat string) (acts : list (action nat string)) (k : string),
         cold k st → run acts st = Some st' →
         (∀ evs j e, history st' = history st ++ evs → Resolved j k (Raise e) ∉ evs) →
         (∀ i ttl, tasks st !! i = Some (Pending k ttl) → clock st' < clock st + timedelta ttl) →
         (∃ i, caller k st i) →
         (∀ i, caller k st i → ∃ r, tasks st' !! i = Some (Finished r)) →
         single_flight k st st').
Proof.
  split; [|split]; intros H.
  - destruct (H two_callers after_retry failure_then_retry key)
      as (evs & j & r & Hh & Hon & _).
    + apply two_callers_cold.
    + vm_compute. reflexivity.
    + exists 0%nat. apply callers_of_two_callers. auto.
    + intros i [->| ->]%callers_of_two_callers; eexists; vm_compute; reflexivity.
    + simpl in Hh. subst evs. vm_compute in Hon. discriminate Hon.
  - destruct (H two_callers after_refetch expiry_then_refetch key)
      as (evs & j & r & Hh & Hon & _).
    + apply two_callers_cold.
    + vm_compute. reflexivity.
    + intros evs j e Hh. simpl in Hh. subst evs. unfold after_refetch. simpl.
      rewrite !elem_of_cons, elem_of_nil. naive_solver.
    + exists 0%nat. apply callers_of_two_callers. auto.
    + intros i [->| ->]%callers_of_two_callers; eexists; vm_compute; reflexivity.
    + simpl in Hh. subst evs. vm_compute in Hon. discriminate Hon.
  - destruct (H two_callers_for_ever after_overflow both_overflow key)
      as (evs & j & r & Hh & Hon & _).
    + apply two_callers_for_ever_cold.
    + vm_compute. reflexivity.
    + intros evs j e Hh. simpl in Hh. subst evs. unfold after_overflow. simpl.
      rewrite !elem_of_cons, elem_of_nil. naive_solver.
    + intros [|[|i]] ttl; simpl; intros [= <-]; vm_compute; reflexivity.
    + exists 0%nat. apply callers_for_ever. auto.
    + intros i [->| ->]%callers_for_ever; eexists; vm_compute; reflexivity.
    + simpl in Hh. subst evs. vm_compute in Hon. discriminate Hon.
Qed.

Lemma C1_success_witness : single_flight key two_callers after_slow_success.
Proof.
  destruct (C1_one_fetch_when_it_succeeds two_callers after_slow_success slow_success key)
    as (evs & _ & _ & _ & Hshared & _).
  - apply two_callers_cold.
  - vm_compute. reflexivity.
  - intros evs j e Hh. simpl in Hh. subst evs. unfold after_slow_success. simpl.
    rewrite !elem_of_cons, elem_of_nil. naive_solver.
  - intros acts1 acts2 st1 j v ttl Hsplit Hrun Hj. unfold slow_success in Hsplit.
    repeat (destruct acts1 as [|? acts1]; simpl in Hsplit;
            [try discriminate Hsplit | injection Hsplit as <- Hsplit]).
    all: try (by destruct acts1).
    injection Hsplit as <- <- <-. vm_compute in Hrun. injection Hrun as <-.
    injection Hj as <-. eexists. split; vm_compute; reflexivity.
  - apply Hshared.
    + exists 0%nat. apply callers_of_two_callers. auto.
    + intros i [-> | ->]%callers_of_two_callers; eexists; reflexivity.
Defined.

Lemma C4_refresh_witness :
  ∃ evs j, history after_refresh = history expired ++ evs
           ∧ Resolved j key (Ok 2%nat) ∈ evs.
Proof.
  apply (C4_expired_entry_is_never_served expired after_refresh refresh 0 key 10 1%nat 2%nat
           10000000).
  - vm_compute. reflexivity.
  - vm_compute. discriminate.
  - reflexivity.
  - vm_compute. reflexivity.
  - vm_compute. reflexivity.
Defined.

(** C5 as stated fails in its last part: the caller suspended on the lock
    while the fetch of task [i] fails does not receive that error; it runs
    its own fetch and may return a value. *)
Lemma C5_waiter_does_not_receive_the_error :
  ¬ (∀ (st st' st'' : Loop nat string) (acts : list (action nat string))
       (i w : nat) (k : string) (ttl ttl_w : Z) (e : string) (r : outcome nat string),
       tasks st !! i = Some (Fetching k ttl) →
       tasks st !! w = Some (Waiting k ttl_w) →
       step (Resolve i (Raise e)) st = Some st' →
       run acts st' = Some st'' →
       tasks st'' !! w = Some (Finished r) →
       r = Raise e).
Proof.
  intros H.
  set (failed := default in_flight (step (Resolve 0 (Raise "timeout")) in_flight)).
  specialize (H in_flight failed after_retry [Run 1; Resolve 1 (Ok 7%nat)] 0%nat 1%nat
                key 10 10 "timeout" (Ok 7%nat)).
  discriminate H; vm_compute; reflexivity.
Qed.

Lemma C5_failure_witness :
  ∃ st', step (Resolve 0 (Raise "timeout")) in_flight = Some st'
    ∧ _cache (service st') = _cache (service in_flight)
    ∧ locked (the_lock key (service st')) = false
    ∧ tasks st' !! 0%nat = Some (Finished (Raise "timeout"))
    ∧ (∀ j, j ≠ 0%nat → tasks st' !! j = tasks in_flight !! j)
    ∧ history st' = history in_flight ++ [Resolved 0 key (Raise "timeout")]
    ∧ (∀ w ttl_w ws,
         tasks in_flight !! w = Some (Waiting key ttl_w) →
         waiters (the_lock key (service in_flight)) = w :: ws →
         cache_hit key (clock st') (service st') = None →
         ∃ st'', step (Run w) st' = Some st''
           ∧ tasks st'' !! w = Some (Fetching key ttl_w)
           ∧ history st'' = history st' ++ [Invoked w key]).
Proof.
  apply (C5_failed_fetch_is_not_cached in_flight 0 key 10 "timeout").
  vm_compute. reflexivity.
Defined.

Lemma two_callers_exclusive (k : string) : exclusive k two_callers.
Proof.
  exists None. split; [reflexivity|]. split.
  - intros i. split; [done|]. intros (c & Hc & ttl & ->). by destruct i as [|[|i]].
  - split; [done|]. by intros [? ?].
Qed.

Lemma never_overlap_witness : exclusive key after_retry.
Proof.
  apply (fetches_for_a_key_never_overlap key failure_then_retry two_callers after_retry).
  - apply two_callers_exclusive.
  - vm_compute. reflexivity.
Defined.

(** A live entry, and a reader that comes after it has been invalidated. *)
Definition live : Loop nat string :=
  {| service := {| _cache := {[ key := (1%nat, 10000000) ]}; _locks := ∅ |};
     clock := 5; tasks := [Pending key 10]; history := [] |}.

Definition after_invalidation : Loop nat string :=
  Eval vm_compute in
    default live (run refresh (between_steps (invalidate_prefix "node_info:") live)).

Lemma invalidation_witness :
  ∃ evs j, history after_invalidation = history live ++ evs
           ∧ Resolved j key (Ok 2%nat) ∈ evs.
Proof.
  apply (invalidated_entry_is_never_served live after_invalidation refresh
           (invalidate_prefix "node_info:") 0 key (Pending key 10) 2%nat).
  - right. exists "node_info:". split; reflexivity.
  - reflexivity.
  - reflexivity.
  - vm_compute. reflexivity.
  - reflexivity.
Defined.

(** Two callers that ask for no caching: each one fetches. *)
Definition two_uncached : Loop nat string :=
  {| service := __init__; clock := 0;
     tasks := [Pending key 0; Pending key 0]; history := [] |}.

Definition both_fetch : list (action nat string) :=
  [Run 0; Run 1; Tick 1000000; Resolve 0 (Ok 7%nat); Run 1; Resolve 1 (Ok 8%nat)].

Definition after_both_fetch : Loop nat string :=
  Eval vm_compute in default two_uncached (run both_fetch two_uncached).

Lemma nonpositive_ttl_witness :
  ∃ evs, history after_both_fetch = history two_uncached ++ evs
         ∧ Resolved 1 key (Ok 8%nat) ∈ evs.
Proof.
  apply (nonpositive_ttl_disables_the_cache two_uncached after_both_fetch both_fetch
           1 key 0 8%nat).
  - intros v e. simpl. by rewrite lookup_empty.
  - intros [|[|j]] c; simpl; intros [= <-]; try done. all: intros _; simpl; lia.
  - reflexivity.
  - vm_compute. reflexivity.
  - reflexivity.
Defined.

Lemma locks_witness :
  is_Some (_locks (service after_success) !! key)
  ∧ (∀ k, is_Some (_locks (invalidate k (service after_success)) !! key))
  ∧ (∀ prefix, is_Some (_locks (invalidate_prefix prefix (service after_success)) !! key)).
Proof.
  apply (locks_are_never_removed in_flight after_success
           [Tick 1000000; Resolve 0 (Ok 7%nat); Run 1] key).
  - vm_compute. reflexivity.
  - vm_compute. eexists. reflexivity.
Defined.

Lemma two_callers_queued (k : string) : queued k two_callers.
Proof.
  split; [apply NoDup_nil_2|]. intros i. split; [by intros ?%elem_of_nil|].
  intros [ttl Hi]. by destruct i as [|[|i]].
Qed.

Lemma every_call_can_return_witness :
  ∃ acts st',
    Forall (scheduled (fun _ => Raise "timeout")) acts
    ∧ run acts two_callers = Some st'
    ∧ settled st' ∧ clock st' = clock two_callers.
Proof.
  apply (every_call_can_return (fun _ => Raise "timeout") two_callers).
  - apply two_callers_queued.
  - apply two_callers_exclusive.
Defined.

End Scenario.

End Cache.

(** ** LogService *)

Module Logs.

(** *** [collections.deque(maxlen=...)] and list slices *)

Section Deque.
Context {A : Type}.

Record Deque := { maxlen : nat; items : list A }.

Definition deque (maxlen : nat) : Deque := {| maxlen := maxlen; items := [] |}.

(** [d.append(x)]: the item is added on the right and, when the deque has
    grown past [maxlen], one item is dropped on the left. *)
Definition append (d : Deque) (x : A) : Deque :=
  let grown := items d ++ [x] in
  {| maxlen := maxlen d;
     items := if (maxlen d <? length grown)%nat then tail grown else grown |}.

(** [l[start:]] for a Python list: a negative [start] counts from the
    end, and both ends are clamped. *)
Definition slice_from (start : Z) (l : list A) : list A :=
  if start <? 0 then drop (Z.to_nat (Z.max 0 (Z.of_nat (length l) + start))) l
  else drop (Z.to_nat start) l.

(** The last [n] items of [l], all of [l] when it has fewer. *)
Definition last_n (n : nat) (l : list A) : list A := drop (length l - n) l.

End Deque.

Arguments Deque : clear implicits.

(** *** Awaitables

    A callback is awaited by the collector.  It acts on the world outside
    the service (sockets, queues) and either returns or raises. *)

Section Await.
Context {World Exn : Type}.

Definition Await (A : Type) : Type := World → World * (A + Exn).

Definition ret {A} (a : A) : Await A := fun w => (w, inl a).

Definition raise {A} (e : Exn) : Await A := fun w => (w, inr e).

Definition bind {A B} (m : Await A) (k : A → Await B) : Await B :=
  fun w => match m w with
           | (w', inl a) => k a w'
           | (w', inr e) => (w', inr e)
           end.

(** [try: m  except: handler] with a bare [except], which catches
    everything. *)
Definition try_except {A} (m : Await A) (handler : Exn → Await A) : Await A :=
  fun w => match m w with
           | (w', inl a) => (w', inl a)
           | (w', inr e) => handler e w'
           end.

(** [for x in xs: body(x)]; an exception that leaves [body] ends the loop. *)
Fixpoint for_each {X} (xs : list X) (body : X → Await unit) : Await unit :=
  match xs with
  | [] => ret tt
  | x :: xs' => bind (body x) (fun _ => for_each xs' body)
  end.

End Await.

Arguments Await : clear implicits.

Notation "'let*' x := m 'in' k" := (bind m (fun x => k))
  (at level 10, x name, m at level 100, k at level 200).

(** *** The service *)

Section LogService.
Context {LogEntry World Exn : Type}.

(** A callback that, awaited, returns or raises.  (One that may also
    never complete is a [Sink] of [CollectorTask].) *)
Definition Callback : Type := LogEntry → Await World Exn unit.

(** [self.buffer = deque(maxlen=1000)] and
    [self.subscribers: Dict[str, Callable]], a dictionary in insertion
    order. *)
Record LogService := {
  buffer : Deque LogEntry;
  subscribers : list (string * Callback)
}.

Definition __init__ : LogService := {| buffer := deque 1000; subscribers := [] |}.

(** [d[key] = value] on an insertion-ordered dictionary. *)
Fixpoint dict_set {V} (key : string) (value : V) (d : list (string * V)) : list (string * V) :=
  match d with
  | [] => [(key, value)]
  | (k, v) :: d' => if String.eqb k key then (k, value) :: d' else (k, v) :: dict_set key value d'
  end.

(** [d.pop(key, None)] *)
Definition dict_pop {V} (key : string) (d : list (string * V)) : list (string * V) :=
  List.filter (fun kv => negb (String.eqb (fst kv) key)) d.

Definition dict_get {V} (key : string) (d : list (string * V)) : option V :=
  snd <$> List.find (fun kv => String.eqb (fst kv) key) d.

(** [subscribe(callback)]; [uuid] is the fresh [str(uuid.uuid4())]. *)
Definition subscribe (callback : Callback) (uuid : string) (svc : LogService)
  : string * LogService :=
  (uuid, {| buffer := buffer svc; subscribers := dict_set uuid callback (subscribers svc) |}).

Definition unsubscribe (sub_id : string) (svc : LogService) : LogService :=
  {| buffer := buffer svc; subscribers := dict_pop sub_id (subscribers svc) |}.

(** [list(self.buffer)[-count:]] *)
Definition get_recent (count : Z) (svc : LogService) : list LogEntry :=
  slice_from (- count) (items (buffer svc)).

(** The body of the [async for] of [_collect_logs], for one [log_entry],
    when the collector is left alone: every callback returns or raises and
    no other task touches [self.subscribers] while one is awaited.  What
    the collector does among the other tasks is in [CollectorTask], whose
    runs without interference are this one
    ([CollectorTask.alone_is_collect_one]). *)
Definition collect_one (log_entry : LogEntry) (svc : LogService)
  : Await World Exn LogService :=
  let svc' := {| buffer := append (buffer svc) log_entry; subscribers := subscribers svc |} in
  let* _ := for_each (map snd (subscribers svc'))
              (fun callback => try_except (callback log_entry) (fun _ => ret tt)) in
  ret svc'.

(** [_collect_logs], left alone, over the entries the stream yields. *)
Fixpoint _collect_logs (stream : list LogEntry) (svc : LogService)
  : Await World Exn LogService :=
  match stream with
  | [] => ret svc
  | log_entry :: stream' =>
      let* svc' := collect_one log_entry svc in
      _collect_logs stream' svc'
  end.

(** What awaiting every callback on [log_entry], in order, does to the
    world, whether or not some of them raise. *)
Definition fan_out (log_entry : LogEntry) (callbacks : list Callback) (w : World) : World :=
  foldl (fun w callback => fst (callback log_entry w)) w callbacks.

(** [logs_websocket] up to its receive loop: the connection is accepted
    and its callback subscribed.  Nothing is read from the buffer. *)
Definition logs_websocket (callback : Callback) (uuid : string) (svc : LogService)
  : Await World Exn (string * LogService) :=
  ret (subscribe callback uuid svc).

End LogService.

Arguments LogService : clear implicits.
Arguments Callback : clear implicits.

(** *** The ring buffer (C6) *)

Section DequeFacts.
Context {A : Type}.
Implicit Types (d : Deque A) (l xs : list A).

Definition bounded d : Prop := (length (items d) ≤ maxlen d)%nat.

Lemma last_n_all n l : (length l ≤ n)%nat → last_n n l = l.
Proof. intros H. unfold last_n. by replace (length l - n)%nat with 0%nat by lia. Qed.

Lemma length_last_n n l : length (last_n n l) = (length l `min` n)%nat.
Proof. unfold last_n. rewrite length_drop. lia. Qed.

Lemma last_n_app n l xs : last_n n (last_n n l ++ xs) = last_n n (l ++ xs).
Proof.
  destruct (decide (length l ≤ n)%nat) as [Hle|Hgt].
  { by rewrite (last_n_all n l). }
  unfold last_n at 1 3. rewrite !length_app, length_last_n.
  replace (l ++ xs) with (take (length l - n) l ++ (last_n n l ++ xs))
    by (unfold last_n; by rewrite app_assoc, take_drop).
  rewrite (drop_app_ge (take _ l)) by (rewrite length_take; lia).
  rewrite length_take. f_equal. lia.
Qed.

Lemma append_items d x : bounded d → items (append d x) = last_n (maxlen d) (items d ++ [x]).
Proof.
  unfold bounded, append, last_n. simpl. rewrite length_app. simpl. intros H.
  destruct (Nat.ltb_spec (maxlen d) (length (items d) + 1)).
  - replace (length (items d) + 1 - maxlen d)%nat with 1%nat by lia.
    by destruct (items d ++ [x]).
  - by replace (length (items d) + 1 - maxlen d)%nat with 0%nat by lia.
Qed.

Lemma append_bounded d x : bounded d → bounded (append d x).
Proof.
  intros H. unfold bounded. rewrite append_items by done. simpl.
  rewrite length_last_n. lia.
Qed.

Lemma appends_bounded xs : ∀ d, bounded d → bounded (foldl append d xs).
Proof. induction xs as [|x xs IH]; intros d H; simpl; [done|]. by apply IH, append_bounded. Qed.

Lemma appends_maxlen xs : ∀ d, maxlen (foldl append d xs) = maxlen d.
Proof. induction xs as [|x xs IH]; intros d; simpl; [done|]. by rewrite IH. Qed.

Lemma appends_items xs : ∀ d,
  bounded d → items (foldl append d xs) = last_n (maxlen d) (items d ++ xs).
Proof.
  induction xs as [|x xs IH]; intros d H; simpl.
  - rewrite app_nil_r. by rewrite last_n_all.
  - rewrite IH by by apply append_bounded.
    rewrite append_items by done. change (maxlen (append d x)) with (maxlen d).
    by rewrite last_n_app, <- app_assoc.
Qed.

End DequeFacts.

(** *** The collector left alone (C6) *)

Section Collector.
Context {LogEntry World Exn : Type}.
Implicit Types (svc : LogService LogEntry World Exn) (w : World)
  (callback : Callback LogEntry World Exn).

Definition with_buffer (b : Deque LogEntry) svc : LogService LogEntry World Exn :=
  {| buffer := b; subscribers := subscribers svc |}.

Lemma for_each_guarded (log_entry : LogEntry) (callbacks : list (Callback LogEntry World Exn)) :
  ∀ w, for_each callbacks (fun callback => try_except (callback log_entry) (fun _ => ret tt)) w
       = (fan_out log_entry callbacks w, inl tt).
Proof.
  induction callbacks as [|callback callbacks IH]; intros w; simpl; [done|].
  unfold bind, try_except at 1.
  destruct (callback log_entry w) as [w' [[]|e]] eqn:Hcb; simpl; rewrite IH; done.
Qed.

Lemma collect_one_spec log_entry svc w :
  collect_one log_entry svc w
  = (fan_out log_entry (map snd (subscribers svc)) w,
     inl (with_buffer (append (buffer svc) log_entry) svc)).
Proof. unfold collect_one, bind. simpl. by rewrite for_each_guarded. Qed.

Lemma _collect_logs_spec stream : ∀ svc w,
  _collect_logs stream svc w
  = (foldl (fun w log_entry => fan_out log_entry (map snd (subscribers svc)) w) w stream,
     inl (with_buffer (foldl append (buffer svc) stream) svc)).
Proof.
  induction stream as [|x stream IH]; intros svc w; simpl.
  - by destruct svc.
  - unfold bind. rewrite collect_one_spec, IH. done.
Qed.

(** C6: the buffer has capacity [N] and holds at most [N] entries.  After
    the collector has received [N + M] entries, the buffer holds exactly
    the last [N] of them, oldest first, and after every prefix of the
    stream it held at most [N]. *)
Theorem C6_ring_buffer_keeps_the_last_N svc w (stream : list LogEntry) (N M : nat) :
  maxlen (buffer svc) = N →
  (length (items (buffer svc)) ≤ N)%nat →
  length stream = (N + M)%nat →
  ∃ w' svc',
    _collect_logs stream svc w = (w', inl svc')
    ∧ items (buffer svc') = drop M stream
    ∧ length (items (buffer svc')) = N
    ∧ ∀ k, ∃ w_k svc_k,
        _collect_logs (take k stream) svc w = (w_k, inl svc_k)
        ∧ (length (items (buffer svc_k)) ≤ N)%nat.
Proof.
  intros HN Hlen Hstream. rewrite _collect_logs_spec. do 2 eexists. split; [done|].
  assert (Hb : bounded (buffer svc)) by (unfold bounded; lia).
  simpl. rewrite appends_items, HN by done.
  assert (Hdrop : last_n N (items (buffer svc) ++ stream) = drop M stream).
  { unfold last_n. rewrite length_app, Hstream.
    rewrite drop_app_ge by lia. f_equal. lia. }
  rewrite Hdrop. split; [done|]. split; [rewrite length_drop; lia|].
  intros k. rewrite _collect_logs_spec. do 2 eexists. split; [done|]. simpl.
  pose proof (appends_bounded (take k stream) _ Hb) as Hk. unfold bounded in Hk.
  by rewrite appends_maxlen, HN in Hk.
Qed.

End Collector.

(** *** The subscriber table and the recent history *)

Section Subscriptions.
Context {LogEntry World Exn : Type}.
Implicit Types (svc : LogService LogEntry World Exn) (callback : Callback LogEntry World Exn).

Lemma dict_get_set {V} (k key : string) (value : V) (d : list (string * V)) :
  dict_get k (dict_set key value d)
  = if String.eqb k key then Some value else dict_get k d.
Proof.
  unfold dict_get. induction d as [|[k' v'] d IH]; simpl.
  - rewrite (String.eqb_sym key k). by destruct (String.eqb k key).
  - destruct (String.eqb_spec k' key) as [->|Hne]; simpl.
    + rewrite (String.eqb_sym key k). by destruct (String.eqb k key).
    + destruct (String.eqb_spec k' k) as [->|Hne']; simpl.
      * by destruct (String.eqb_spec k key).
      * done.
Qed.

Lemma dict_get_pop {V} (k key : string) (d : list (string * V)) :
  dict_get k (dict_pop key d) = if String.eqb k key then None else dict_get k d.
Proof.
  unfold dict_get, dict_pop. induction d as [|[k' v'] d IH]; simpl.
  - by destruct (String.eqb k key).
  - destruct (String.eqb_spec k' key) as [->|Hne]; simpl.
    + rewrite IH. rewrite (String.eqb_sym key k). by destruct (String.eqb k key).
    + destruct (String.eqb_spec k' k) as [->|Hne']; simpl; [|done].
      by destruct (String.eqb_spec k key).
Qed.

Lemma dict_pop_absent {V} (key : string) (d : list (string * V)) :
  dict_get key d = None → dict_pop key d = d.
Proof.
  unfold dict_get, dict_pop. induction d as [|[k' v'] d IH]; simpl; [done|].
  destruct (String.eqb k' key); simpl; [done|]. intros H. by rewrite IH.
Qed.

Lemma dict_pop_set {V} (key : string) (value : V) (d : list (string * V)) :
  dict_pop key (dict_set key value d) = dict_pop key d.
Proof.
  unfold dict_pop. induction d as [|[k' v'] d IH]; simpl.
  - by rewrite String.eqb_refl.
  - destruct (String.eqb k' key) eqn:Hk; simpl; rewrite Hk; simpl; [done|]. by rewrite IH.
Qed.

Lemma dict_pop_twice {V} (key : string) (d : list (string * V)) :
  dict_pop key (dict_pop key d) = dict_pop key d.
Proof.
  unfold dict_pop. induction d as [|[k' v'] d IH]; simpl; [done|].
  destruct (String.eqb k' key) eqn:Hk; simpl; [done|]. rewrite Hk. simpl. by rewrite IH.
Qed.

Lemma dict_set_keys {V} (key : string) (value : V) (d : list (string * V)) :
  map fst (dict_set key value d)
  = if bool_decide (key ∈ map fst d) then map fst d else map fst d ++ [key].
Proof.
  induction d as [|[k' v'] d IH]; simpl; [done|].
  destruct (String.eqb_spec k' key) as [->|Hne]; simpl.
  - rewrite bool_decide_eq_true_2; [done|]. by left.
  - rewrite IH. case_bool_decide as Hin.
    + rewrite bool_decide_eq_true_2; [done|]. by right.
    + rewrite bool_decide_eq_false_2; [done|]. rewrite not_elem_of_cons. by split.
Qed.

Lemma dict_pop_keys {V} (key : string) (d : list (string * V)) :
  map fst (dict_pop key d) = List.filter (fun k => negb (String.eqb k key)) (map fst d).
Proof.
  unfold dict_pop. induction d as [|[k' v'] d IH]; simpl; [done|].
  destruct (String.eqb k' key); simpl; by rewrite IH.
Qed.

(** X9: The subscriber table behaves as the dictionary it is.  After
    [subscribe] the identifier is bound to the callback and after
    [unsubscribe] to nothing, the other identifiers are bound as before,
    and neither touches the buffer; a table without two entries under one
    identifier stays so; and [unsubscribe] can be repeated, with or
    without a [subscribe] before it, to the same effect. *)
Theorem subscribers_are_a_dictionary svc callback (uuid k : string) :
  dict_get k (subscribers (subscribe callback uuid svc).2)
  = (if String.eqb k uuid then Some callback else dict_get k (subscribers svc))
  ∧ dict_get k (subscribers (unsubscribe uuid svc))
    = (if String.eqb k uuid then None else dict_get k (subscribers svc))
  ∧ buffer (subscribe callback uuid svc).2 = buffer svc
  ∧ buffer (unsubscribe uuid svc) = buffer svc
  ∧ (NoDup (map fst (subscribers svc)) →
     NoDup (map fst (subscribers (subscribe callback uuid svc).2))
     ∧ NoDup (map fst (subscribers (unsubscribe uuid svc))))
  ∧ unsubscribe uuid (unsubscribe uuid svc) = unsubscribe uuid svc
  ∧ unsubscribe uuid (subscribe callback uuid svc).2 = unsubscribe uuid svc.
Proof.
  simpl. split; [apply dict_get_set|]. split; [apply dict_get_pop|].
  split; [done|]. split; [done|]. split; [|split].
  - intros Hnd. split.
    + rewrite dict_set_keys. case_bool_decide as Hin; [done|].
      apply NoDup_app. split; [done|]. split; [|apply NoDup_singleton].
      intros x Hx Hx'%list_elem_of_singleton. by rewrite Hx' in Hx.
    + rewrite dict_pop_keys. by apply NoDup_ListNoDup, List.NoDup_filter, NoDup_ListNoDup.
  - unfold unsubscribe. simpl. by rewrite dict_pop_twice.
  - unfold unsubscribe. simpl. by rewrite dict_pop_set.
Qed.


(** X11: [get_recent(count)] after the collector has gone through a stream,
    starting from an empty service: the buffer holds the last thousand
    entries of the stream, and a positive [count] gives the last [count]
    of these, all of them when there are fewer.  With [count = 0] the
    slice [[-0:]] is the whole buffer, not the empty list, and with a
    negative [count] it is the buffer without its first [-count] entries. *)
Theorem get_recent_after_collecting (stream : list LogEntry) (count : Z) (w : World) :
  ∃ w' svc',
    _collect_logs stream (__init__ : LogService LogEntry World Exn) w = (w', inl svc')
    ∧ items (buffer svc') = last_n 1000 stream
    ∧ get_recent count svc'
      = if 0 <? count then last_n (Z.to_nat count `min` 1000) stream
        else if count =? 0 then last_n 1000 stream
        else drop (Z.to_nat (- count)) (last_n 1000 stream).
Proof.
  rewrite _collect_logs_spec. do 2 eexists. split; [done|]. simpl.
  assert (Hitems : items (foldl append (deque 1000) stream) = last_n 1000 stream).
  { rewrite appends_items by (unfold bounded; simpl; lia). done. }
  split; [done|]. unfold get_recent. simpl. rewrite Hitems. unfold slice_from.
  destruct (Z.ltb_spec 0 count) as [Hpos|Hnonpos].
  - rewrite (proj2 (Z.ltb_lt (- count) 0)) by lia.
    unfold last_n. rewrite length_drop, drop_drop. f_equal. lia.
  - destruct (Z.eqb_spec count 0) as [->|Hne]; simpl; [done|].
    rewrite (proj2 (Z.ltb_ge (- count) 0)) by lia. done.
Qed.

End Subscriptions.

(** *** A buffer of three, and a client that connects *)

Module Scenario.

(** A sink that records what it is given. *)
Definition to_sink : Callback string (list string) string :=
  fun log_entry w => (w ++ [log_entry], inl tt).

Definition small : LogService string unit string :=
  {| buffer := deque 3; subscribers := [] |}.

Example default_capacity :
  maxlen (buffer (__init__ : LogService string unit string)) = 1000%nat.
Proof. reflexivity. Qed.

Example small_buffer_run :
  snd (_collect_logs ["A"; "B"; "C"; "D"] small ())
  = inl {| buffer := {| maxlen := 3; items := ["B"; "C"; "D"] |}; subscribers := [] |}.
Proof. reflexivity. Qed.

Lemma C6_small_buffer_witness :
  ∃ w' svc',
    _collect_logs ["A"; "B"; "C"; "D"] small () = (w', inl svc')
    ∧ items (buffer svc') = drop 1 ["A"; "B"; "C"; "D"]
    ∧ length (items (buffer svc')) = 3%nat
    ∧ ∀ k, ∃ w_k svc_k,
        _collect_logs (take k ["A"; "B"; "C"; "D"]) small () = (w_k, inl svc_k)
        ∧ (length (items (buffer svc_k)) ≤ 3)%nat.
Proof.
  apply (C6_ring_buffer_keeps_the_last_N small () ["A"; "B"; "C"; "D"] 3 1).
  - reflexivity.
  - simpl. lia.
  - reflexivity.
Defined.

(** Three entries are in the buffer when a client connects. *)
Definition warm : LogService string (list string) string :=
  {| buffer := {| maxlen := 1000; items := ["B"; "C"; "D"] |}; subscribers := [] |}.

(** The backlog the specification describes for a new subscription: the
    tail of the buffer, filtered by the subscription's filter and capped
    at the replay size. *)
Definition spec_backlog {World Exn} (keep : string → bool) (replay : nat)
    (svc : LogService string World Exn) : list string :=
  last_n replay (List.filter keep (items (buffer svc))).

(** C3 fails on the code: a client connects to a service with three
    entries in its buffer.  [logs_websocket] subscribes its callback and
    sends it nothing, although [get_recent], which its docstring says is
    for new connections, would give the three entries, the backlog of
    the specification for a filter that lets everything through. *)
Theorem C3_connecting_replays_nothing :
  logs_websocket to_sink "sub-1" warm []
  = ([], inl ("sub-1", {| buffer := buffer warm; subscribers := [("sub-1", to_sink)] |}))
  ∧ get_recent 100 warm = ["B"; "C"; "D"]
  ∧ spec_backlog (fun _ => true) 100 warm = ["B"; "C"; "D"].
Proof. repeat split. Qed.

Example recent_entries :
  get_recent 2 warm = ["C"; "D"] ∧ get_recent 0 warm = ["B"; "C"; "D"].
Proof. split; reflexivity. Qed.

(** A second client comes and goes while a first one stays. *)
Definition one_client : LogService string (list string) string :=
  snd (subscribe to_sink "sub-1" warm).


End Scenario.

End Logs.

(** ** The collector among the other tasks *)

Module CollectorTask.

Section Loop.
Context {LogEntry World Exn : Type}.

(** What [await callback(log_entry)] comes to: the callback returns or
    raises, leaving the world changed, or its await never completes (a
    sink that does not accept), which [None] stands for. *)
Definition Sink : Type := LogEntry → World → option (World * (unit + Exn)).

(** A callback that always completes. *)
Definition completing (callback : Logs.Callback LogEntry World Exn) : Sink :=
  fun log_entry w => Some (callback log_entry w).

(** The iterator of [self.subscribers.values()]: the number of entries of
    the dictionary when the iterator was made, how many values it has
    given, and (a ghost) the count of key changes at that time. *)
Record valuesiter := { di_used : nat; di_pos : nat; di_made : nat }.

(** How [_collect_logs] can end: its stream ends or raises, or the [for]
    over the dictionary raises a [RuntimeError]. *)
Inductive ending :=
| StreamEnded
| StreamRaised (e : Exn)
| RuntimeError (message : string).

(** Where [_collect_logs] stands: suspended in the [async for], suspended
    in [await callback(log_entry)] inside the [for], or ended. *)
Inductive collector :=
| Receiving
| Awaiting (log_entry : LogEntry) (it : valuesiter) (callback : Sink)
| Ended (why : ending).

(** The service with its collector task.  [subscribers] is the
    dictionary as a list in insertion order; [changes] (a ghost) counts the
    insertions and deletions of keys it has seen. *)
Record Loop := {
  buffer : Logs.Deque LogEntry;
  subscribers : list (string * Sink);
  changes : nat;
  world : World;
  task : collector
}.

Definition set_task (t : collector) (st : Loop) : Loop :=
  {| buffer := buffer st; subscribers := subscribers st; changes := changes st;
     world := world st; task := t |}.

Definition set_world (w : World) (st : Loop) : Loop :=
  {| buffer := buffer st; subscribers := subscribers st; changes := changes st;
     world := w; task := task st |}.

(** [self.subscribers[sub_id] = callback] and
    [self.subscribers.pop(sub_id, None)], run by another task. *)
Definition subscribe (callback : Sink) (uuid : string) (st : Loop) : Loop :=
  {| buffer := buffer st;
     subscribers := Logs.dict_set uuid callback (subscribers st);
     changes := match Logs.dict_get uuid (subscribers st) with
                | None => S (changes st)
                | Some _ => changes st
                end;
     world := world st; task := task st |}.

Definition unsubscribe (sub_id : string) (st : Loop) : Loop :=
  {| buffer := buffer st;
     subscribers := Logs.dict_pop sub_id (subscribers st);
     changes := match Logs.dict_get sub_id (subscribers st) with
                | None => changes st
                | Some _ => S (changes st)
                end;
     world := world st; task := task st |}.

(** [iter(self.subscribers.values())] *)
Definition iter (st : Loop) : valuesiter :=
  {| di_used := length (subscribers st); di_pos := 0; di_made := changes st |}.

(** One [next] of the iterator.  If the dictionary has another number of
    entries than when the iterator was made, it raises; if no key has been
    inserted or deleted since, it gives the values in insertion order.
    If keys have changed but not their number, what it gives depends on
    where the dictionary keeps its entries, which Python leaves open. *)
Inductive fetched :=
| Value (callback : Sink) (it : valuesiter)
| StopIteration
| Raises (message : string)
| Unspecified.

Definition next (it : valuesiter) (st : Loop) : fetched :=
  if negb (di_used it =? length (subscribers st))%nat then
    Raises "dictionary changed size during iteration"
  else if (di_made it =? changes st)%nat then
    match subscribers st !! di_pos it with
    | Some (_, callback) =>
        Value callback {| di_used := di_used it; di_pos := S (di_pos it);
                          di_made := di_made it |}
    | None => StopIteration
    end
  else Unspecified.

(** What the iterator does in the case left open: it gives the value
    stored under some key, it stops, or it raises. *)
Inductive resumption :=
| At (sub_id : string)
| AtEnd
| Failing (message : string).

(** The [for] statement takes its next value: the collector awaits the
    next callback, leaves the [for] for the [async for], or ends with the
    [RuntimeError], which nothing catches. *)
Definition advance (log_entry : LogEntry) (it : valuesiter) (how : option resumption)
    (st : Loop) : option Loop :=
  match next it st, how with
  | Value callback it', None => Some (set_task (Awaiting log_entry it' callback) st)
  | StopIteration, None => Some (set_task Receiving st)
  | Raises message, None => Some (set_task (Ended (RuntimeError message)) st)
  | Unspecified, Some (At sub_id) =>
      match Logs.dict_get sub_id (subscribers st) with
      | Some callback => Some (set_task (Awaiting log_entry it callback) st)
      | None => None
      end
  | Unspecified, Some AtEnd => Some (set_task Receiving st)
  | Unspecified, Some (Failing message) =>
      Some (set_task (Ended (RuntimeError message)) st)
  | _, _ => None
  end.

(** What can happen next.  The collector is suspended whenever another
    task runs, so [Subscribe] and [Unsubscribe] can come at any time. *)
Inductive action :=
| Entry (log_entry : LogEntry)           (* the stream yields an entry *)
| Close (e : option Exn)                 (* the stream ends, or raises *)
| Done                                   (* the awaited callback completes *)
| DoneRearranged (how : resumption)      (* the same, in the case left open *)
| Subscribe (callback : Sink) (uuid : string)
| Unsubscribe (sub_id : string).

(** The awaited callback completes: [try: await callback(log_entry)
    except: pass], then the [for] goes on. *)
Definition resume (how : option resumption) (st : Loop) : option Loop :=
  match task st with
  | Awaiting log_entry it callback =>
      match callback log_entry (world st) with
      | Some (w, _) => advance log_entry it how (set_world w st)
      | None => None
      end
  | _ => None
  end.

Definition step (a : action) (st : Loop) : option Loop :=
  match a with
  | Entry log_entry =>
      match task st with
      | Receiving =>
          let st' := {| buffer := Logs.append (buffer st) log_entry;
                        subscribers := subscribers st; changes := changes st;
                        world := world st; task := Receiving |} in
          advance log_entry (iter st') None st'
      | _ => None
      end
  | Close e =>
      match task st with
      | Receiving =>
          Some (set_task (Ended (match e with
                                 | None => StreamEnded
                                 | Some e => StreamRaised e
                                 end)) st)
      | _ => None
      end
  | Done => resume None st
  | DoneRearranged how => resume (Some how) st
  | Subscribe callback uuid => Some (subscribe callback uuid st)
  | Unsubscribe sub_id => Some (unsubscribe sub_id st)
  end.

Fixpoint run (acts : list action) (st : Loop) : option Loop :=
  match acts with
  | [] => Some st
  | a :: acts' =>
      match step a st with
      | Some st' => run acts' st'
      | None => None
      end
  end.

(** What the world is after the sinks have been awaited in turn, if they
    all complete; whether a sink returns or raises makes no difference. *)
Fixpoint pass (log_entry : LogEntry) (sinks : list Sink) (w : World) : option World :=
  match sinks with
  | [] => Some w
  | sink :: sinks' =>
      match sink log_entry w with
      | Some (w', _) => pass log_entry sinks' w'
      | None => None
      end
  end.

(** The collector has taken [log_entry], the first [k] callbacks have
    completed and left the world [w], and nothing else has happened. *)
Definition fanning (log_entry : LogEntry) (k : nat) (w : World) (st : Loop) : Loop :=
  {| buffer := Logs.append (buffer st) log_entry;
     subscribers := subscribers st; changes := changes st; world := w;
     task := match subscribers st !! k with
             | Some (_, callback) =>
                 Awaiting log_entry
                   {| di_used := length (subscribers st); di_pos := S k;
                      di_made := changes st |} callback
             | None => Receiving
             end |}.

End Loop.

Arguments Sink : clear implicits.
Arguments valuesiter : clear implicits.
Arguments ending : clear implicits.
Arguments collector : clear implicits.
Arguments Loop : clear implicits.
Arguments fetched : clear implicits.
Arguments action : clear implicits.

(** *** One record through the subscribers (C7) *)

Section Fanout.
Context {LogEntry World Exn : Type}.
Implicit Types (st : Loop LogEntry World Exn) (w : World) (sink : Sink LogEntry World Exn).

Lemma collector_run_app (acts1 acts2 : list (action LogEntry World Exn)) st :
  run (acts1 ++ acts2) st = run acts1 st ≫= run acts2.
Proof.
  revert st. induction acts1 as [|a acts1 IH]; intros st; simpl; [done|].
  destruct (step a st); simpl; [apply IH | done].
Qed.

Lemma pass_app (log_entry : LogEntry) (sinks1 sinks2 : list (Sink LogEntry World Exn)) w :
  pass log_entry (sinks1 ++ sinks2) w = pass log_entry sinks1 w ≫= pass log_entry sinks2.
Proof.
  revert w. induction sinks1 as [|sink sinks1 IH]; intros w; simpl; [done|].
  destruct (sink log_entry w) as [[w' r]|]; [apply IH|done].
Qed.

Lemma step_entry (log_entry : LogEntry) st :
  task st = Receiving →
  step (Entry log_entry) st = Some (fanning log_entry 0 (world st) st).
Proof.
  intros Hready. simpl. rewrite Hready. unfold advance, next, iter, fanning. simpl.
  rewrite !Nat.eqb_refl. simpl.
  by destruct (subscribers st) as [|[sub_id callback] subs].
Qed.

Lemma step_done (log_entry : LogEntry) st k sub_id sink w w' r :
  subscribers st !! k = Some (sub_id, sink) →
  sink log_entry w = Some (w', r) →
  step Done (fanning log_entry k w st) = Some (fanning log_entry (S k) w' st).
Proof.
  intros Hk Hsink. simpl. unfold resume, fanning at 1. simpl. rewrite Hk, Hsink.
  unfold advance, next, fanning. simpl. rewrite !Nat.eqb_refl. simpl.
  by destruct (subscribers st !! S k) as [[sub_id' callback]|].
Qed.

(** The fan-out of one record when nothing interferes: after [k]
    completions the collector awaits the callback in position [k], or is
    back in the [async for] when there is none. *)
Lemma fanout_alone (log_entry : LogEntry) st : ∀ k w,
  task st = Receiving → (k ≤ length (subscribers st))%nat →
  pass log_entry (map snd (take k (subscribers st))) (world st) = Some w →
  run (Entry log_entry :: replicate k Done) st = Some (fanning log_entry k w st).
Proof.
  intros k w Hready. revert w. induction k as [|k IH]; intros w Hk Hpass.
  - simpl in Hpass. injection Hpass as <-. cbn [replicate run].
    by rewrite (step_entry _ _ Hready).
  - destruct (lookup_lt_is_Some_2 (subscribers st) k) as [[sub_id sink] Hsub]; [lia|].
    rewrite (take_S_r _ _ _ Hsub), map_app, pass_app in Hpass. simpl in Hpass.
    destruct (pass log_entry (map snd (take k (subscribers st))) (world st)) as [w0|] eqn:Hw0;
      [|done].
    simpl in Hpass. destruct (sink log_entry w0) as [[w1 r]|] eqn:Hsink; [|done].
    injection Hpass as <-.
    rewrite replicate_S_end, app_comm_cons, collector_run_app, (IH w0) by (done || lia).
    cbn [mbind option_bind run]. by rewrite (step_done _ _ _ _ _ _ _ _ Hsub Hsink).
Qed.

(** While the awaited callback does not complete, the collector stays
    where it is, whatever the other tasks do. *)
Lemma held (acts : list (action LogEntry World Exn)) : ∀ st st' log_entry it sink,
  task st = Awaiting log_entry it sink → sink log_entry (world st) = None →
  run acts st = Some st' →
  world st' = world st ∧ buffer st' = buffer st ∧ task st' = task st.
Proof.
  induction acts as [|a acts IH]; intros st st' log_entry it sink Htask Hsink; simpl.
  { by intros [= <-]. }
  destruct (step a st) as [st1|] eqn:Hstep; [|done]. intros Hrun.
  assert (world st1 = world st ∧ buffer st1 = buffer st ∧ task st1 = task st)
    as (Hw & Hb & Ht).
  { destruct a as [e|e| |how|callback uuid|sub_id]; simpl in Hstep.
    - by rewrite Htask in Hstep.
    - by rewrite Htask in Hstep.
    - unfold resume in Hstep. by rewrite Htask, Hsink in Hstep.
    - unfold resume in Hstep. by rewrite Htask, Hsink in Hstep.
    - by injection Hstep as <-.
    - by injection Hstep as <-. }
  rewrite <- Hw, <- Hb, <- Ht. eapply IH; [| |done].
  - by rewrite Ht.
  - by rewrite Hw.
Qed.

(** Once the collector has ended it takes no record and awaits no
    callback any more. *)
Lemma ended (acts : list (action LogEntry World Exn)) : ∀ st st' why,
  task st = Ended why → run acts st = Some st' →
  world st' = world st ∧ buffer st' = buffer st ∧ task st' = Ended why.
Proof.
  induction acts as [|a acts IH]; intros st st' why Htask; simpl.
  { by intros [= <-]. }
  destruct (step a st) as [st1|] eqn:Hstep; [|done]. intros Hrun.
  assert (world st1 = world st ∧ buffer st1 = buffer st ∧ task st1 = Ended why)
    as (Hw & Hb & Ht).
  { destruct a as [e|e| |how|callback uuid|sub_id]; simpl in Hstep.
    - by rewrite Htask in Hstep.
    - by rewrite Htask in Hstep.
    - unfold resume in Hstep. by rewrite Htask in Hstep.
    - unfold resume in Hstep. by rewrite Htask in Hstep.
    - by injection Hstep as <-.
    - by injection Hstep as <-. }
  rewrite <- Hw, <- Hb. by apply (IH st1).
Qed.

(** C7, as the code has it.  The collector takes a record while it waits
    in its [async for], and no subscription is added or removed while the
    record goes round.

    - The callback of every subscription is awaited on the record as soon
      as the callbacks before it have completed, whether they returned or
      raised.  If its own await does not complete (a sink that cannot
      accept the record), the collector stays at that await whatever the
      other tasks do: no later subscription is given the record and no
      further record is taken into the buffer.
    - A callback that raises (a sink that fails) loses the record for its
      own subscription only: the exception is swallowed and the collector
      goes on to the next subscription.  The state it goes on from holds
      what the callback left of the world, the record in the buffer and
      the table as it was, and nothing else: no counter of lost records.
    - When all callbacks have completed, the collector waits for the next
      record, with this one in the buffer and the table as it was. *)
Theorem C7_failing_sink_is_skipped st (log_entry : LogEntry) :
  task st = Receiving →
  (∀ k sub_id sink w,
     subscribers st !! k = Some (sub_id, sink) →
     pass log_entry (map snd (take k (subscribers st))) (world st) = Some w →
     ∃ st' it,
       run (Entry log_entry :: replicate k Done) st = Some st'
       ∧ task st' = Awaiting log_entry it sink ∧ world st' = w
       ∧ (sink log_entry w = None →
          ∀ acts st'', run acts st' = Some st'' →
            world st'' = w ∧ buffer st'' = Logs.append (buffer st) log_entry
            ∧ task st'' = Awaiting log_entry it sink))
  ∧ (∀ k sub_id sink w w' e,
       subscribers st !! k = Some (sub_id, sink) →
       pass log_entry (map snd (take k (subscribers st))) (world st) = Some w →
       sink log_entry w = Some (w', inr e) →
       run (Entry log_entry :: replicate (S k) Done) st
       = Some (fanning log_entry (S k) w' st))
  ∧ (∀ w, pass log_entry (map snd (subscribers st)) (world st) = Some w →
       run (Entry log_entry :: replicate (length (subscribers st)) Done) st
       = Some {| buffer := Logs.append (buffer st) log_entry;
                 subscribers := subscribers st; changes := changes st;
                 world := w; task := Receiving |}).
Proof.
  intros Hready. split; [|split].
  - intros k sub_id sink w Hsub Hpass.
    pose proof (fanout_alone log_entry st k w Hready) as Hrun.
    rewrite Hrun by (done || by apply Nat.lt_le_incl, (lookup_lt_Some _ _ _ Hsub)).
    set (it := {| di_used := length (subscribers st); di_pos := S k;
                  di_made := changes st |}).
    assert (Htask : task (fanning log_entry k w st) = Awaiting log_entry it sink).
    { unfold fanning. simpl. by rewrite Hsub. }
    exists (fanning log_entry k w st), it. split; [done|].
    split; [done|]. split; [done|]. intros Hsink acts st'' Hrun'.
    destruct (held acts _ _ _ _ _ Htask Hsink Hrun') as (Hw & Hb & Ht).
    by rewrite Hw, Hb, Ht.
  - intros k sub_id sink w w' e Hsub Hpass Hsink.
    apply (fanout_alone log_entry st (S k) w' Hready).
    + apply (lookup_lt_Some _ _ _ Hsub).
    + rewrite (take_S_r _ _ _ Hsub), map_app, pass_app, Hpass. simpl. by rewrite Hsink.
  - intros w Hpass.
    rewrite (fanout_alone log_entry st (length (subscribers st)) w Hready);
      [|done|by rewrite firstn_all].
    unfold fanning. by rewrite lookup_ge_None_2.
Qed.

(** Left alone and with callbacks that complete, the collector does what
    [Logs.collect_one] says. *)
Definition alone (svc : Logs.LogService LogEntry World Exn) (seen : nat) (w : World)
  : Loop LogEntry World Exn :=
  {| buffer := Logs.buffer svc;
     subscribers := map (fun kc => (fst kc, completing (snd kc))) (Logs.subscribers svc);
     changes := seen; world := w; task := Receiving |}.

Lemma pass_completing (log_entry : LogEntry)
    (callbacks : list (string * Logs.Callback LogEntry World Exn)) : ∀ w,
  pass log_entry (map snd (map (fun kc => (fst kc, completing (snd kc))) callbacks)) w
  = Some (Logs.fan_out log_entry (map snd callbacks) w).
Proof.
  induction callbacks as [|[sub_id callback] callbacks IH]; intros w; simpl; [done|].
  unfold completing at 1. destruct (callback log_entry w) as [w' r] eqn:Hcb.
  simpl. apply IH.
Qed.

Lemma alone_is_collect_one (svc : Logs.LogService LogEntry World Exn) seen w
    (log_entry : LogEntry) :
  ∃ w' svc',
    Logs.collect_one log_entry svc w = (w', inl svc')
    ∧ run (Entry log_entry :: replicate (length (Logs.subscribers svc)) Done)
        (alone svc seen w)
      = Some (alone svc' seen w').
Proof.
  rewrite Logs.collect_one_spec. do 2 eexists. split; [done|].
  set (subs := map (fun kc => (fst kc, completing (snd kc))) (Logs.subscribers svc)).
  assert (Hlen : length (Logs.subscribers svc) = length subs)
    by (unfold subs; by rewrite length_map).
  rewrite Hlen.
  rewrite (fanout_alone log_entry (alone svc seen w) (length subs)
             (Logs.fan_out log_entry (map snd (Logs.subscribers svc)) w)); try done.
  - unfold fanning, alone. simpl. fold subs. by rewrite lookup_ge_None_2.
  - simpl. fold subs. rewrite firstn_all. apply pass_completing.
Qed.

End Fanout.

(** *** Connections and their filters (C2) *)

(** Modelled from the spec: the severities, in their order. *)
Inductive Severity := DEBUG | INFO | WARN | ERROR | FATAL.

Definition rank (l : Severity) : nat :=
  match l with DEBUG => 10 | INFO => 20 | WARN => 30 | ERROR => 40 | FATAL => 50 end.

(** Modelled from the spec: a log record. *)
Record LogRecord := {
  timestamp : Z;
  sourceName : string;
  level : Severity;
  message : string
}.

(** What [logs_websocket] holds for one connection: its socket, and the
    variables [node_patterns] and [log_levels], set from the query
    ([nodes.split(",") if nodes else None], the same for [level]) and set
    again by [update_filter].  The callback reads them when it is called. *)
Record Connection := {
  websocket : string;
  node_patterns : option (list string);
  log_levels : option (list string)
}.

(** The world of the WebSocket callbacks: what has been sent on which
    socket, the sockets that are closed, and the sockets whose client has
    stopped reading. *)
Record Sockets := {
  sent : list (string * LogRecord);
  closed : list string;
  stalled : list string
}.

Inductive SendError := Disconnected.

(** Modelled from the spec: the sink of a subscription, here
    [await websocket.send_json(msg)]: it does not complete on a socket
    whose client has stopped reading, raises on a closed socket, and sends
    otherwise. *)
Definition send_json (websocket : string) (msg : LogRecord)
  : Sockets → option (Sockets * (unit + SendError)) :=
  fun w =>
    if bool_decide (websocket ∈ stalled w) then None
    else if bool_decide (websocket ∈ closed w) then Some (w, inr Disconnected)
    else Some ({| sent := sent w ++ [(websocket, msg)]; closed := closed w;
                  stalled := stalled w |}, inl tt).

(** The records sent on a socket, in order. *)
Definition received (websocket : string) (w : Sockets) : list LogRecord :=
  map snd (List.filter (fun m => String.eqb (fst m) websocket) (sent w)).

Section Connections.
(** Modelled from the spec: the wildcard match of a pattern against a
    source name, which the specification names without defining. *)
Variable wildcard_matches : string → string → bool.

(** Modelled from the spec: the minimum level of a subscription.  The
    connection holds a list of level names, or [None]; which floor they
    stand for is in [send_if_matches], which the sources do not define. *)
Variable minimum_level : option (list string) → Severity.

(** Modelled from the spec: the name patterns of a subscription are those
    of its connection, none when it has [None]. *)
Definition namePatterns (c : Connection) : list string := default [] (node_patterns c).

Definition minLevel (c : Connection) : Severity := minimum_level (log_levels c).

(** Modelled from the spec: "[namePatterns] empty matches every source; a
    non-empty set matches if the record's source starts with or
    wildcard-matches any pattern in the set". *)
Definition nameMatches (source : string) (patterns : list string) : bool :=
  match patterns with
  | [] => true
  | _ => existsb (fun p => String.prefix p source || wildcard_matches p source) patterns
  end.

(** Modelled from the spec: [send_if_matches(websocket, msg, node_patterns,
    log_levels)], which the sources call and do not define: it sends the
    record when
    [nameMatches(record.sourceName, patterns) AND record.level >= minLevel]
    and does nothing otherwise. *)
Definition send_if_matches (websocket : string) (msg : LogRecord)
    (node_patterns log_levels : option (list string))
  : Sockets → option (Sockets * (unit + SendError)) :=
  if nameMatches (sourceName msg) (default [] node_patterns)
     && (rank (minimum_level log_levels) <=? rank (level msg))%nat
  then send_json websocket msg
  else fun w => Some (w, inl tt).

(** The callback of [logs_websocket]:
    [lambda msg: send_if_matches(websocket, msg, node_patterns, log_levels)]. *)
Definition ws_callback (c : Connection) : Sink LogRecord Sockets SendError :=
  fun msg => send_if_matches (websocket c) msg (node_patterns c) (log_levels c).

(** The subscriber table of the connections [conns], each under its
    subscription id. *)
Definition serving (conns : list (string * Connection))
  : list (string * Sink LogRecord Sockets SendError) :=
  map (fun ic => (fst ic, ws_callback (snd ic))) conns.

Definition matches (c : Connection) (record : LogRecord) : bool :=
  nameMatches (sourceName record) (namePatterns c)
  && (rank (minLevel c) <=? rank (level record))%nat.

(** What one connection adds to the sent messages for [record]. *)
Definition delivery (w : Sockets) (record : LogRecord) (ic : string * Connection)
  : list (string * LogRecord) :=
  if matches (snd ic) record && negb (bool_decide (websocket (snd ic) ∈ closed w))
  then [(websocket (snd ic), record)] else [].

Lemma pass_sockets record (conns : list (string * Connection)) : ∀ w,
  (∀ ic, ic ∈ conns → websocket (snd ic) ∉ stalled w) →
  pass record (map snd (serving conns)) w
  = Some {| sent := sent w ++ flat_map (delivery w record) conns;
            closed := closed w; stalled := stalled w |}.
Proof.
  induction conns as [|[sub_id c] conns IH]; intros w Hgo; simpl.
  - rewrite app_nil_r. by destruct w.
  - assert (websocket c ∉ stalled w) as Hc by (apply (Hgo (sub_id, c)); left).
    assert (∀ ic, ic ∈ conns → websocket ic.2 ∉ stalled w) as Hrest
      by (intros ic Hic; apply Hgo; by right).
    unfold ws_callback at 1, send_if_matches, send_json, delivery at 1, matches,
      namePatterns, minLevel. simpl.
    destruct (nameMatches _ _ && _); simpl.
    + rewrite (bool_decide_eq_false_2 _ Hc). case_bool_decide; simpl.
      * by rewrite IH.
      * rewrite IH by done. simpl. by rewrite <- app_assoc.
    + by rewrite IH.
Qed.

Lemma received_app websocket w ms :
  received websocket {| sent := sent w ++ ms; closed := closed w; stalled := stalled w |}
  = received websocket w ++ map snd (List.filter (fun m => String.eqb (fst m) websocket) ms).
Proof. unfold received. simpl. by rewrite List.filter_app, map_app. Qed.

Lemma delivery_elsewhere w record websocket' (conns : list (string * Connection)) :
  websocket' ∉ map (fun ic => websocket (snd ic)) conns →
  List.filter (fun m => String.eqb (fst m) websocket') (flat_map (delivery w record) conns) = [].
Proof.
  induction conns as [|ic conns IH]; simpl; [done|].
  rewrite not_elem_of_cons. intros [Hne Hnin].
  rewrite List.filter_app, IH by done. rewrite app_nil_r.
  unfold delivery. destruct (_ && _); [|done]. simpl.
  destruct (String.eqb_spec (websocket ic.2) websocket'); [congruence|done].
Qed.

Lemma delivery_here w record (conns : list (string * Connection)) ic :
  NoDup (map (fun ic => websocket (snd ic)) conns) → ic ∈ conns →
  List.filter (fun m => String.eqb (fst m) (websocket (snd ic)))
    (flat_map (delivery w record) conns)
  = delivery w record ic.
Proof.
  induction conns as [|ic' conns IH]; simpl.
  - by intros _ ?%elem_of_nil.
  - rewrite NoDup_cons, elem_of_cons. intros [Hnin Hnd] [->|Hin].
    + rewrite List.filter_app, delivery_elsewhere, app_nil_r by done.
      unfold delivery. destruct (_ && _); [|done]. simpl. by rewrite String.eqb_refl.
    + rewrite List.filter_app, IH by done.
      assert (websocket ic'.2 ≠ websocket ic.2) as Hne.
      { intros Heq. apply Hnin. rewrite Heq.
        apply (list_elem_of_fmap_2 (fun ic => websocket ic.2)), Hin. }
      unfold delivery at 1. destruct (_ && _); [|done]. simpl.
      destruct (String.eqb_spec (websocket ic'.2) (websocket ic.2)); [congruence|done].
Qed.

Lemma nameMatches_spec source patterns :
  nameMatches source patterns = true
  ↔ patterns = [] ∨ ∃ p, p ∈ patterns
                         ∧ (String.prefix p source = true ∨ wildcard_matches p source = true).
Proof.
  unfold nameMatches. destruct patterns as [|p0 ps]; [by split; [left|]|].
  rewrite existsb_exists. split.
  - intros (p & Hin & Hp). right. exists p. rewrite list_elem_of_In.
    by apply orb_true_iff in Hp.
  - intros [[=]|(p & Hin & Hp)]. exists p. rewrite <- list_elem_of_In.
    by rewrite orb_true_iff.
Qed.


End Connections.

(** *** Scenarios *)

Module Scenario.

(** Sinks that write what they are given to a list: one that accepts, one
    that fails, and one that does not take the record. *)
Definition accepting : Sink string (list string) string :=
  fun log_entry w => Some (w ++ [log_entry], inl tt).

Definition failing : Sink string (list string) string :=
  fun _ w => Some (w, inr "connection closed").

Definition blocked : Sink string (list string) string :=
  fun _ _ => None.

Definition failing_first : Loop string (list string) string :=
  {| buffer := Logs.deque 3;
     subscribers := [("sub-1", failing); ("sub-2", accepting)];
     changes := 0; world := []; task := Receiving |}.

Lemma C7_failing_first_witness :
  run [Entry "tick"; Done; Done] failing_first
  = Some {| buffer := {| Logs.maxlen := 3; Logs.items := ["tick"] |};
            subscribers := [("sub-1", failing); ("sub-2", accepting)];
            changes := 0; world := ["tick"]; task := Receiving |}.
Proof.
  destruct (C7_failing_sink_is_skipped failing_first "tick" eq_refl) as (_ & _ & Hall).
  exact (Hall ["tick"] eq_refl).
Defined.

(** A full buffer of identical entries, and one subscriber whose sink
    fails. *)
Definition saturated : Loop string (list string) string :=
  {| buffer := {| Logs.maxlen := 1000; Logs.items := replicate 1000 "tick" |};
     subscribers := [("sub-1", failing)];
     changes := 0; world := []; task := Receiving |}.

Lemma saturated_unchanged : run [Entry "tick"; Done] saturated = Some saturated.
Proof. vm_compute. reflexivity. Qed.

Definition blocked_first : Loop string (list string) string :=
  {| buffer := Logs.deque 3;
     subscribers := [("sub-1", blocked); ("sub-2", accepting)];
     changes := 0; world := []; task := Receiving |}.

(** The first connection has unsubscribed while its callback was awaited
    on "tick". *)
Definition collector_ended : Loop string (list string) string :=
  {| buffer := {| Logs.maxlen := 3; Logs.items := ["tick"] |};
     subscribers := [("sub-2", accepting)];
     changes := 1; world := [];
     task := Ended (RuntimeError "dictionary changed size during iteration") |}.

(** C7 as stated fails in three ways.

    - There is no drop counter: here an entry is lost for a failing sink
      and the service and the world are exactly as before, so nothing
      that could be read off them has been incremented.
    - A sink that cannot accept the record is not dropped: while the
      first subscriber's callback does not complete, the second is never
      given the record and nothing more is taken into the buffer.
    - If the connection of the failing sink unsubscribes while its
      callback is awaited, the [for] over the table raises
      [RuntimeError], which ends the collector: the second subscriber is
      never given the record. *)
Lemma C7_no_counter_and_no_drop :
  (¬ ∃ dropped : Loop string (list string) string → string → nat,
       ∀ st log_entry sub_id sink e st',
         task st = Receiving →
         subscribers st = [(sub_id, sink)] →
         sink log_entry (world st) = Some (world st, inr e) →
         run [Entry log_entry; Done] st = Some st' →
         dropped st' sub_id = S (dropped st sub_id))
  ∧ (∀ acts st',
       run (Entry "tick" :: acts) blocked_first = Some st' →
       world st' = [] ∧ Logs.items (buffer st') = ["tick"])
  ∧ (run [Entry "tick"; Unsubscribe "sub-1"; Done] failing_first = Some collector_ended
     ∧ ∀ acts st',
         run acts collector_ended = Some st' →
         world st' = [] ∧ Logs.items (buffer st') = ["tick"]).
Proof.
  split; [|split].
  - intros [dropped H].
    specialize (H saturated "tick" "sub-1" failing "connection closed" saturated
                  eq_refl eq_refl eq_refl saturated_unchanged).
    lia.
  - intros acts st' Hrun.
    change (run (Entry "tick" :: acts) blocked_first)
      with (run acts (fanning "tick" 0 [] blocked_first)) in Hrun.
    by destruct (held acts (fanning "tick" 0 [] blocked_first) st' "tick"
                   {| di_used := 2; di_pos := 1; di_made := 0 |} blocked
                   eq_refl eq_refl Hrun) as (-> & -> & _).
  - split; [reflexivity|]. intros acts st' Hrun.
    by destruct (ended acts collector_ended st' _ eq_refl Hrun) as (-> & -> & _).
Qed.

(** Two connections: the first wants warnings and worse from [/sensing],
    the second everything. *)
Definition sensing : Connection :=
  {| websocket := "ws-1"; node_patterns := Some ["/sensing"]; log_levels := Some ["warn"] |}.

Definition everything : Connection :=
  {| websocket := "ws-2"; node_patterns := None; log_levels := None |}.

Definition no_wildcards : string → string → bool := fun _ _ => false.

(** One reading of the level names: the floor is the lowest level named,
    and [DEBUG] when none is. *)
Definition level_named (name : string) : option Severity :=
  if String.eqb name "debug" then Some DEBUG
  else if String.eqb name "info" then Some INFO
  else if String.eqb name "warn" then Some WARN
  else if String.eqb name "error" then Some ERROR
  else if String.eqb name "fatal" then Some FATAL
  else None.

Definition lowest_named (log_levels : option (list string)) : Severity :=
  foldr (fun name floor =>
           match level_named name with
           | Some l => if (rank l <? rank floor)%nat then l else floor
           | None => floor
           end) FATAL (default ["debug"] log_levels).

Definition lidar_error : LogRecord :=
  {| timestamp := 0; sourceName := "/sensing/lidar"; level := ERROR;
     message := "no points" |}.

Definition two_connections : Loop LogRecord Sockets SendError :=
  {| buffer := Logs.deque 1000;
     subscribers := serving no_wildcards lowest_named
                      [("sub-1", sensing); ("sub-2", everything)];
     changes := 0;
     world := {| sent := []; closed := []; stalled := [] |};
     task := Receiving |}.


End Scenario.

End CollectorTask.

(** ** NodeService *)

Module NodeService.

Import Logs.

(** Python's exceptions, as far as [except Exception] tells them apart:
    those derived from [Exception], with what [str(e)] gives, and
    [asyncio.CancelledError], which like [KeyboardInterrupt] and
    [SystemExit] derives from [BaseException] only. *)
Inductive BaseException := Exception (e : string) | CancelledError.

Section RefreshLoop.
Context {World : Type}.

(** What the loop calls: [self.refresh_nodes()] and
    [self.conn._refresh_services_cache()], [int(time.time())] in seconds,
    [print], which writes to the standard output, and [asyncio.sleep]. *)
Record Collaborators := {
  refresh_nodes : Await World BaseException unit;
  _refresh_services_cache : Await World BaseException unit;
  time : World → Z;
  print : string → World → World;
  sleep : Z → Await World BaseException unit
}.

(** [try: m  except Exception as e: handler(e)] *)
Definition try_except_Exception {A} (m : Await World BaseException A)
    (handler : string → Await World BaseException A) : Await World BaseException A :=
  fun w => match m w with
           | (w', inr (Exception e)) => handler e w'
           | (w', r) => (w', r)
           end.

(** The body of the [while True] of [_refresh_loop]. *)
Definition iteration (env : Collaborators) : Await World BaseException unit :=
  let* _ := try_except_Exception
              (let* _ := refresh_nodes env in
               fun w => if time env w mod 30 =? 0 then _refresh_services_cache env w
                        else ret tt w)
              (fun e w => (print env ("Background refresh error: " ++ e) w, inl tt)) in
  sleep env 5.

(** [_refresh_loop], which has no exit of its own, for [rounds] turns of
    its loop. *)
Fixpoint _refresh_loop (env : Collaborators) (rounds : nat) : Await World BaseException unit :=
  match rounds with
  | O => ret tt
  | S rounds' => let* _ := iteration env in _refresh_loop env rounds'
  end.

(** The same collaborators with another [_refresh_services_cache]. *)
Definition with_services (other : Await World BaseException unit) (env : Collaborators)
  : Collaborators :=
  {| refresh_nodes := refresh_nodes env; _refresh_services_cache := other;
     time := time env; print := print env; sleep := sleep env |}.

Lemma iteration_outcome env w :
  (∀ w0 w1 e, sleep env 5 w0 = (w1, inr e) → e = CancelledError) →
  ∃ w', iteration env w = (w', inl tt) ∨ iteration env w = (w', inr CancelledError).
Proof.
  intros Hsleep. unfold iteration, bind, try_except_Exception, ret.
  assert (Hend : ∀ w0, ∃ w', sleep env 5 w0 = (w', inl tt)
                             ∨ sleep env 5 w0 = (w', inr CancelledError)).
  { intros w0. destruct (sleep env 5 w0) as [w1 [[]|e]] eqn:Hs; eexists; [by left|].
    right. by rewrite (Hsleep _ _ _ Hs). }
  destruct (refresh_nodes env w) as [w1 [[]|[e|]]]; [|apply Hend|eexists; by right].
  destruct (time env w1 mod 30 =? 0); [|apply Hend].
  destruct (_refresh_services_cache env w1) as [w2 [[]|[e|]]];
    [apply Hend|apply Hend|eexists; by right].
Qed.

(** X17: No error of [refresh_nodes] or [_refresh_services_cache] ends the
    background refresh: an [Exception] is printed and the loop goes on
    after its sleep.  Provided [asyncio.sleep] raises nothing but a
    cancellation, the loop makes all its turns unless it is cancelled; and
    a turn in which [refresh_nodes] raises an [Exception] skips the refresh
    of the services, prints the error and sleeps as usual. *)
Theorem refresh_loop_survives_errors (env : Collaborators) :
  (∀ w0 w1 e, sleep env 5 w0 = (w1, inr e) → e = CancelledError) →
  (∀ rounds w, ∃ w', _refresh_loop env rounds w = (w', inl tt)
                     ∨ _refresh_loop env rounds w = (w', inr CancelledError))
  ∧ (∀ w w1 e, refresh_nodes env w = (w1, inr (Exception e)) →
       iteration env w = sleep env 5 (print env ("Background refresh error: " ++ e) w1)).
Proof.
  intros Hsleep. split.
  - induction rounds as [|rounds IH]; intros w; simpl; [eexists; by left|].
    unfold bind. destruct (iteration_outcome env w Hsleep) as (w1 & [-> | ->]).
    + apply IH.
    + eexists. by right.
  - intros w w1 e Hfail. unfold iteration, bind, try_except_Exception. by rewrite Hfail.
Qed.

(** X18: The services are refreshed only in a turn in which [refresh_nodes]
    has returned and the clock, read at that moment, shows a whole multiple
    of 30 seconds.  So if the worlds the loop goes through all satisfy a
    condition [P] under which the clock shows no such second,
    [_refresh_services_cache] is never called: the loop does the same with
    any other in its place. *)
Theorem services_refresh_needs_a_multiple_of_30
    (env : Collaborators) (other : Await World BaseException unit) (P : World → Prop) :
  (∀ w, P w → time env w mod 30 ≠ 0) →
  (∀ w w' r, P w → refresh_nodes env w = (w', r) → P w') →
  (∀ w e, P w → P (print env e w)) →
  (∀ w w' r, P w → sleep env 5 w = (w', r) → P w') →
  ∀ rounds w, P w → _refresh_loop (with_services other env) rounds w = _refresh_loop env rounds w.
Proof.
  intros Htime Hnodes Hprint Hsleep.
  assert (Hiter : ∀ w, P w → iteration (with_services other env) w = iteration env w
                             ∧ ∀ w' r, iteration env w = (w', r) → P w').
  { intros w Hw. unfold iteration, bind, try_except_Exception, ret. simpl.
    destruct (refresh_nodes env w) as [w1 [[]|[e|]]] eqn:Hn.
    - pose proof (Hnodes _ _ _ Hw Hn) as Hw1.
      rewrite (proj2 (Z.eqb_neq _ _) (Htime _ Hw1)). split; [done|].
      intros w' r. apply Hsleep. done.
    - pose proof (Hnodes _ _ _ Hw Hn) as Hw1. split; [done|].
      intros w' r. apply Hsleep. by apply Hprint.
    - pose proof (Hnodes _ _ _ Hw Hn) as Hw1. split; [done|]. by intros w' r [= <- <-]. }
  induction rounds as [|rounds IH]; intros w Hw; simpl; [done|].
  unfold bind. destruct (Hiter w Hw) as [-> Hnext].
  destruct (iteration env w) as [w1 [[]|e]] eqn:Hi; [|done].
  apply IH. by eapply Hnext.
Qed.

End RefreshLoop.

Arguments Collaborators : clear implicits.

(** *** A loop with a period of five seconds *)

Module Scenario.

(** The world: the clock in seconds and what has been done. *)
Definition World : Type := Z * list string.

Definition done (what : string) : Await World BaseException unit :=
  fun w => ((w.1, w.2 ++ [what]), inl tt).

(** Refreshes that take no time and a sleep of exactly five seconds. *)
Definition punctual : Collaborators World :=
  {| refresh_nodes := done "nodes";
     _refresh_services_cache := done "services";
     time := fst;
     print := fun e w => (w.1, w.2 ++ [e]);
     sleep := fun seconds w => ((w.1 + seconds, w.2), inl tt) |}.

(** The same with a [refresh_nodes] that fails every time. *)
Definition failing : Collaborators World :=
  {| refresh_nodes := fun w => (w, inr (Exception "docker exec failed"));
     _refresh_services_cache := done "services";
     time := fst;
     print := fun e w => (w.1, w.2 ++ [e]);
     sleep := fun seconds w => ((w.1 + seconds, w.2), inl tt) |}.

Lemma refresh_loop_witness :
  (∀ rounds w, ∃ w', _refresh_loop failing rounds w = (w', inl tt)
                     ∨ _refresh_loop failing rounds w = (w', inr CancelledError))
  ∧ (∀ w w1 e, refresh_nodes failing w = (w1, inr (Exception e)) →
       iteration failing w
       = sleep failing 5 (print failing ("Background refresh error: " ++ e) w1)).
Proof. apply (refresh_loop_survives_errors failing). intros w0 w1 e. discriminate. Defined.

Example failing_run :
  _refresh_loop failing 2 (0, [])
  = ((10, ["Background refresh error: docker exec failed";
           "Background refresh error: docker exec failed"]), inl tt).
Proof. reflexivity. Qed.

(** Started on a second that is not a multiple of five, the loop never
    refreshes the services. *)
Lemma never_on_the_second :
  _refresh_loop (with_services (fun w => (w, inr CancelledError)) punctual) 12 (1, [])
  = _refresh_loop punctual 12 (1, []).
Proof.
  apply (services_refresh_needs_a_multiple_of_30 punctual
           (fun w => (w, inr CancelledError)) (fun w => w.1 mod 5 = 1)).
  - intros w Hw. simpl. intros H30.
    rewrite <- (Z.mod_mod_divide (w.1) 30 5) in Hw by (by exists 6).
    rewrite H30 in Hw. discriminate Hw.
  - intros w w' r Hw [= <- _]. exact Hw.
  - intros w e Hw. exact Hw.
  - intros w w' r Hw [= <- _]. simpl.
    rewrite <- Z.add_mod_idemp_l, Hw by lia. reflexivity.
  - reflexivity.
Defined.

(** Started on a multiple of 30, it refreshes them in the first turn and
    in the seventh. *)
Example on_the_second :
  snd (fst (_refresh_loop punctual 7 (0, [])))
  = ["nodes"; "services"; "nodes"; "nodes"; "nodes"; "nodes"; "nodes"; "nodes"; "services"]
  ∧ snd (fst (_refresh_loop punctual 7 (1, []))) = replicate 7 "nodes".
Proof. split; reflexivity. Qed.

End Scenario.

End NodeService.

(** ** buildTree *)

Module Tree.

(** A node of the flat list; [buildTree] reads its name, status and type. *)
Record Node := { name : string; status : string; type : string }.

(** A namespace:
    [{ children: {}, nodes: [], count: 0, activeCount: 0, lifecycleCount: 0 }].
    [children] is a JavaScript object used as a dictionary, kept here with
    its own properties in insertion order. *)
Inductive tree := Namespace {
  children : list (string * tree);
  nodes : list Node;
  count : nat;
  activeCount : nat;
  lifecycleCount : nat
}.

Definition empty : tree :=
  {| children := []; nodes := []; count := 0; activeCount := 0; lifecycleCount := 0 |}.

(** [s.split('/')] *)
Fixpoint split_on_slash (s : string) (segment : string) : list string :=
  match s with
  | EmptyString => [segment]
  | String c s' =>
      if Ascii.eqb c "/"%char then segment :: split_on_slash s' EmptyString
      else split_on_slash s' (segment ++ String c EmptyString)%string
  end.

(** [node.name.split('/').filter(Boolean)]: the empty string is the only
    falsy string. *)
Definition parts (n : Node) : list string :=
  List.filter (fun p => negb (String.eqb p EmptyString)) (split_on_slash (name n) EmptyString).

(** The members that every object literal inherits from
    [Object.prototype].  Each of them is a function or an object, hence
    truthy. *)
Definition object_prototype : list string :=
  ["constructor"; "__defineGetter__"; "__defineSetter__"; "hasOwnProperty";
   "__lookupGetter__"; "__lookupSetter__"; "isPrototypeOf"; "propertyIsEnumerable";
   "toString"; "valueOf"; "__proto__"; "toLocaleString"].

(** What [current.children[part]] evaluates to. *)
Inductive slot := Own (child : tree) | Inherited | Undefined.

Fixpoint own (part : string) (cs : list (string * tree)) : option tree :=
  match cs with
  | [] => None
  | (k, child) :: cs' => if String.eqb k part then Some child else own part cs'
  end.

Definition get (cs : list (string * tree)) (part : string) : slot :=
  match own part cs with
  | Some child => Own child
  | None => if existsb (String.eqb part) object_prototype then Inherited else Undefined
  end.

(** [children[part] = child] on an own property that exists. *)
Fixpoint replace (part : string) (child : tree) (cs : list (string * tree))
  : list (string * tree) :=
  match cs with
  | [] => []
  | (k, c) :: cs' =>
      if String.eqb k part then (k, child) :: cs' else (k, c) :: replace part child cs'
  end.

Definition with_children (cs : list (string * tree)) (t : tree) : tree :=
  {| children := cs; nodes := nodes t; count := count t;
     activeCount := activeCount t; lifecycleCount := lifecycleCount t |}.

(** The inner loop of [buildTree] and the [push] that follows it, from
    [current] down the remaining [path].  [None] is the [TypeError] raised
    when [current] has become an inherited member, which has neither
    [children] nor [nodes]. *)
Fixpoint place (path : list string) (node : Node) (current : tree) : option tree :=
  match path with
  | [] =>
      Some {| children := children current; nodes := nodes current ++ [node];
              count := count current; activeCount := activeCount current;
              lifecycleCount := lifecycleCount current |}
  | part :: path' =>
      match get (children current) part with
      | Own child =>
          match place path' node child with
          | Some child' => Some (with_children (replace part child' (children current)) current)
          | None => None
          end
      | Undefined =>
          match place path' node empty with
          | Some child' => Some (with_children (children current ++ [(part, child')]) current)
          | None => None
          end
      | Inherited => None
      end
  end.

(** [for (let i = 0; i < parts.length - 1; i++)]: all parts but the last. *)
Definition namespaces (n : Node) : list string := removelast (parts n).

Definition is_active (n : Node) : bool := String.eqb (status n) "active".

Definition is_active_lifecycle (n : Node) : bool :=
  String.eqb (type n) "lifecycle" && String.eqb (status n) "active".

Definition total (f : tree → nat) (cs : list (string * tree)) : nat :=
  foldl (fun acc kc => (acc + f (snd kc))%nat) 0%nat cs.

Fixpoint calcCounts (t : tree) : tree :=
  match t with
  | Namespace cs ns _ _ _ =>
      let cs' := map (fun kc => (fst kc, calcCounts (snd kc))) cs in
      {| children := cs'; nodes := ns;
         count := (length ns + total count cs')%nat;
         activeCount := (length (List.filter is_active ns) + total activeCount cs')%nat;
         lifecycleCount :=
           (length (List.filter is_active_lifecycle ns) + total lifecycleCount cs')%nat |}
  end.

Fixpoint place_all (ns : list Node) (root : tree) : option tree :=
  match ns with
  | [] => Some root
  | node :: ns' =>
      match place (namespaces node) node root with
      | Some root' => place_all ns' root'
      | None => None
      end
  end.

Definition buildTree (ns : list Node) : option tree :=
  calcCounts <$> place_all ns empty.

(** *** What the counts count *)

(** The nodes of a namespace and of the namespaces below it. *)
Fixpoint subtree (t : tree) : list Node :=
  match t with
  | Namespace cs ns _ _ _ => ns ++ flat_map (fun kc => subtree (snd kc)) cs
  end.

(** A namespace and all the namespaces below it. *)
Fixpoint descendants (t : tree) : list tree :=
  match t with
  | Namespace cs _ _ _ _ => t :: flat_map (fun kc => descendants (snd kc)) cs
  end.

Definition exact (t : tree) : Prop :=
  count t = length (subtree t)
  ∧ activeCount t = length (List.filter is_active (subtree t))
  ∧ lifecycleCount t = length (List.filter is_active_lifecycle (subtree t)).

Lemma tree_rect' (P : tree → Prop) :
  (∀ cs ns c a l, Forall (fun kc => P (snd kc)) cs → P (Namespace cs ns c a l)) →
  ∀ t, P t.
Proof.
  intros H. fix IH 1. intros [cs ns c a l]. apply H.
  induction cs as [|kc cs IHcs]; constructor; [apply IH | apply IHcs].
Qed.

Lemma descendants_self t : t ∈ descendants t.
Proof. destruct t. simpl. by left. Qed.

Lemma total_from (f : tree → nat) cs : ∀ acc,
  foldl (fun acc kc => (acc + f (snd kc))%nat) acc cs = (acc + total f cs)%nat.
Proof.
  unfold total. induction cs as [|kc cs IH]; intros acc; simpl; [lia|].
  rewrite IH, (IH (f (snd kc))). lia.
Qed.

Lemma total_cons (f : tree → nat) kc cs : total f (kc :: cs) = (f (snd kc) + total f cs)%nat.
Proof. unfold total at 1. simpl. by rewrite total_from. Qed.

(** The sum over the children of a count that is exact for each child. *)
Lemma total_exact (f : tree → nat) (g : list Node → list Node) cs :
  g [] = [] → (∀ l1 l2, g (l1 ++ l2) = g l1 ++ g l2) →
  Forall (fun kc => f (snd kc) = length (g (subtree (snd kc)))) cs →
  total f cs = length (g (flat_map (fun kc => subtree (snd kc)) cs)).
Proof.
  intros Hnil Happ. induction 1 as [|kc cs Hkc _ IH]; simpl.
  - by rewrite Hnil.
  - by rewrite total_cons, Happ, length_app, IH, Hkc.
Qed.

Lemma calcCounts_spec t :
  subtree (calcCounts t) = subtree t ∧ Forall exact (descendants (calcCounts t)).
Proof.
  induction t as [cs ns c a l IH] using tree_rect'.
  set (cs' := map (fun kc => (fst kc, calcCounts (snd kc))) cs).
  assert (Hsub : flat_map (fun kc => subtree (snd kc)) cs'
                 = flat_map (fun kc => subtree (snd kc)) cs).
  { subst cs'. clear -IH.
    induction IH as [|kc cs [Hkc _] _ IHcs]; simpl; [done|]. by rewrite Hkc, IHcs. }
  assert (Hbelow : Forall exact (flat_map (fun kc => descendants (snd kc)) cs')).
  { subst cs'. clear -IH.
    induction IH as [|kc cs [_ Hkc] _ IHcs]; simpl; [done|]. by apply Forall_app. }
  assert (Hroots : Forall (fun kc => exact (snd kc)) cs').
  { subst cs'. clear -IH.
    induction IH as [|kc cs [_ Hkc] _ IHcs]; simpl; constructor; [|done].
    simpl. eapply Forall_forall; [exact Hkc|]. apply descendants_self. }
  split.
  - simpl. fold cs'. by rewrite Hsub.
  - cbn [calcCounts descendants]. fold cs'. constructor; [|done].
    unfold exact. cbn [count activeCount lifecycleCount subtree].
    rewrite !List.filter_app, !length_app. repeat split; f_equal.
    + apply (total_exact count (fun l => l)); [done..|].
      eapply Forall_impl; [exact Hroots|]. by intros kc (? & _).
    + apply (total_exact activeCount (List.filter is_active)); [done|apply List.filter_app|].
      eapply Forall_impl; [exact Hroots|]. by intros kc (_ & ? & _).
    + apply (total_exact lifecycleCount (List.filter is_active_lifecycle));
        [done|apply List.filter_app|].
      eapply Forall_impl; [exact Hroots|]. by intros kc (_ & _ & ?).
Qed.

(** An own property is somewhere in the dictionary, and assigning to it
    replaces its value in place. *)
Lemma own_split part cs child :
  own part cs = Some child →
  ∃ before after,
    cs = before ++ (part, child) :: after
    ∧ ∀ child', replace part child' cs = before ++ (part, child') :: after.
Proof.
  induction cs as [|[k c] cs IH]; simpl; [done|].
  destruct (String.eqb_spec k part) as [->|Hne].
  - intros [= ->]. by exists [], cs.
  - intros (before & after & -> & Hrep)%IH. exists ((k, c) :: before), after.
    split; [done|]. intros child'. simpl. by rewrite Hrep.
Qed.

Lemma flat_map_middle {A B} (f : A → list B) before x after :
  flat_map f (before ++ x :: after) = flat_map f before ++ f x ++ flat_map f after.
Proof. by rewrite flat_map_app. Qed.

(** Placing a node adds it, and nothing else, to the nodes of the tree. *)
Lemma place_subtree path node : ∀ t t',
  place path node t = Some t' → subtree t' ≡ₚ node :: subtree t.
Proof.
  induction path as [|part path IH]; intros [cs ns c a l] t'; simpl.
  - intros [= <-]. simpl. rewrite <- app_assoc. simpl.
    by rewrite <- Permutation_middle.
  - unfold get. destruct (own part cs) as [child|] eqn:Hown.
    + destruct (place path node child) as [child'|] eqn:Hplace; [|done].
      intros [= <-]. simpl.
      destruct (own_split _ _ _ Hown) as (before & after & -> & Hrep).
      rewrite Hrep, !flat_map_middle. simpl. rewrite (IH _ _ Hplace).
      rewrite <- app_comm_cons, <- !Permutation_middle. done.
    + destruct (existsb _ _); [done|].
      destruct (place path node empty) as [child'|] eqn:Hplace; [|done].
      intros [= <-]. simpl. rewrite flat_map_app. simpl.
      rewrite (IH _ _ Hplace). simpl.
      rewrite app_assoc. apply (Permutation_app_comm _ [node]).
Qed.

Lemma place_all_subtree ns : ∀ t t',
  place_all ns t = Some t' → subtree t' ≡ₚ ns ++ subtree t.
Proof.
  induction ns as [|node ns IH]; intros t t'; simpl.
  - by intros [= <-].
  - destruct (place (namespaces node) node t) as [t1|] eqn:Hplace; [|done].
    intros Hall. rewrite (IH _ _ Hall), (place_subtree _ _ _ _ Hplace).
    by rewrite <- Permutation_middle.
Qed.

(** A path that avoids the inherited names can always be followed. *)
Definition avoids_prototype (path : list string) : Prop :=
  Forall (fun part => existsb (String.eqb part) object_prototype = false) path.

Lemma place_total path node : ∀ t, avoids_prototype path → is_Some (place path node t).
Proof.
  induction path as [|part path IH]; intros t; simpl; [eauto|].
  intros [Hpart Hpath]%Forall_cons. unfold get. rewrite Hpart.
  destruct (own part (children t)) as [child|].
  - by destruct (IH child Hpath) as [child' ->].
  - by destruct (IH empty Hpath) as [child' ->].
Qed.

Lemma place_all_total ns : ∀ t,
  Forall (fun node => avoids_prototype (namespaces node)) ns → is_Some (place_all ns t).
Proof.
  induction ns as [|node ns IH]; intros t; simpl; [eauto|].
  intros [Hnode Hns]%Forall_cons.
  destruct (place_total (namespaces node) node t Hnode) as [t1 ->]. by apply IH.
Qed.

(** X1: The counts of [buildTree], for a list of nodes none of whose
    namespaces bears the name of a member of [Object.prototype]: the tree is
    built; it holds the nodes of the list, each once; at every namespace,
    [count], [activeCount] and [lifecycleCount] are the numbers of nodes,
    of active nodes and of active lifecycle nodes of its subtree, so that
    [lifecycleCount <= activeCount <= count]; and the count of the root is
    the length of the list. *)
Theorem buildTree_counts (ns : list Node) :
  Forall (fun node => avoids_prototype (namespaces node)) ns →
  ∃ root,
    buildTree ns = Some root
    ∧ subtree root ≡ₚ ns
    ∧ (∀ t, t ∈ descendants root →
         exact t ∧ (lifecycleCount t ≤ activeCount t ≤ count t)%nat)
    ∧ count root = length ns.
Proof.
  intros Hns. unfold buildTree.
  destruct (place_all_total ns empty Hns) as [placed Hplaced]. rewrite Hplaced. simpl.
  exists (calcCounts placed). split; [done|].
  destruct (calcCounts_spec placed) as [Hsub Hexact].
  assert (Hperm : subtree (calcCounts placed) ≡ₚ ns).
  { rewrite Hsub, (place_all_subtree _ _ _ Hplaced). simpl. by rewrite app_nil_r. }
  split; [done|]. split.
  - intros t Ht. rewrite Forall_forall in Hexact. pose proof (Hexact t Ht) as Hex.
    split; [done|]. destruct Hex as (-> & -> & ->). split.
    + unfold is_active_lifecycle.
      induction (subtree t) as [|n l IH]; simpl; [lia|].
      destruct (String.eqb (type n) "lifecycle"), (is_active n) eqn:Hact;
        unfold is_active in Hact; rewrite Hact; simpl; lia.
    + apply filter_length_le.
  - rewrite Forall_forall in Hexact.
    destruct (Hexact _ (descendants_self _)) as (-> & _). by rewrite Hperm.
Qed.

(** Three nodes, two of them under [/sensing]. *)
Definition driver : Node :=
  {| name := "/sensing/lidar/driver"; status := "active"; type := "lifecycle" |}.
Definition camera : Node :=
  {| name := "/sensing/camera"; status := "inactive"; type := "regular" |}.
Definition listener : Node :=
  {| name := "/listener"; status := "active"; type := "regular" |}.

Example counts_of_three_nodes :
  (fun t => (count t, activeCount t, lifecycleCount t, map fst (children t)))
    <$> buildTree [driver; camera; listener]
  = Some (3, 2, 1, ["sensing"])%nat
  ∧ (fun t => (count t, activeCount t, lifecycleCount t, nodes t))
      <$> (buildTree [driver; camera; listener] ≫= fun t => own "sensing" (children t))
    = Some (2, 1, 1, [camera])%nat.
Proof. split; reflexivity. Qed.

(** A talker in the namespace [/constructor]. *)
Definition talker : Node :=
  {| name := "/constructor/talker"; status := "active"; type := "regular" |}.

Example parts_of_talker : parts talker = ["constructor"; "talker"].
Proof. reflexivity. Qed.

(** C9 fails on the code for this list: [root.children["constructor"]] is
    the inherited [Object], which is truthy, so no namespace is created;
    [current] becomes [Object], which has no [nodes], and
    [current.nodes.push(node)] raises a [TypeError]. *)
Theorem C9_buildTree_fails_on_inherited_name : buildTree [talker] = None.
Proof. reflexivity. Qed.

(** *** Where the nodes are filed *)

(** The namespace found by following [path] from [t] through own
    properties. *)
Fixpoint descend (path : list string) (t : tree) : option tree :=
  match path with
  | [] => Some t
  | part :: path' =>
      match own part (children t) with
      | Some child => descend path' child
      | None => None
      end
  end.

(** The nodes listed directly in the namespace at [path], none when there
    is no such namespace. *)
Definition nodes_at (path : list string) (t : tree) : list Node :=
  match descend path t with
  | Some namespace => nodes namespace
  | None => []
  end.

Lemma own_replace part child' cs q :
  is_Some (own part cs) →
  own q (replace part child' cs) = if String.eqb part q then Some child' else own q cs.
Proof.
  induction cs as [|[k c] cs IH]; simpl; [by intros [? ?]|].
  destruct (String.eqb_spec k part) as [->|Hne]; simpl.
  - intros _. by destruct (String.eqb_spec part q).
  - intros Hsome. rewrite (IH Hsome).
    destruct (String.eqb_spec k q) as [->|Hkq]; [|done].
    by destruct (String.eqb_spec part q); [congruence|].
Qed.

Lemma own_append part child' cs q :
  own part cs = None →
  own q (cs ++ [(part, child')]) = if String.eqb part q then Some child' else own q cs.
Proof.
  induction cs as [|[k c] cs IH]; simpl.
  - intros _. by destruct (String.eqb part q).
  - destruct (String.eqb_spec k part) as [->|Hne]; [done|]. intros Hnone.
    rewrite (IH Hnone). destruct (String.eqb_spec k q) as [->|Hkq]; [|done].
    by destruct (String.eqb_spec part q); [congruence|].
Qed.

Lemma descend_empty path d : descend path empty = Some d → path = [] ∧ d = empty.
Proof. destruct path; simpl; [by intros [= <-]|done]. Qed.

(** Where [place] leaves the namespaces: those on the path of the node are
    the ones it returns, the others are untouched. *)
Lemma place_descend path node : ∀ t t',
  place path node t = Some t' →
  ∃ child',
    (match path with
     | [] => True
     | part :: path' =>
         place path' node (default empty (own part (children t))) = Some child'
         ∧ ∀ q p, descend (q :: p) t'
                  = if String.eqb part q then descend p child' else descend (q :: p) t
     end)
    ∧ (path = [] → children t' = children t ∧ nodes t' = nodes t ++ [node])
    ∧ (path ≠ [] → nodes t' = nodes t).
Proof.
  destruct path as [|part path]; intros [cs ns c a l] t'; simpl.
  - intros [= <-]. exists empty. done.
  - unfold get. destruct (own part cs) as [child|] eqn:Hown.
    + destruct (place path node child) as [child'|] eqn:Hplace; [|done].
      intros [= <-]. exists child'. split; [|done]. split; [done|].
      intros q p. simpl. rewrite own_replace by eauto.
      by destruct (String.eqb part q).
    + destruct (existsb _ _); [done|].
      destruct (place path node empty) as [child'|] eqn:Hplace; [|done].
      intros [= <-]. exists child'. split; [|done]. split; [done|].
      intros q p. simpl. rewrite own_append by done.
      by destruct (String.eqb part q).
Qed.

Lemma place_nodes_at path node : ∀ t t' p,
  place path node t = Some t' →
  nodes_at p t' = nodes_at p t ++ (if bool_decide (path = p) then [node] else []).
Proof.
  induction path as [|part path IH]; intros t t' p Hplace;
    destruct (place_descend _ _ _ _ Hplace) as (child' & Hpath & Hroot & Hnodes).
  - destruct (Hroot eq_refl) as [Hcs Hns]. destruct p as [|q p]; unfold nodes_at; simpl.
    + done.
    + rewrite Hcs, app_nil_r. done.
  - destruct Hpath as [Hchild Hdescend]. destruct p as [|q p]; unfold nodes_at.
    + simpl. rewrite Hnodes by done. by rewrite app_nil_r.
    + rewrite Hdescend. destruct (String.eqb_spec part q) as [->|Hne].
      * pose proof (IH _ _ p Hchild) as Hp. unfold nodes_at in Hp. rewrite Hp.
        simpl. destruct (own q (children t)) as [child|] eqn:Hown; simpl.
        -- f_equal. repeat case_bool_decide; congruence.
        -- assert (Hnone : descend p empty = None ∨ p = []).
           { destruct (descend p empty) eqn:Hd; [|by left].
             right. by apply descend_empty in Hd as [-> _]. }
           destruct Hnone as [->| ->]; simpl; repeat case_bool_decide; congruence.
      * rewrite bool_decide_eq_false_2 by congruence. by rewrite app_nil_r.
Qed.

Lemma place_all_nodes_at ns : ∀ t t' p,
  place_all ns t = Some t' →
  nodes_at p t'
  = nodes_at p t ++ List.filter (fun node => bool_decide (namespaces node = p)) ns.
Proof.
  induction ns as [|node ns IH]; intros t t' p; simpl.
  - intros [= <-]. by rewrite app_nil_r.
  - destruct (place (namespaces node) node t) as [t1|] eqn:Hplace; [|done].
    intros Hall. rewrite (IH _ _ _ Hall), (place_nodes_at _ _ _ _ _ Hplace), <- app_assoc.
    by destruct (bool_decide _).
Qed.

Lemma own_calcCounts q cs :
  own q (map (fun kc => (fst kc, calcCounts (snd kc))) cs) = calcCounts <$> own q cs.
Proof.
  induction cs as [|[k c] cs IH]; simpl; [done|]. by destruct (String.eqb k q).
Qed.

Lemma descend_calcCounts path : ∀ t, descend path (calcCounts t) = calcCounts <$> descend path t.
Proof.
  induction path as [|part path IH]; intros [cs ns c a l]; [done|].
  cbn [descend calcCounts children]. rewrite own_calcCounts.
  destruct (own part cs) as [child|]; simpl; [apply IH|done].
Qed.

Lemma nodes_calcCounts t : nodes (calcCounts t) = nodes t.
Proof. by destruct t. Qed.

(** X2: Every node is filed under its namespaces and nowhere else: in the
    tree that [buildTree] returns, the nodes listed in the namespace at
    [path] are the nodes of the list whose parts but the last are [path], in
    the order of the list (before the component sorts them for display). *)
Theorem nodes_are_filed_by_namespace (ns : list Node) (root : tree) (path : list string) :
  buildTree ns = Some root →
  nodes_at path root = List.filter (fun node => bool_decide (namespaces node = path)) ns.
Proof.
  unfold buildTree. destruct (place_all ns empty) as [placed|] eqn:Hplaced; [|done].
  intros [= <-]. unfold nodes_at. rewrite descend_calcCounts.
  pose proof (place_all_nodes_at _ _ _ path Hplaced) as Hat. unfold nodes_at in Hat.
  destruct (descend path placed) as [d|]; simpl.
  - rewrite nodes_calcCounts, Hat.
    destruct (descend path empty) as [d0|] eqn:Hd0; [|done].
    by apply descend_empty in Hd0 as [_ ->].
  - rewrite Hat. destruct (descend path empty) as [d0|] eqn:Hd0; [|done].
    by apply descend_empty in Hd0 as [_ ->].
Qed.

Lemma nodes_are_filed_witness :
  nodes_at ["sensing"] (default empty (buildTree [driver; camera; listener]))
  = List.filter (fun node => bool_decide (namespaces node = ["sensing"]))
      [driver; camera; listener].
Proof.
  apply (nodes_are_filed_by_namespace [driver; camera; listener] _ ["sensing"]).
  reflexivity.
Defined.

(** *** Namespaces are never empty *)

(** [hasChildren] of [TreeNode]:
    [Object.keys(data.children).length > 0 || data.nodes.length > 0]. *)
Definition hasChildren (data : tree) : bool :=
  (0 <? length (children data))%nat || (0 <? length (nodes data))%nat.

Definition populated (t : tree) : Prop :=
  ∀ p d, p ≠ [] → descend p t = Some d → subtree d ≠ [].

Lemma place_populated path node : ∀ t t',
  place path node t = Some t' → populated t → populated t'.
Proof.
  induction path as [|part path IH]; intros t t' Hplace Ht;
    destruct (place_descend _ _ _ _ Hplace) as (child' & Hpath & Hroot & _).
  - destruct (Hroot eq_refl) as [Hcs _]. intros [|q p] d Hp; [done|]. simpl. rewrite Hcs.
    apply (Ht (q :: p) d Hp).
  - destruct Hpath as [Hchild Hdescend]. intros [|q p] d Hp; [done|]. rewrite Hdescend.
    destruct (String.eqb_spec part q) as [->|Hne]; [|apply (Ht (q :: p) d Hp)].
    destruct p as [|q' p].
    + intros [= <-]. intros Hnil. pose proof (place_subtree _ _ _ _ Hchild) as Hperm.
      rewrite Hnil in Hperm. by apply Permutation_nil_cons in Hperm.
    + apply (IH _ _ Hchild); [|done].
      intros p0 d0 Hp0 Hd0. destruct (own q (children t)) as [child|] eqn:Hown; simpl in Hd0.
      * apply (Ht (q :: p0) d0); [done|]. simpl. by rewrite Hown.
      * by apply descend_empty in Hd0 as [-> _].
Qed.

Lemma place_all_populated ns : ∀ t t', place_all ns t = Some t' → populated t → populated t'.
Proof.
  induction ns as [|node ns IH]; intros t t'; simpl; [by intros [= <-]|].
  destruct (place (namespaces node) node t) as [t1|] eqn:Hplace; [|done].
  intros Hall Ht. eapply IH; [done|]. by eapply place_populated.
Qed.

Lemma descend_descendants path : ∀ t d, descend path t = Some d → d ∈ descendants t.
Proof.
  induction path as [|part path IH]; intros t d; simpl.
  - intros [= <-]. apply descendants_self.
  - destruct t as [cs ns c a l]. simpl. destruct (own part cs) as [child|] eqn:Hown; [|done].
    intros Hd%IH. right. apply list_elem_of_In, in_flat_map. exists (part, child).
    split; [|by apply list_elem_of_In].
    clear -Hown. induction cs as [|[k c'] cs IHcs]; simpl in *; [done|].
    destruct (String.eqb_spec k part) as [->|Hne]; [left; congruence|right; auto].
Qed.

(** X3: In the tree that [buildTree] returns, every namespace below the root
    holds at least one node, itself or further down: its [count] is at
    least 1 and [hasChildren] is true for the [TreeNode] that shows it. *)
Theorem namespaces_are_never_empty (ns : list Node) (root d : tree) (path : list string) :
  buildTree ns = Some root → path ≠ [] → descend path root = Some d →
  (1 ≤ count d)%nat ∧ hasChildren d = true.
Proof.
  unfold buildTree. destruct (place_all ns empty) as [placed|] eqn:Hplaced; [|done].
  intros [= <-] Hpath. rewrite descend_calcCounts.
  destruct (descend path placed) as [d0|] eqn:Hd0; [|done]. intros [= <-].
  assert (Hsub : subtree d0 ≠ []).
  { eapply (place_all_populated _ _ _ Hplaced); [|done|done].
    intros p d' Hp Hd'. by apply descend_empty in Hd' as [-> _]. }
  destruct (calcCounts_spec d0) as [Hsame Hexact].
  rewrite Forall_forall in Hexact. destruct (Hexact _ (descendants_self _)) as (Hcount & _).
  rewrite Hsame in Hcount. split.
  - rewrite Hcount. destruct (subtree d0); [done|simpl; lia].
  - unfold hasChildren. destruct d0 as [cs ns0 c a l]. simpl in *.
    rewrite length_map. destruct ns0 as [|n ns0]; [|by rewrite orb_true_r].
    destruct cs; [done|]. done.
Qed.

Definition three_nodes_tree : tree := default empty (buildTree [driver; camera; listener]).

Definition lidar_namespace : tree :=
  default empty (descend ["sensing"; "lidar"] three_nodes_tree).

Lemma namespaces_are_never_empty_witness :
  (1 ≤ count lidar_namespace)%nat ∧ hasChildren lidar_namespace = true.
Proof.
  apply (namespaces_are_never_empty [driver; camera; listener] three_nodes_tree
           lidar_namespace ["sensing"; "lidar"]);
    [reflexivity|discriminate|reflexivity].
Defined.

(** *** When [buildTree] fails *)

(** No namespace of the tree bears an inherited name. *)
Definition unshadowed (t : tree) : Prop :=
  ∀ p d, descend p t = Some d → avoids_prototype p.

Lemma place_unshadowed path node : ∀ t t',
  place path node t = Some t' → unshadowed t → unshadowed t'.
Proof.
  induction path as [|part path IH]; intros t t' Hplace Ht;
    destruct (place_descend _ _ _ _ Hplace) as (child' & Hpath & Hroot & _).
  - destruct (Hroot eq_refl) as [Hcs _]. intros [|q p] d; [by constructor|]. simpl.
    rewrite Hcs. apply (Ht (q :: p) d).
  - destruct Hpath as [Hchild Hdescend]. intros [|q p] d; [by constructor|]. rewrite Hdescend.
    destruct (String.eqb_spec part q) as [->|Hne]; [|apply (Ht (q :: p) d)].
    intros Hd. constructor.
    + cbn [place] in Hplace. unfold get in Hplace.
      destruct (own q (children t)) as [child|] eqn:Hown.
      * assert (Hq : avoids_prototype [q]).
        { apply (Ht [q] child). cbn [descend]. by rewrite Hown. }
        by apply Forall_cons in Hq as [Hq _].
      * by destruct (existsb (String.eqb q) object_prototype).
    + apply (IH _ _ Hchild) with d; [|done].
      intros p0 d0 Hd0. destruct (own q (children t)) as [child|] eqn:Hown; simpl in Hd0.
      * assert (Hq : avoids_prototype (q :: p0)).
        { apply (Ht (q :: p0) d0). simpl. by rewrite Hown. }
        by apply Forall_cons in Hq as [_ Hq].
      * apply descend_empty in Hd0 as [-> _]. constructor.
Qed.

Lemma place_shadowed path node : ∀ t,
  unshadowed t → ¬ avoids_prototype path → place path node t = None.
Proof.
  induction path as [|part path IH]; intros t Ht Hpath; [by destruct Hpath; constructor|].
  simpl. unfold get. destruct (own part (children t)) as [child|] eqn:Hown.
  - assert (Hq : avoids_prototype [part]).
    { apply (Ht [part] child). simpl. by rewrite Hown. }
    apply Forall_cons in Hq as [Hq _].
    rewrite IH; [done| |].
    + intros p d Hd. assert (Hp : avoids_prototype (part :: p)).
      { apply (Ht (part :: p) d). simpl. by rewrite Hown. }
      by apply Forall_cons in Hp as [_ Hp].
    + intros Hrest. apply Hpath. by constructor.
  - destruct (existsb (String.eqb part) object_prototype) eqn:Hpart; [done|].
    rewrite IH; [done| |].
    + intros p d Hd. apply descend_empty in Hd as [-> _]. constructor.
    + intros Hrest. apply Hpath. by constructor.
Qed.

Lemma avoids_prototype_dec path : {avoids_prototype path} + {¬ avoids_prototype path}.
Proof. apply Forall_dec. intros part. destruct (existsb _ _); [right|left]; done. Qed.

Lemma place_all_fails ns : ∀ t,
  unshadowed t →
  (place_all ns t = None ↔ Exists (fun node => ¬ avoids_prototype (namespaces node)) ns).
Proof.
  induction ns as [|node ns IH]; intros t Ht; simpl.
  - split; [done|]. by intros ?%Exists_nil.
  - rewrite Exists_cons. destruct (avoids_prototype_dec (namespaces node)) as [Hok|Hbad].
    + destruct (place_total _ node t Hok) as [t1 Hplace]. rewrite Hplace.
      rewrite IH by by eapply place_unshadowed. tauto.
    + rewrite place_shadowed by done. tauto.
Qed.

(** X4: [buildTree] raises exactly when some node of the list has, among its
    parts but the last, the name of a member of [Object.prototype]. *)
Theorem buildTree_fails_iff_inherited_namespace (ns : list Node) :
  buildTree ns = None
  ↔ ∃ node part, node ∈ ns ∧ part ∈ namespaces node ∧ part ∈ object_prototype.
Proof.
  unfold buildTree. rewrite fmap_None, place_all_fails.
  2: { intros p d Hd. apply descend_empty in Hd as [-> _]. constructor. }
  rewrite Exists_exists. split.
  - intros (node & Hnode & Hbad). exists node.
    apply not_Forall_Exists in Hbad; [|intros part; destruct (existsb _ _); [right|left]; done].
    apply Exists_exists in Hbad as (part & Hpart & Hinh).
    exists part. split; [done|]. split; [done|].
    destruct (existsb (String.eqb part) object_prototype) eqn:Hex; [|done].
    apply existsb_exists in Hex as (x & Hx & ->%String.eqb_eq). by apply list_elem_of_In.
  - intros (node & part & Hnode & Hpart & Hinh). exists node. split; [done|].
    intros Hok. unfold avoids_prototype in Hok. rewrite Forall_forall in Hok.
    specialize (Hok _ Hpart).
    assert (existsb (String.eqb part) object_prototype = true); [|congruence].
    apply existsb_exists. exists part. split; [by apply list_elem_of_In|apply String.eqb_refl].
Qed.

(** *** The parts of a name *)

Fixpoint slash_free (s : string) : bool :=
  match s with
  | EmptyString => true
  | String c s' => negb (Ascii.eqb c "/"%char) && slash_free s'
  end.

(** The name written [/p1/p2/.../pn]. *)
Fixpoint join (ps : list string) : string :=
  match ps with
  | [] => EmptyString
  | p :: ps' => (String "/"%char p ++ join ps')%string
  end.

Definition clean (p : string) : Prop := p ≠ EmptyString ∧ slash_free p = true.

Lemma append_cons c s t : (String c s ++ t = String c (s ++ t))%string.
Proof. reflexivity. Qed.

Lemma append_nil t : (EmptyString ++ t = t)%string.
Proof. reflexivity. Qed.

Lemma append_String s c t : (s ++ String c t = (s ++ String c EmptyString) ++ t)%string.
Proof.
  induction s as [|c' s IH]; [done|]. rewrite !append_cons. by f_equal.
Qed.

Lemma append_empty s : (s ++ EmptyString = s)%string.
Proof. induction s as [|c s IH]; [done|]. rewrite append_cons. by f_equal. Qed.

Lemma slash_free_snoc s c :
  slash_free s = true → Ascii.eqb c "/"%char = false →
  slash_free (s ++ String c EmptyString) = true.
Proof.
  intros Hs Hc. induction s as [|c' s IH].
  - rewrite append_nil. simpl. by rewrite Hc.
  - rewrite append_cons. simpl in *. apply andb_true_iff in Hs as [-> Hs]. by rewrite IH.
Qed.

Lemma split_on_slash_free s : ∀ segment,
  slash_free segment = true →
  Forall (fun p => slash_free p = true) (split_on_slash s segment).
Proof.
  induction s as [|c s IH]; intros segment Hseg; simpl.
  - by repeat constructor.
  - destruct (Ascii.eqb c "/"%char) eqn:Hc.
    + constructor; [done|]. by apply IH.
    + by apply IH, slash_free_snoc.
Qed.

Lemma split_on_slash_segment p : ∀ rest segment,
  slash_free p = true →
  split_on_slash (p ++ rest) segment = split_on_slash rest (segment ++ p).
Proof.
  induction p as [|c p IH]; intros rest segment Hp.
  - by rewrite append_nil, append_empty.
  - rewrite append_cons. simpl in *.
    apply andb_true_iff in Hp as [Hc Hp]. apply negb_true_iff in Hc. rewrite Hc.
    rewrite IH by done. by rewrite (append_String segment c p).
Qed.

Lemma split_on_slash_join ps : ∀ segment,
  Forall clean ps → split_on_slash (join ps) segment = segment :: ps.
Proof.
  induction ps as [|p ps IH]; intros segment Hps; [done|].
  apply Forall_cons in Hps as [[_ Hp] Hps].
  cbn [join]. rewrite append_cons. cbn [split_on_slash]. rewrite Ascii.eqb_refl.
  by rewrite split_on_slash_segment, append_nil, IH.
Qed.

(** X5: The parts of a name are never empty and hold no slash, whatever the
    name; and a name written as [/p1/p2/.../pn], with parts of that kind,
    has exactly these parts. *)
Theorem parts_of_a_name (n : Node) :
  Forall clean (parts n)
  ∧ ∀ ps, Forall clean ps → name n = join ps → parts n = ps.
Proof.
  split.
  - unfold parts. apply Forall_forall. intros p [Hin Hne]%list_elem_of_In%filter_In.
    split.
    + intros ->. done.
    + pose proof (split_on_slash_free (name n) EmptyString eq_refl) as Hall.
      rewrite Forall_forall in Hall. by apply Hall, list_elem_of_In.
  - intros ps Hps Hname. unfold parts. rewrite Hname, split_on_slash_join by done. simpl.
    clear Hname. induction Hps as [|p ps [Hp _] _ IH]; simpl; [done|].
    destruct (String.eqb_spec p EmptyString); [done|]. simpl. by f_equal.
Qed.

Example parts_ignore_extra_slashes :
  parts {| name := "//sensing///lidar/driver/"; status := "active"; type := "regular" |}
  = ["sensing"; "lidar"; "driver"].
Proof. reflexivity. Qed.

(** *** Expanding and collapsing *)

(** [addPaths] of [expandAll]: the full path of every namespace below
    [data], whose own full path is [path]. *)
Fixpoint addPaths (data : tree) (path : string) : list string :=
  match data with
  | Namespace cs _ _ _ _ =>
      flat_map (fun kc =>
                  let fullPath := (path ++ "/" ++ fst kc)%string in
                  fullPath :: addPaths (snd kc) fullPath) cs
  end.

(** [expandAll], [collapseAll] and [togglePath] of [NodeTree], on the set
    [expandedPaths]. *)
Definition expandAll (tree : tree) : gset string := list_to_set ("/" :: addPaths tree "").

Definition collapseAll : gset string := {[ "/" ]}.

Definition togglePath (path : string) (prev : gset string) : gset string :=
  if decide (path ∈ prev) then prev ∖ {[ path ]} else prev ∪ {[ path ]}.

(** [fullPath] of [TreeNode]: [path ? `${path}/${name}` : `/${name}`]; the
    empty string is falsy. *)
Definition fullPath (path name : string) : string :=
  if String.eqb path "" then ("/" ++ name)%string else (path ++ "/" ++ name)%string.

(** The full paths of the [TreeNode]s rendered below [data]: one for each
    child, and those below it when it is expanded.  (The component shows
    them sorted by name; the order here is that of the dictionary.) *)
Fixpoint rendered (expandedPaths : gset string) (data : tree) (path : string) : list string :=
  match data with
  | Namespace cs _ _ _ _ =>
      flat_map (fun kc =>
                  let full := fullPath path (fst kc) in
                  full :: (if decide (full ∈ expandedPaths)
                           then rendered expandedPaths (snd kc) full else [])) cs
  end.

Lemma fullPath_append path name : fullPath path name = (path ++ "/" ++ name)%string.
Proof. unfold fullPath. by destruct (String.eqb_spec path ""); [subst|]. Qed.

Lemma rendered_expanded (expandedPaths : gset string) (data : tree) : ∀ path,
  (∀ x, x ∈ addPaths data path → x ∈ expandedPaths) →
  rendered expandedPaths data path = addPaths data path.
Proof.
  induction data as [cs ns c a l IH] using tree_rect'. intros path. simpl.
  induction IH as [|kc cs Hkc _ IHcs]; simpl; [done|]. intros Hall.
  rewrite fullPath_append.
  rewrite decide_True by (apply Hall; by left).
  rewrite Hkc by (intros x Hx; apply Hall; right; apply elem_of_app; by left).
  f_equal. f_equal. apply IHcs.
  intros x Hx. apply Hall. right. apply elem_of_app. by right.
Qed.

Lemma rendered_namespaces (expandedPaths : gset string) (data : tree) : ∀ path x,
  x ∈ rendered expandedPaths data path → x ∈ addPaths data path.
Proof.
  induction data as [cs ns c a l IH] using tree_rect'. intros path x. simpl.
  induction IH as [|kc cs Hkc _ IHcs]; simpl; [done|].
  rewrite fullPath_append, !elem_of_cons, !elem_of_app.
  intros [->|[Hx|Hx]]; [by left| |by right; right; apply IHcs].
  case_decide; [|by apply elem_of_nil in Hx]. right. left. by apply Hkc.
Qed.

(** X6: After [expandAll] every namespace of the tree is rendered, each of
    them expanded; whatever is expanded, only namespaces of the tree are
    rendered; and [togglePath] undoes itself and touches no other path. *)
Theorem expandAll_renders_every_namespace (t : tree) :
  rendered (expandAll t) t "" = addPaths t ""
  ∧ (∀ x, x ∈ rendered (expandAll t) t "" → x ∈ expandAll t)
  ∧ (∀ expandedPaths x, x ∈ rendered expandedPaths t "" → x ∈ expandAll t)
  ∧ (∀ path prev, togglePath path (togglePath path prev) = prev)
  ∧ (∀ path prev other, other ≠ path → other ∈ togglePath path prev ↔ other ∈ prev).
Proof.
  assert (Hsub : ∀ expandedPaths x, x ∈ rendered expandedPaths t "" → x ∈ expandAll t).
  { intros S x Hx%rendered_namespaces. unfold expandAll.
    apply elem_of_list_to_set. by right. }
  split; [|split; [|split; [|split]]].
  - apply rendered_expanded. intros x Hx. apply elem_of_list_to_set. by right.
  - apply Hsub.
  - apply Hsub.
  - intros path prev. unfold togglePath. destruct (decide (path ∈ prev)) as [Hin|Hnin].
    + rewrite decide_False by set_solver. apply set_eq. intros x.
      destruct (decide (x = path)); set_solver.
    + rewrite decide_True by set_solver. set_solver.
  - intros path prev other Hne. unfold togglePath. case_decide; set_solver.
Qed.

(** The counts of the three nodes above. *)
Lemma buildTree_counts_witness :
  ∃ root,
    buildTree [driver; camera; listener] = Some root
    ∧ subtree root ≡ₚ [driver; camera; listener]
    ∧ (∀ t, t ∈ descendants root →
         exact t ∧ (lifecycleCount t ≤ activeCount t ≤ count t)%nat)
    ∧ count root = length [driver; camera; listener].
Proof.
  apply (buildTree_counts [driver; camera; listener]).
  unfold avoids_prototype. repeat (apply Forall_cons; split; [|]); try apply Forall_nil.
  all: vm_compute; repeat constructor.
Defined.

End Tree.

(** ** NotificationProvider *)

Module Toasts.

Definition MAX_NOTIFICATIONS : nat := 5.
Definition AUTO_DISMISS_MS : Z := 7000.

(** What a caller passes to [addNotification]; [severity] may be missing. *)
Record Request := { requested_severity : option string; requested_message : string }.

Record Notification := {
  id : string;
  timestamp : Z;
  severity : string;
  message : string
}.

(** [notification.severity || 'error']: a missing or empty severity is
    falsy. *)
Definition severity_or_error (r : Request) : string :=
  match requested_severity r with
  | Some s => if String.eqb s EmptyString then "error" else s
  | None => "error"
  end.

(** The state of the provider: the list held by [useState], the
    [Map] of [timersRef] from notification id to timer handle, and the
    timers of the browser that are still armed.  A handle returned by
    [setTimeout] is a positive integer, hence truthy. *)
Record Provider := {
  notifications : list Notification;
  timers : gmap string positive;
  armed : gset positive
}.

Definition initial : Provider := {| notifications := []; timers := ∅; armed := ∅ |}.

(** [const timer = timers.get(id); if (timer) { clearTimeout(timer);
    timers.delete(id); }] *)
Definition cancel (i : string) (tm : gmap string positive) (ar : gset positive)
  : gmap string positive * gset positive :=
  match tm !! i with
  | Some timer => (delete i tm, ar ∖ {[timer]})
  | None => (tm, ar)
  end.

(** [while (updated.length >= MAX_NOTIFICATIONS) { ...; updated = updated.slice(1); }] *)
Fixpoint evict (updated : list Notification) (tm : gmap string positive) (ar : gset positive)
  : list Notification * (gmap string positive * gset positive) :=
  match updated with
  | [] => ([], (tm, ar))
  | oldest :: rest =>
      if (MAX_NOTIFICATIONS <=? length updated)%nat then
        let '(tm', ar') := cancel (id oldest) tm ar in
        evict rest tm' ar'
      else (updated, (tm, ar))
  end.

(** [addNotification(notification)]; [uuid], [now] and [timer] are what
    [crypto.randomUUID()], [Date.now()] and [setTimeout(...)] return.  The
    state updater is run at the call. *)
Definition addNotification (r : Request) (uuid : string) (now : Z) (timer : positive)
    (p : Provider) : string * Provider :=
  let newNotification :=
    {| id := uuid; timestamp := now; severity := severity_or_error r;
       message := requested_message r |} in
  let '(updated, (tm, ar)) := evict (notifications p) (timers p) (armed p) in
  (uuid, {| notifications := updated ++ [newNotification];
            timers := <[uuid := timer]> tm;
            armed := ar ∪ {[timer]} |}).

(** [removeNotification(id)], also what the auto-dismiss timer calls. *)
Definition removeNotification (i : string) (p : Provider) : Provider :=
  let '(tm, ar) := cancel i (timers p) (armed p) in
  {| notifications := List.filter (fun n => negb (String.eqb (id n) i)) (notifications p);
     timers := tm; armed := ar |}.

(** [clearAll()] *)
Definition clearAll (p : Provider) : Provider :=
  {| notifications := [];
     timers := ∅;
     armed := armed p ∖ list_to_set (map snd (map_to_list (timers p))) |}.

Inductive call :=
| Add (r : Request) (uuid : string) (now : Z) (timer : positive)
| Remove (i : string)
| ClearAll.

Definition perform (p : Provider) (c : call) : Provider :=
  match c with
  | Add r uuid now timer => snd (addNotification r uuid now timer p)
  | Remove i => removeNotification i p
  | ClearAll => clearAll p
  end.

Definition after (calls : list call) : Provider := foldl perform initial calls.

(** *** The bound (C10) *)

Lemma evict_list updated : ∀ tm ar,
  fst (evict updated tm ar) = drop (length updated - (MAX_NOTIFICATIONS - 1)) updated.
Proof.
  induction updated as [|oldest rest IH]; intros tm ar; [done|].
  cbn [evict]. destruct (Nat.leb_spec MAX_NOTIFICATIONS (length (oldest :: rest))) as [Hfull|Hroom].
  - destruct (cancel (id oldest) tm ar) as [tm' ar']. rewrite IH.
    unfold MAX_NOTIFICATIONS in *. simpl in Hfull.
    replace (length (oldest :: rest) - (5 - 1))%nat with (S (length rest - (5 - 1)))
      by (simpl; lia).
    done.
  - unfold MAX_NOTIFICATIONS in *.
    by replace (length (oldest :: rest) - (5 - 1))%nat with 0%nat by lia.
Qed.

Lemma evict_length updated tm ar :
  (length (fst (evict updated tm ar)) ≤ MAX_NOTIFICATIONS - 1)%nat.
Proof. rewrite evict_list, length_drop. unfold MAX_NOTIFICATIONS. lia. Qed.

Lemma cancel_shrinks i tm ar tm' ar' :
  cancel i tm ar = (tm', ar') →
  ar' ⊆ ar ∧ (∀ j, tm' !! j = None ∨ tm' !! j = tm !! j) ∧ tm' !! i = None
  ∧ (∀ timer, tm !! i = Some timer → timer ∉ ar')
  ∧ (∀ j, j ≠ i → tm' !! j = tm !! j).
Proof.
  unfold cancel. destruct (tm !! i) as [timer|] eqn:Hi; intros [= <- <-].
  - split; [set_solver|]. split.
    { intros j. destruct (decide (i = j)) as [->|Hne].
      - left. apply lookup_delete_eq.
      - right. by apply lookup_delete_ne. }
    split; [apply lookup_delete_eq|]. split.
    + intros timer' [= <-]. set_solver.
    + intros j Hne. by apply lookup_delete_ne.
  - repeat split; auto. done.
Qed.

(** The notifications that the loop drops have no timer left: neither in
    the map nor armed. *)
Lemma evict_cancels updated : ∀ tm ar kept tm' ar',
  evict updated tm ar = (kept, (tm', ar')) →
  ar' ⊆ ar
  ∧ (∀ j, tm' !! j = None ∨ tm' !! j = tm !! j)
  ∧ ∀ n, n ∈ take (length updated - (MAX_NOTIFICATIONS - 1)) updated →
         tm' !! id n = None ∧ ∀ timer, tm !! id n = Some timer → timer ∉ ar'.
Proof.
  induction updated as [|oldest rest IH]; intros tm ar kept tm' ar'.
  - intros [= <- <- <-]. split; [done|]. split; [auto|]. by intros n ?%elem_of_nil.
  - cbn [evict].
    destruct (Nat.leb_spec MAX_NOTIFICATIONS (length (oldest :: rest))) as [Hfull|Hroom].
    + destruct (cancel (id oldest) tm ar) as [tm1 ar1] eqn:Hcancel. intros Hrest.
      apply cancel_shrinks in Hcancel as (Har1 & Htm1 & Hgone & Hdisarmed & Hother).
      apply IH in Hrest as (Har' & Htm' & Hdropped).
      split; [set_solver|]. split.
      { intros j. destruct (Htm' j) as [?|Hj]; [by left|].
        destruct (Htm1 j) as [Hnone|Hsame]; [left|right]; congruence. }
      unfold MAX_NOTIFICATIONS in *. simpl in Hfull.
      replace (length (oldest :: rest) - (5 - 1))%nat with (S (length rest - (5 - 1)))
        by (simpl; lia).
      intros n [->|Hn]%elem_of_cons.
      * split.
        -- destruct (Htm' (id oldest)) as [?|Heq]; [done|]. by rewrite Heq.
        -- intros timer Ht. specialize (Hdisarmed _ Ht). set_solver.
      * destruct (Hdropped _ Hn) as [Hnone Hdis]. split; [done|].
        intros timer Ht. destruct (decide (id n = id oldest)) as [Heq|Hne].
        -- rewrite Heq in Ht. specialize (Hdisarmed _ Ht). set_solver.
        -- apply Hdis. by rewrite Hother.
    + intros [= <- <- <-]. split; [done|]. split; [auto|].
      unfold MAX_NOTIFICATIONS in *.
      replace (length (oldest :: rest) - (5 - 1))%nat with 0%nat by lia.
      by intros n ?%elem_of_nil.
Qed.

Lemma perform_bounded p c :
  (length (notifications p) ≤ MAX_NOTIFICATIONS)%nat →
  (length (notifications (perform p c)) ≤ MAX_NOTIFICATIONS)%nat.
Proof.
  intros Hp. destruct c as [r uuid now timer|i|]; simpl.
  - unfold addNotification.
    pose proof (evict_length (notifications p) (timers p) (armed p)) as Hev.
    destruct (evict _ _ _) as [updated [tm ar]]. simpl in *.
    rewrite length_app. simpl. unfold MAX_NOTIFICATIONS in *. lia.
  - unfold removeNotification. destruct (cancel _ _ _) as [tm ar]. simpl.
    etrans; [apply filter_length_le|done].
  - unfold MAX_NOTIFICATIONS. lia.
Qed.

(** C10: after any sequence of calls the list holds at most five
    notifications.  An [addNotification] keeps the last four of the
    notifications it finds, in their order, when there are more, and puts
    the new one at the end; every notification it drops is an oldest one
    and has its timer cancelled: unless the new notification reuses its
    identifier or its handle, it has no entry left in the timer map and its
    handle is no longer armed. *)
Theorem C10_at_most_five_notifications (calls : list call) :
  (length (notifications (after calls)) ≤ MAX_NOTIFICATIONS)%nat
  ∧ ∀ r uuid now timer,
      let p := after calls in
      let p' := snd (addNotification r uuid now timer p) in
      let dropped := (length (notifications p) - (MAX_NOTIFICATIONS - 1))%nat in
      fst (addNotification r uuid now timer p) = uuid
      ∧ notifications p'
        = drop dropped (notifications p)
          ++ [{| id := uuid; timestamp := now; severity := severity_or_error r;
                 message := requested_message r |}]
      ∧ (length (notifications p') ≤ MAX_NOTIFICATIONS)%nat
      ∧ ∀ n, n ∈ take dropped (notifications p) →
          (id n ≠ uuid → timers p' !! id n = None)
          ∧ ∀ old, timers p !! id n = Some old → old ≠ timer → old ∉ armed p'.
Proof.
  assert (Hbound : ∀ cs p, (length (notifications p) ≤ MAX_NOTIFICATIONS)%nat →
            (length (notifications (foldl perform p cs)) ≤ MAX_NOTIFICATIONS)%nat).
  { induction cs as [|c cs IH]; intros p Hp; simpl; [done|]. by apply IH, perform_bounded. }
  split; [apply Hbound; simpl; lia|].
  intros r uuid now timer p p' dropped. subst p'. unfold addNotification.
  pose proof (evict_list (notifications p) (timers p) (armed p)) as Hlist.
  pose proof (evict_length (notifications p) (timers p) (armed p)) as Hlen.
  pose proof (evict_cancels (notifications p) (timers p) (armed p)) as Hcancel.
  destruct (evict _ _ _) as [updated [tm ar]]. simpl in *.
  destruct (Hcancel _ _ _ eq_refl) as (_ & _ & Hdropped).
  split; [done|]. split; [by rewrite Hlist|]. split.
  { rewrite length_app. simpl. unfold MAX_NOTIFICATIONS in *. lia. }
  intros n Hn. destruct (Hdropped _ Hn) as [Hnone Hdis]. split.
  - intros Hne. by rewrite lookup_insert_ne.
  - intros old Hold Hfresh. specialize (Hdis _ Hold). set_solver.
Qed.

(** Six errors in a row: the first one is gone, and so is its timer. *)
Definition six_errors : list call :=
  [Add {| requested_severity := None; requested_message := "a" |} "id-1" 1 1;
   Add {| requested_severity := Some "warning"; requested_message := "b" |} "id-2" 2 2;
   Add {| requested_severity := None; requested_message := "c" |} "id-3" 3 3;
   Add {| requested_severity := None; requested_message := "d" |} "id-4" 4 4;
   Add {| requested_severity := None; requested_message := "e" |} "id-5" 5 5;
   Add {| requested_severity := Some ""; requested_message := "f" |} "id-6" 6 6].

Example after_six_errors :
  map id (notifications (after six_errors)) = ["id-2"; "id-3"; "id-4"; "id-5"; "id-6"]
  ∧ map severity (notifications (after six_errors))
    = ["warning"; "error"; "error"; "error"; "error"]
  ∧ timers (after six_errors) !! "id-1" = None
  ∧ timers (after six_errors) !! "id-6" = Some 6%positive
  ∧ bool_decide (1%positive ∈ armed (after six_errors)) = false
  ∧ notifications (removeNotification "id-4" (after six_errors))
    = List.filter (fun n => negb (String.eqb (id n) "id-4")) (notifications (after six_errors)).
Proof. repeat split; vm_compute; reflexivity. Qed.

(** *** Timers and notifications go together *)

Definition shown (p : Provider) : list string := map id (notifications p).

(** Every notification shown has its own timer, armed, and there is no
    other timer: the identifiers shown are distinct, they are the keys of
    the timer map, no handle serves two of them, and the armed handles are
    those of the map. *)
Record consistent (p : Provider) : Prop := {
  distinct_ids : NoDup (shown p);
  timers_of_shown : ∀ i, is_Some (timers p !! i) ↔ i ∈ shown p;
  one_handle_each : ∀ i j h, timers p !! i = Some h → timers p !! j = Some h → i = j;
  armed_of_timers : ∀ h, h ∈ armed p ↔ ∃ i, timers p !! i = Some h
}.

(** Each call made in turn; an [Add] comes with an identifier that is not
    shown and a handle that is not armed, as [crypto.randomUUID()] and
    [setTimeout] return them. *)
Fixpoint fresh (p : Provider) (calls : list call) : Prop :=
  match calls with
  | [] => True
  | c :: calls' =>
      (match c with
       | Add _ uuid _ timer => (uuid ∉ shown p) ∧ (timer ∉ armed p)
       | _ => True
       end)
      ∧ fresh (perform p c) calls'
  end.

Definition provider (l : list Notification) (tm : gmap string positive) (ar : gset positive)
  : Provider := {| notifications := l; timers := tm; armed := ar |}.

Lemma cancel_consistent n l tm ar :
  consistent (provider (n :: l) tm ar) →
  consistent (provider l (cancel (id n) tm ar).1 (cancel (id n) tm ar).2).
Proof.
  intros [Hnd Hdom Hinj Har]. unfold shown in *. simpl in *.
  apply NoDup_cons in Hnd as [Hnotin Hnd].
  destruct (proj2 (Hdom (id n))) as [h Hh]; [by left|].
  unfold cancel. rewrite Hh. simpl. split; unfold shown; simpl.
  - done.
  - intros i. destruct (decide (i = id n)) as [->|Hne].
    + rewrite lookup_delete_eq. split; [by intros [? ?]|done].
    + rewrite lookup_delete_ne, Hdom, elem_of_cons by done. naive_solver.
  - intros i j h'. destruct (decide (i = id n)) as [->|Hi]; [by rewrite lookup_delete_eq|].
    destruct (decide (j = id n)) as [->|Hj]; [by rewrite lookup_delete_eq|].
    rewrite !lookup_delete_ne by done. apply Hinj.
  - intros h'. rewrite elem_of_difference, Har, not_elem_of_singleton. split.
    + intros [[i Hi] Hne]. exists i. rewrite lookup_delete_ne; [done|]. congruence.
    + intros [i Hi]. destruct (decide (i = id n)) as [->|Hne];
        [by rewrite lookup_delete_eq in Hi|].
      rewrite lookup_delete_ne in Hi by done. split; [eauto|].
      intros ->. apply Hne. by eapply Hinj.
Qed.

Lemma evict_consistent l : ∀ tm ar,
  consistent (provider l tm ar) →
  consistent (provider (evict l tm ar).1 (evict l tm ar).2.1 (evict l tm ar).2.2).
Proof.
  induction l as [|n l IH]; intros tm ar Hp; [done|]. cbn [evict].
  destruct (MAX_NOTIFICATIONS <=? length (n :: l))%nat; [|done].
  pose proof (cancel_consistent _ _ _ _ Hp) as Hq.
  destruct (cancel (id n) tm ar) as [tm' ar']. by apply IH.
Qed.

Lemma perform_consistent p c : consistent p → fresh p [c] → consistent (perform p c).
Proof.
  intros Hp [Hfresh _]. destruct c as [r uuid now timer|i|]; simpl.
  - destruct Hfresh as [Huuid Htimer]. unfold addNotification.
    pose proof (evict_consistent (notifications p) (timers p) (armed p)) as Hev.
    pose proof (evict_list (notifications p) (timers p) (armed p)) as Hlist.
    pose proof (evict_cancels (notifications p) (timers p) (armed p)) as Hcancel.
    destruct (evict _ _ _) as [updated [tm ar]]. simpl in *.
    destruct (Hcancel _ _ _ eq_refl) as (Hsub & _ & _).
    destruct Hev as [Hnd Hdom Hinj Har]; [by destruct p|]. unfold shown in *. simpl in *.
    assert (Hnew : uuid ∉ map id updated).
    { intros Hin. apply Huuid. rewrite Hlist in Hin.
      apply list_elem_of_fmap in Hin as (n & -> & Hn). apply list_elem_of_fmap.
      exists n. split; [done|]. by eapply subseteq_drop. }
    assert (Hunused : ∀ i, tm !! i ≠ Some timer).
    { intros i Hi. apply Htimer, Hsub, Har. eauto. }
    split; unfold shown; simpl.
    + rewrite map_app. simpl. apply NoDup_app. split; [done|].
      split; [|apply NoDup_singleton].
      intros x Hx Hx'%list_elem_of_singleton. by rewrite Hx' in Hx.
    + intros i. rewrite map_app, elem_of_app. simpl. rewrite list_elem_of_singleton.
      destruct (decide (i = uuid)) as [->|Hne].
      * rewrite lookup_insert_eq. split; [by right|eauto].
      * rewrite lookup_insert_ne, Hdom by done. naive_solver.
    + intros i j h. destruct (decide (i = uuid)) as [->|Hi];
        destruct (decide (j = uuid)) as [->|Hj];
        rewrite ?lookup_insert_eq, ?lookup_insert_ne by done; try done.
      * intros [= <-] Hj'. by destruct (Hunused j).
      * intros Hi' [= <-]. by destruct (Hunused i).
      * apply Hinj.
    + intros h. rewrite elem_of_union, elem_of_singleton, Har. split.
      * intros [[i Hi]| ->].
        -- exists i. rewrite lookup_insert_ne; [done|]. intros ->. apply Hnew, Hdom. eauto.
        -- exists uuid. by rewrite lookup_insert_eq.
      * intros [i Hi]. destruct (decide (i = uuid)) as [->|Hne].
        -- rewrite lookup_insert_eq in Hi. right. congruence.
        -- rewrite lookup_insert_ne in Hi by done. left. eauto.
  - unfold removeNotification. destruct Hp as [Hnd Hdom Hinj Har]. unfold shown in *.
    assert (Hkeep : ∀ j, j ∈ map id (List.filter (fun n => negb (String.eqb (id n) i))
                                       (notifications p))
                          ↔ j ∈ map id (notifications p) ∧ j ≠ i).
    { intros j. rewrite !list_elem_of_fmap. split.
      - intros (n & -> & [Hn Hne]%list_elem_of_In%filter_In). split.
        + exists n. split; [done|]. by apply list_elem_of_In.
        + intros Heq. rewrite Heq, String.eqb_refl in Hne. done.
      - intros [(n & -> & Hn) Hne]. exists n. split; [done|].
        apply list_elem_of_In, filter_In. split; [by apply list_elem_of_In|].
        by destruct (String.eqb_spec (id n) i). }
    assert (Hnd' : NoDup (map id (List.filter (fun n => negb (String.eqb (id n) i))
                                    (notifications p)))).
    { clear -Hnd. induction (notifications p) as [|n l IH]; simpl in *; [constructor|].
      apply NoDup_cons in Hnd as [Hnotin Hnd].
      destruct (negb _); simpl; [|by apply IH].
      apply NoDup_cons. split; [|by apply IH].
      intros (m & Hm & [Hin _]%list_elem_of_In%filter_In)%list_elem_of_fmap.
      apply Hnotin, list_elem_of_fmap. exists m. split; [done|]. by apply list_elem_of_In. }
    unfold cancel. destruct (timers p !! i) as [h|] eqn:Hi; split; unfold shown; simpl.
    + done.
    + intros j. rewrite Hkeep, <- Hdom. destruct (decide (j = i)) as [->|Hne].
      * rewrite lookup_delete_eq. split; [by intros [? ?]|by intros [_ ?]].
      * rewrite lookup_delete_ne by done. naive_solver.
    + intros j k h'. destruct (decide (j = i)) as [->|Hj]; [by rewrite lookup_delete_eq|].
      destruct (decide (k = i)) as [->|Hk]; [by rewrite lookup_delete_eq|].
      rewrite !lookup_delete_ne by done. apply Hinj.
    + intros h'. rewrite elem_of_difference, Har, not_elem_of_singleton. split.
      * intros [[j Hj] Hne]. exists j. rewrite lookup_delete_ne; [done|]. congruence.
      * intros [j Hj]. destruct (decide (j = i)) as [->|Hne];
          [by rewrite lookup_delete_eq in Hj|].
        rewrite lookup_delete_ne in Hj by done. split; [eauto|].
        intros ->. apply Hne. by eapply Hinj.
    + done.
    + intros j. rewrite Hkeep, <- Hdom. split; [|by intros [? _]].
      intros Hj. split; [done|]. intros ->. rewrite Hi in Hj. by destruct Hj.
    + done.
    + done.
  - destruct Hp as [Hnd Hdom Hinj Har]. split; unfold shown; simpl.
    + constructor.
    + intros i. rewrite lookup_empty. split; [by intros [? ?]|by intros ?%elem_of_nil].
    + intros i j h. by rewrite lookup_empty.
    + intros h. rewrite elem_of_difference, Har, elem_of_list_to_set. split.
      * intros [[i Hi] Hnot]. destruct Hnot. apply list_elem_of_fmap.
        exists (i, h). split; [done|]. by apply elem_of_map_to_list.
      * intros [i Hi]. by rewrite lookup_empty in Hi.
Qed.

Lemma perform_all_consistent calls : ∀ p,
  consistent p → fresh p calls → consistent (foldl perform p calls).
Proof.
  induction calls as [|c calls IH]; intros p Hp Hfresh; simpl; [done|].
  destruct Hfresh as [Hc Hrest]. apply IH; [|done]. by apply perform_consistent.
Qed.

(** X7: No timer leaks and none is missing: after any sequence of calls in
    which every [addNotification] gets an unused identifier and an unused
    timer handle, the notifications shown have distinct identifiers, each
    has exactly one timer in the map, armed, and no other timer is in the
    map or armed. *)
Theorem timers_match_notifications (calls : list call) :
  fresh initial calls → consistent (after calls).
Proof.
  intros Hfresh. apply perform_all_consistent; [|done].
  split; unfold shown; simpl.
  - constructor.
  - intros i. rewrite lookup_empty. split; [by intros [? ?]|by intros ?%elem_of_nil].
  - intros i j h. by rewrite lookup_empty.
  - intros h. split; [by intros ?%elem_of_empty|]. intros [i Hi]. by rewrite lookup_empty in Hi.
Qed.

(** A session with every kind of call: six notifications, one dismissed
    by hand, one more, everything cleared, and an identifier and a handle
    used again afterwards. *)
Definition busy_session : list call :=
  six_errors
  ++ [Remove "id-4";
      Add {| requested_severity := Some "info"; requested_message := "g" |} "id-7" 7 7;
      Remove "id-0";
      ClearAll;
      Add {| requested_severity := None; requested_message := "h" |} "id-1" 8 1].

Lemma timers_match_witness : consistent (after busy_session).
Proof.
  apply (timers_match_notifications busy_session).
  cbn [busy_session six_errors app fresh].
  repeat split; apply (bool_decide_unpack _); vm_compute; exact I.
Defined.

(** *** Dismissing *)

Lemma filter_out_twice i (l : list Notification) :
  List.filter (fun n => negb (String.eqb (id n) i))
    (List.filter (fun n => negb (String.eqb (id n) i)) l)
  = List.filter (fun n => negb (String.eqb (id n) i)) l.
Proof.
  induction l as [|n l IH]; simpl; [done|].
  destruct (negb (String.eqb (id n) i)) eqn:Hn; simpl; [|done]. by rewrite Hn, IH.
Qed.

Lemma filter_out_absent i (l : list Notification) :
  i ∉ map id l → List.filter (fun n => negb (String.eqb (id n) i)) l = l.
Proof.
  induction l as [|n l IH]; simpl; [done|]. intros [Hne Hnotin]%not_elem_of_cons.
  destruct (String.eqb_spec (id n) i); [done|]. simpl. by rewrite IH.
Qed.

Lemma filter_out_ids i (l : list Notification) :
  map id (List.filter (fun n => negb (String.eqb (id n) i)) l)
  = List.filter (fun j => negb (String.eqb j i)) (map id l).
Proof.
  induction l as [|n l IH]; simpl; [done|].
  destruct (negb (String.eqb (id n) i)); simpl; by rewrite IH.
Qed.

(** X8: [removeNotification] takes the notification with the given identifier
    off the list and leaves the others in their order; doing it a second
    time changes nothing more, the identifier has no timer left, and
    dismissing an identifier that is not shown (a timer that fires late, a
    double click) leaves the provider exactly as it was. *)
Theorem removeNotification_is_idempotent (i : string) (p : Provider) :
  shown (removeNotification i p) = List.filter (fun j => negb (String.eqb j i)) (shown p)
  ∧ timers (removeNotification i p) !! i = None
  ∧ removeNotification i (removeNotification i p) = removeNotification i p
  ∧ (consistent p → i ∉ shown p → removeNotification i p = p).
Proof.
  assert (Hremove : ∀ q, removeNotification i q
            = provider (List.filter (fun n => negb (String.eqb (id n) i)) (notifications q))
                (cancel i (timers q) (armed q)).1 (cancel i (timers q) (armed q)).2).
  { intros q. unfold removeNotification. by destruct (cancel _ _ _). }
  destruct (cancel i (timers p) (armed p)) as [tm ar] eqn:Hcancel.
  pose proof (cancel_shrinks _ _ _ _ _ Hcancel) as (_ & _ & Hgone & _ & _).
  rewrite (Hremove (removeNotification i p)), !(Hremove p), Hcancel.
  unfold shown, provider. cbn [notifications timers armed fst snd].
  split; [apply filter_out_ids|]. split; [done|]. split.
  - unfold cancel. rewrite Hgone. by rewrite filter_out_twice.
  - intros [_ Hdom _ _] Hnotin. unfold cancel in Hcancel.
    destruct (timers p !! i) as [h|] eqn:Hi.
    + destruct Hnotin. apply Hdom. eauto.
    + injection Hcancel as <- <-. unfold shown in Hnotin.
      rewrite filter_out_absent by done. by destruct p.
Qed.

End Toasts.
